(** * A shallow embedding of [obfuscate.py], the C source obfuscator

    The program is a pipeline over text:
    tokenize, strip comments, rename identifiers, compress whitespace,
    detokenize, flatten lines, inject macros, obfuscate numbers.

    Text is modelled as [list ascii].  The embedding covers ASCII source
    text: the classes [\d], [\w], [\s] and [str.strip] are the ASCII parts
    of Python's Unicode classes.  Python's process-wide random state is an
    explicit stream of raw draws threaded through the code that consumes
    it; every theorem that mentions it holds for every stream.  The two
    exceptions the code can raise are explicit error results:
    [IndexError] in [names[i]], and [ValueError] in [int], which CPython
    (3.11 and later, with the default [sys.int_max_str_digits] of 4300)
    raises on a numeral of more than 4300 digits.  Where a property
    speaks of the value C gives an expression, [int] has 32 bits. *)

From Stdlib Require Import Ascii String.
From Stdlib Require Import List Arith Bool Lia ZArith NArith.
From Stdlib Require Import Permutation Sorted.
From Stdlib Require Import DecimalString HexString OctalString.
From Stdlib Require DecimalPos.
Import ListNotations.

Local Open Scope char_scope.
Local Open Scope nat_scope.
Local Open Scope list_scope.

(** ** Text *)

Definition str := list ascii.

(** String literals of the source are written [txt "..."]. *)
Definition txt (s : string) : str := list_ascii_of_string s.

Definition str_eqb (a b : str) : bool :=
  if list_eq_dec ascii_dec a b then true else false.

(** [x in l] on a list or set of strings. *)
Definition mem (x : str) (l : list str) : bool := existsb (str_eqb x) l.

(** [c in value] on characters. *)
Definition has_char (c : ascii) (s : str) : bool := existsb (Ascii.eqb c) s.

(** [s.startswith(p)] *)
Fixpoint startswith (p s : str) : bool :=
  match p, s with
  | [], _ => true
  | _ :: _, [] => false
  | a :: p', b :: s' => Ascii.eqb a b && startswith p' s'
  end.

(** ** Character classes of [re] (ASCII part) *)

Definition nl : ascii := "010".

Definition in_range (lo hi : nat) (c : ascii) : bool :=
  let n := nat_of_ascii c in ((lo <=? n)%nat && (n <=? hi)%nat)%bool.

(** [\d] *)
Definition is_digit (c : ascii) : bool := in_range 48 57 c.
(** [[0-9a-fA-F]] *)
Definition is_hex (c : ascii) : bool :=
  is_digit c || in_range 97 102 c || in_range 65 70 c.
(** [[0-7]] *)
Definition is_oct (c : ascii) : bool := in_range 48 55 c.
(** [[A-Za-z_]] *)
Definition is_ident_start (c : ascii) : bool :=
  in_range 65 90 c || in_range 97 122 c || Ascii.eqb c "_".
(** [\w] *)
Definition is_word (c : ascii) : bool := is_ident_start c || is_digit c.
(** [\s] and [str.isspace]: tab, newline, VT, FF, CR, FS, GS, RS, US, space *)
Definition is_space (c : ascii) : bool :=
  in_range 9 13 c || in_range 28 32 c.
(** [[^\n]] *)
Definition not_nl (c : ascii) : bool := negb (Ascii.eqb c nl).

(** Length of the longest prefix of [s] whose characters satisfy [p]:
    what a greedy [[class]*] consumes. *)
Fixpoint span (p : ascii -> bool) (s : str) : nat :=
  match s with
  | c :: s' => if p c then S (span p s') else 0
  | [] => 0
  end.

(** ** The scanning loop of [re]

    [finditer], [sub] and [split] all walk the text from left to right:
    at each position the pattern is tried; a match is taken and the walk
    resumes at its end, otherwise the walk moves one character on.  None
    of the program's patterns can match the empty string.

    A matcher sees the character before the position ([None] at the start
    of the text; for [^] and [\b]) and the text from the position on, and
    returns the length of the match with what the replacement or the
    caller reads from the match object. *)

Section Scan.
Context {G : Type}.

Inductive piece : Type :=
| Gap (c : ascii)              (* a character no match covers *)
| Match (lexeme : str) (g : G) (* [m.group()] and the match's data *).

Definition matcher := option ascii -> str -> option (nat * G).

Fixpoint scan (m : matcher) (prev : option ascii) (skip : nat) (s : str)
  : list piece :=
  match s with
  | [] => []
  | c :: s' =>
    match skip with
    | S k => scan m (Some c) k s'
    | O =>
      match m prev s with
      | Some (S n, g) => Match (c :: firstn n s') g :: scan m (Some c) n s'
      | _ => Gap c :: scan m (Some c) 0 s'
      end
    end
  end.

Definition piece_text (p : piece) : str :=
  match p with
  | Gap c => [c]
  | Match lexeme _ => lexeme
  end.

(** The matches, in order: [pattern.finditer(s)]. *)
Fixpoint matches (ps : list piece) : list (str * G) :=
  match ps with
  | [] => []
  | Gap _ :: ps' => matches ps'
  | Match lexeme g :: ps' => (lexeme, g) :: matches ps'
  end.

(** The characters no match covers, in order. *)
Fixpoint gaps (ps : list piece) : str :=
  match ps with
  | [] => []
  | Gap c :: ps' => c :: gaps ps'
  | Match _ _ :: ps' => gaps ps'
  end.

(** [pattern.split(s)] for a pattern that is one capture group:
    the text between matches and the matches, alternating; [seg] is the
    text since the last match. *)
Fixpoint split_pieces (seg : str) (ps : list piece) : list str :=
  match ps with
  | [] => [seg]
  | Gap c :: ps' => split_pieces (seg ++ [c]) ps'
  | Match lexeme _ :: ps' => seg :: lexeme :: split_pieces [] ps'
  end.

(** [pattern.sub(repl, s)] for a replacement that is a function of the
    match data. *)
Definition sub_pieces (repl : str -> G -> str) (ps : list piece) : str :=
  concat (map (fun p => match p with
                        | Gap c => [c]
                        | Match lexeme g => repl lexeme g
                        end) ps).
End Scan.

Arguments piece : clear implicits.
Arguments matcher : clear implicits.

(** ** Tokens *)

Inductive kind : Type :=
| Kcomment | Kstring | Kcharlit | Kpreproc | Knumber | Kident | Kop | Kpunct
| Kws.

Definition kind_eqb (a b : kind) : bool :=
  match a, b with
  | Kcomment, Kcomment | Kstring, Kstring | Kcharlit, Kcharlit
  | Kpreproc, Kpreproc | Knumber, Knumber | Kident, Kident | Kop, Kop
  | Kpunct, Kpunct | Kws, Kws => true
  | _, _ => false
  end.

Definition token : Type := kind * str.

(** ** TOKEN_REGEX, alternative by alternative

    Each function returns the length of the match of its alternative at
    the start of [s], if there is one. *)

(** [.*?\*/] with DOTALL: up to and including the first [*/]. *)
Fixpoint to_comment_end (s : str) : option nat :=
  match s with
  | [] => None
  | c :: s' =>
    if Ascii.eqb c "*" && startswith ["/"] s' then Some 2
    else option_map S (to_comment_end s')
  end.

(** [/\*.*?\*/|//[^\n]*] *)
Definition match_comment (s : str) : option nat :=
  match s with
  | a :: b :: r =>
    if Ascii.eqb a "/" && Ascii.eqb b "*"
    then option_map (fun n => 2 + n) (to_comment_end r)
    else if Ascii.eqb a "/" && Ascii.eqb b "/" then Some (2 + span not_nl r)
    else None
  | _ => None
  end.

(** The body and closing quote of a quoted literal, for a quote character
    [q]: characters other than [q] and backslash, or a backslash and any
    character (DOTALL), repeated, then [q]. *)
Fixpoint quoted_body (q : ascii) (s : str) : option nat :=
  match s with
  | [] => None
  | c :: s' =>
    if Ascii.eqb c q then Some 1
    else if Ascii.eqb c "\" then
      match s' with
      | [] => None
      | _ :: s'' => option_map (fun n => 2 + n) (quoted_body q s'')
      end
    else option_map S (quoted_body q s')
  end.

(** A quoted literal: [q], its body, [q]. *)
Definition match_quoted (q : ascii) (s : str) : option nat :=
  match s with
  | c :: s' => if Ascii.eqb c q then option_map S (quoted_body q s') else None
  | [] => None
  end.

(** The [string] alternative: quoted by the double quote. *)
Definition dquote : ascii := "034".

Definition match_string : str -> option nat := match_quoted dquote.
(** The [charlit] alternative: quoted by the single quote. *)
Definition match_charlit : str -> option nat := match_quoted "'".

(** [^] under MULTILINE *)
Definition at_line_start (prev : option ascii) : bool :=
  match prev with
  | None => true
  | Some c => Ascii.eqb c nl
  end.

(** [^\#[^\n]*] *)
Definition match_preproc (prev : option ascii) (s : str) : option nat :=
  match s with
  | c :: s' =>
    if at_line_start prev && Ascii.eqb c "#" then Some (S (span not_nl s'))
    else None
  | [] => None
  end.

(** [0[xX][0-9a-fA-F]+] *)
Definition match_hex (s : str) : option nat :=
  match s with
  | z :: x :: r =>
    if Ascii.eqb z "0" && (Ascii.eqb x "x" || Ascii.eqb x "X")
       && (0 <? span is_hex r)
    then Some (2 + span is_hex r) else None
  | _ => None
  end.

(** [0[0-7]+] *)
Definition match_octal (s : str) : option nat :=
  match s with
  | z :: r =>
    if Ascii.eqb z "0" && (0 <? span is_oct r) then Some (1 + span is_oct r)
    else None
  | [] => None
  end.

(** The optional fraction: a dot and digits. *)
Definition match_fraction (s : str) : nat :=
  match s with
  | c :: r => if Ascii.eqb c "." then 1 + span is_digit r else 0
  | [] => 0
  end.

(** The optional exponent: [e] or [E], an optional sign, digits. *)
Definition match_exponent (s : str) : nat :=
  match s with
  | e :: r =>
    if Ascii.eqb e "e" || Ascii.eqb e "E" then
      let sign := match r with
                  | c :: _ => if Ascii.eqb c "+" || Ascii.eqb c "-" then 1 else 0
                  | [] => 0
                  end in
      let digits := span is_digit (skipn sign r) in
      if (0 <? digits) then 1 + sign + digits else 0
    else 0
  | [] => 0
  end.

(** Digits, the optional fraction, the optional exponent. *)
Definition match_decimal (s : str) : option nat :=
  let d := span is_digit s in
  if (0 <? d) then
    let f := match_fraction (skipn d s) in
    let e := match_exponent (skipn (d + f) s) in
    Some (d + f + e)
  else None.

Definition orelse {A : Type} (a b : option A) : option A :=
  match a with
  | Some _ => a
  | None => b
  end.

(** The [number] alternative: hexadecimal, else octal, else decimal. *)
Definition match_number (s : str) : option nat :=
  orelse (match_hex s) (orelse (match_octal s) (match_decimal s)).

(** [[A-Za-z_]\w*] *)
Definition match_ident (s : str) : option nat :=
  match s with
  | c :: s' => if is_ident_start c then Some (S (span is_word s')) else None
  | [] => None
  end.

(** [[+\-*/%&|^~!<>=?:]] *)
Definition is_op_char (c : ascii) : bool :=
  has_char c (txt "+-*/%&|^~!<>=?:").

(** [<<=|>>=|<<|>>|->|&&|\|\||[+\-*/%&|^~!<>=?:]=?|==|!=|<=|>=|\+\+|--]:
    the alternatives after the character class are never reached, every
    text they match starts with a character of the class. *)
Definition match_op (s : str) : option nat :=
  if startswith (txt "<<=") s then Some 3
  else if startswith (txt ">>=") s then Some 3
  else if startswith (txt "<<") s then Some 2
  else if startswith (txt ">>") s then Some 2
  else if startswith (txt "->") s then Some 2
  else if startswith (txt "&&") s then Some 2
  else if startswith (txt "||") s then Some 2
  else match s with
       | c :: s' =>
         if is_op_char c then Some (if startswith ["="] s' then 2 else 1)
         else None
       | [] => None
       end.

(** [[{}()\[\];,.]] *)
Definition match_punct (s : str) : option nat :=
  match s with
  | c :: _ => if has_char c (txt "{}()[];,.") then Some 1 else None
  | [] => None
  end.

(** [\s+] *)
Definition match_ws (s : str) : option nat :=
  if (0 <? span is_space s) then Some (span is_space s) else None.

Definition tagged {G : Type} (g : G) (r : option nat) : option (nat * G) :=
  option_map (fun n => (n, g)) r.

(** The alternation: the first alternative that matches wins, and its
    group name is [m.lastgroup]. *)
Definition TOKEN_REGEX : matcher kind := fun prev s =>
  orelse (tagged Kcomment (match_comment s))
  (orelse (tagged Kstring (match_string s))
  (orelse (tagged Kcharlit (match_charlit s))
  (orelse (tagged Kpreproc (match_preproc prev s))
  (orelse (tagged Knumber (match_number s))
  (orelse (tagged Kident (match_ident s))
  (orelse (tagged Kop (match_op s))
  (orelse (tagged Kpunct (match_punct s))
          (tagged Kws (match_ws s))))))))).

(** ** tokenize, detokenize *)

Definition tokenize (code : str) : list token :=
  map (fun m => (snd m, fst m)) (matches (scan TOKEN_REGEX None 0 code)).

Definition detokenize (tokens : list token) : str :=
  concat (map snd tokens).

(** The characters of [code] that [finditer] steps over. *)
Definition unscanned (code : str) : str :=
  gaps (scan TOKEN_REGEX None 0 code).

(** A valid source: every character lies in some match. *)
Definition valid_source (code : str) : Prop := unscanned code = [].

(** ** Configuration *)

Inductive level : Type := mild | moderate | extreme.

(** Identifiers that must never be renamed *)
Definition RESERVED : list str := map txt
  [ (* C keywords *)
    "auto"; "break"; "case"; "char"; "const"; "continue"; "default"; "do";
    "double"; "else"; "enum"; "extern"; "float"; "for"; "goto"; "if";
    "int"; "long"; "register"; "return"; "short"; "signed"; "sizeof";
    "static"; "struct"; "switch"; "typedef"; "union"; "unsigned"; "void";
    "volatile"; "while";
    (* Standard library *)
    "printf"; "scanf"; "malloc"; "free"; "strlen"; "strcpy"; "strcmp";
    "memcpy"; "fopen"; "fclose"; "fread"; "fwrite"; "exit"; "NULL"; "stdin";
    "stdout"; "stderr";
    (* Entry point *)
    "main" ]%string.

(** Visually confusing names for extreme mode *)
Definition CONFUSING : list str := map txt
  [ "O0"; "l1"; "Il"; "lI"; "O0l"; "l1I"; "I1l"; "OO0"; "ll1"; "Ill"; "lll";
    "III"; "oO0"; "O0o"; "_O"; "_0"; "_l"; "_I"; "__O"; "__0"; "__l"; "__I";
    "O_0"; "l_1"; "I_l"; "_O0"; "_l1"; "_Il"; "OOO"; "lll1"; "IlI"; "lIl";
    "IIl"; "O0O0"; "l1l1"; "IlIl"; "O00O"; "l11l"; "oOoO"; "Oo0O"; "oO0o";
    "lO0l"; "IlO0"; "OlIl"; "lIO0"; "O0Il"; "Il0O"; "lO0I" ]%string.

(** ** The random source

    [random] is modelled by the stream of its raw draws: [randbelow n]
    reads one draw and reduces it below [n].  [choice], [randint] and
    [shuffle] are the standard library's, written over [randbelow]. *)

Definition rng : Type := nat -> nat.

Definition randbelow (n : nat) (r : rng) : nat * rng :=
  (r 0 mod n, fun i => r (S i)).

(** [random.choice(seq)] *)
Definition choice {A : Type} (d : A) (seq : list A) (r : rng) : A * rng :=
  let (i, r') := randbelow (length seq) r in (nth i seq d, r').

(** [random.randint(a, b)] *)
Definition randint (a b : Z) (r : rng) : Z * rng :=
  let (i, r') := randbelow (Z.to_nat (b - a + 1)) r in ((a + Z.of_nat i)%Z, r').

(** [x[i] = v] *)
Fixpoint set_nth {A : Type} (i : nat) (v : A) (x : list A) : list A :=
  match x, i with
  | [], _ => []
  | _ :: x', O => v :: x'
  | a :: x', S i' => a :: set_nth i' v x'
  end.

(** [x[i], x[j] = x[j], x[i]] *)
Definition swap {A : Type} (i j : nat) (x : list A) : list A :=
  match nth_error x i, nth_error x j with
  | Some a, Some b => set_nth j a (set_nth i b x)
  | _, _ => x
  end.

(** [for i in reversed(range(1, len(x))): j = randbelow(i + 1); swap]:
    the loop from index [i] down to 1. *)
Fixpoint shuffle_from {A : Type} (i : nat) (x : list A) (r : rng)
  : list A * rng :=
  match i with
  | O => (x, r)
  | S i' =>
    let (j, r') := randbelow (S i) r in
    shuffle_from i' (swap i j x) r'
  end.

(** [random.shuffle(x)] *)
Definition shuffle {A : Type} (x : list A) (r : rng) : list A * rng :=
  shuffle_from (length x - 1) x r.

(** ** Name generation *)

(** [[a + b for a in xs for b in ys]] *)
Definition products (xs ys : list str) : list str :=
  flat_map (fun a => map (fun b => a ++ b) ys) xs.

(** [list(s)] *)
Definition chars (s : string) : list str := map (fun c => [c]) (txt s).

(** [while len(pool) < count: pool.append(choice(CONFUSING) + choice(...))];
    [k] bounds the iterations that are left, [count - len(pool)]. *)
Fixpoint extend_pool (k : nat) (pool : list str) (r : rng) : list str * rng :=
  match k with
  | O => (pool, r)
  | S k' =>
    let (a, r1) := choice [] CONFUSING r in
    let (b, r2) := choice [] (map txt ["_"; "0"; "1"]%string) r1 in
    extend_pool k' (pool ++ [a ++ b]) r2
  end.

Definition generate_names (count : nat) (style : level) (r : rng)
  : list str * rng :=
  let (pool, r1) :=
    match style with
    | mild =>
      (chars "xyzqwkjvnmftbpdr" ++ products (chars "xyzqw") (chars "0123456789"),
       r)
    | moderate =>
      (products (map txt ["_"; "__"; "___"]%string)
                (chars "xyzqwkjvnmftbpdr0123456789"), r)
    | extreme =>
      extend_pool (count - length CONFUSING) CONFUSING r
    end in
  let (pool', r2) := shuffle pool r1 in
  (firstn count pool', r2).

(** ** Transformation passes *)

Definition strip_comments (tokens : list token) : list token :=
  filter (fun t => negb (kind_eqb (fst t) Kcomment)) tokens.

(** Insertion-ordered dictionaries ([dict], [OrderedDict]) as association
    lists: [d.get(k)], [d[k] = v]. *)
Fixpoint dict_get {V : Type} (k : str) (d : list (str * V)) : option V :=
  match d with
  | [] => None
  | (k', v) :: d' => if str_eqb k' k then Some v else dict_get k d'
  end.

Fixpoint dict_set {V : Type} (k : str) (v : V) (d : list (str * V))
  : list (str * V) :=
  match d with
  | [] => [(k, v)]
  | (k', v') :: d' =>
    if str_eqb k' k then (k', v) :: d' else (k', v') :: dict_set k v d'
  end.

(** The tally loop of [rename_identifiers]. *)
Definition count_identifiers (tokens : list token) : list (str * nat) :=
  fold_left (fun freq t =>
               if kind_eqb (fst t) Kident && negb (mem (snd t) RESERVED)
               then dict_set (snd t)
                             (match dict_get (snd t) freq with
                              | Some n => n
                              | None => 0
                              end + 1) freq
               else freq)
            tokens [].

(** [sorted(items, key=lambda x: -x[1])]: the stable sort by descending
    count, as an insertion sort. *)
Fixpoint insert_desc (x : str * nat) (l : list (str * nat))
  : list (str * nat) :=
  match l with
  | [] => [x]
  | y :: l' => if snd x <? snd y then y :: insert_desc x l' else x :: l
  end.

Definition sorted_desc (l : list (str * nat)) : list (str * nat) :=
  fold_right insert_desc [] l.

Inductive result (A : Type) : Type :=
| Ok (a : A)
| IndexError
| ValueError.
Arguments Ok {A} a.
Arguments IndexError {A}.
Arguments ValueError {A}.

(** A further computation on a returned value; an exception passes
    through. *)
Definition result_map {A B : Type} (f : A -> B) (x : result A) : result B :=
  match x with
  | Ok a => Ok (f a)
  | IndexError => IndexError
  | ValueError => ValueError
  end.

(** [{orig: names[i] for i, (orig, _) in enumerate(sorted_idents)}],
    from index [i] on. *)
Fixpoint build_mapping (i : nat) (sorted_idents : list (str * nat))
    (names : list str) (mapping : list (str * str))
  : result (list (str * str)) :=
  match sorted_idents with
  | [] => Ok mapping
  | (orig, _) :: rest =>
    match nth_error names i with
    | Some name => build_mapping (S i) rest names (dict_set orig name mapping)
    | None => IndexError
    end
  end.

Definition apply_mapping (mapping : list (str * str)) (t : token) : token :=
  if kind_eqb (fst t) Kident then
    match dict_get (snd t) mapping with
    | Some name => (fst t, name)
    | None => t
    end
  else t.

Definition rename_identifiers (tokens : list token) (lv : level) (r : rng)
  : result (list token * list (str * str)) * rng :=
  let freq := count_identifiers tokens in
  let sorted_idents := sorted_desc freq in
  let (names, r') := generate_names (length sorted_idents) lv r in
  match build_mapping 0 sorted_idents names [] with
  | Ok mapping => (Ok (map (apply_mapping mapping) tokens, mapping), r')
  | IndexError => (IndexError, r')
  | ValueError => (ValueError, r')
  end.

(** [prev[0]] and [nxt[0]]: the kind of a token, [None] for the
    placeholder pair of empty strings. *)
Definition is_kind (k : kind) (o : option kind) : bool :=
  match o with
  | Some k' => kind_eqb k' k
  | None => false
  end.

Definition ident_or_number (o : option kind) : bool :=
  is_kind Kident o || is_kind Knumber o.

(** [result[-1] if result] *)
Fixpoint last_error {A : Type} (l : list A) : option A :=
  match l with
  | [] => None
  | [a] => Some a
  | _ :: l' => last_error l'
  end.

(** The loop of [compress_whitespace]: [result] so far, tokens left. *)
Fixpoint compress_loop (lv : level) (result : list token)
    (tokens : list token) : list token :=
  match tokens with
  | [] => result
  | (kind, value) :: rest =>
    if negb (kind_eqb kind Kws) then
      compress_loop lv (result ++ [(kind, value)]) rest
    else
      let prev := option_map fst (last_error result) in
      let nxt := option_map fst (hd_error rest) in
      match lv with
      | mild | moderate =>
        compress_loop lv
          (result ++ [(Kws, if has_char nl value then [nl] else [" "])]) rest
      | extreme =>
        if is_kind Kpreproc nxt || is_kind Kpreproc prev then
          compress_loop lv (result ++ [(Kws, [nl])]) rest
        else if ident_or_number prev && ident_or_number nxt then
          compress_loop lv (result ++ [(Kws, [" "])]) rest
        else compress_loop lv result rest
      end
  end.

Definition compress_whitespace (tokens : list token) (lv : level)
  : list token :=
  compress_loop lv [] tokens.

(** ** Text-level passes *)

(** [code.split(nl)] *)
Fixpoint split_lines (s : str) : list str :=
  match s with
  | [] => [[]]
  | c :: s' =>
    if Ascii.eqb c nl then [] :: split_lines s'
    else match split_lines s' with
         | l :: ls => (c :: l) :: ls
         | [] => [[c]]
         end
  end.

(** [nl.join(lines)] *)
Fixpoint join_lines (lines : list str) : str :=
  match lines with
  | [] => []
  | [l] => l
  | l :: ls => l ++ nl :: join_lines ls
  end.

(** [s.strip()] *)
Definition lstrip (s : str) : str := skipn (span is_space s) s.
Definition rstrip (s : str) : str := rev (lstrip (rev s)).
Definition strip (s : str) : str := rstrip (lstrip s).

Definition nonempty {A : Type} (l : list A) : bool :=
  match l with
  | [] => false
  | _ :: _ => true
  end.

(** One iteration of the loop of [flatten_code] over [result], [buffer]. *)
Definition flatten_step (st : list str * str) (line : str) : list str * str :=
  let (result, buffer) := st in
  let stripped := strip line in
  if negb (nonempty stripped) then st
  else if startswith ["#"] stripped then
    ((if nonempty buffer then result ++ [strip buffer] else result)
       ++ [stripped], [])
  else (result, buffer ++ " " :: stripped).

Definition flatten_code (code : str) (lv : level) : str :=
  match lv with
  | extreme =>
    let (result, buffer) := fold_left flatten_step (split_lines code) ([], []) in
    join_lines (if nonempty buffer then result ++ [strip buffer] else result)
  | _ => code
  end.

Definition macros : list str := map txt
  [ "#define _OB_A(a,b) ((a)+(b))";
    "#define _OB_S(a,b) ((a)-(b))";
    "#define _OB_M(a,b) ((a)*(b))";
    "#define _OB_LT(a,b) ((a)<(b))";
    "#define _OB_GT(a,b) ((a)>(b))";
    "#define _OB_EQ(a,b) ((a)==(b))";
    "#define _OB_N(a) (!(a))" ]%string.

(** The body and closing quote of a string literal in the pattern the
    text passes split on.  The pattern is that of the tokenizer, but it
    is compiled without DOTALL: a backslash escapes any character except
    a newline.  A character is consumed by one alternative only, so no
    other way to match is left to backtrack to. *)
Fixpoint string_body_line (s : str) : option nat :=
  match s with
  | [] => None
  | c :: s' =>
    if Ascii.eqb c dquote then Some 1
    else if Ascii.eqb c "\" then
      match s' with
      | [] => None
      | x :: s'' =>
        if Ascii.eqb x nl then None
        else option_map (fun n => 2 + n) (string_body_line s'')
      end
    else option_map S (string_body_line s')
  end.

Definition match_string_line (s : str) : option nat :=
  match s with
  | c :: s' =>
    if Ascii.eqb c dquote then option_map S (string_body_line s') else None
  | [] => None
  end.

(** The pattern both text passes split on: one capture group around the
    string-literal pattern. *)
Definition STRING_RE : matcher unit :=
  fun _ s => tagged tt (match_string_line s).

Definition split_strings (code : str) : list str :=
  split_pieces [] (scan STRING_RE None 0 code).

(** [\b] before a word character: the character before is not one. *)
Definition word_boundary_before (prev : option ascii) : bool :=
  match prev with
  | None => true
  | Some c => negb (is_word c)
  end.

(** A word, optional whitespace, the operator character [o], optional
    whitespace, a word, between word boundaries; the two words are groups
    1 and 2.  The greedy word and whitespace runs leave nothing to
    backtrack to, and the closing boundary holds after a maximal run of
    word characters. *)
Definition BINOP_RE (o : ascii) : matcher (str * str) := fun prev s =>
  let w1 := span is_word s in
  if word_boundary_before prev && (0 <? w1) then
    let s1 := skipn w1 s in
    let sp1 := span is_space s1 in
    match skipn sp1 s1 with
    | c :: s2 =>
      if Ascii.eqb c o then
        let sp2 := span is_space s2 in
        let s3 := skipn sp2 s2 in
        let w2 := span is_word s3 in
        if 0 <? w2 then Some (w1 + sp1 + 1 + sp2 + w2, (firstn w1 s, firstn w2 s3))
        else None
      else None
    | [] => None
    end
  else None.

(** The replacement template: the macro name, then groups 1 and 2 in
    parentheses, separated by a comma. *)
Definition macro_call (name : string) (lexeme : str) (g : str * str) : str :=
  txt name ++ "(" :: fst g ++ "," :: snd g ++ [")"].

(** [re.sub] of one operator pattern. *)
Definition sub_binop (o : ascii) (name : string) (part : str) : str :=
  sub_pieces (macro_call name) (scan (BINOP_RE o) None 0 part).

(** [for i in range(0, len(parts), 2): parts[i] = f(parts[i])] *)
Fixpoint map_even (f : str -> str) (parts : list str) : list str :=
  match parts with
  | [] => []
  | [p] => [f p]
  | p :: q :: parts' => f p :: q :: map_even f parts'
  end.

(** [next((i + 1 for i, l in enumerate(lines) if ...), 0)], with [i] the
    index of the head of [lines]. *)
Fixpoint find_include (i : nat) (lines : list str) : nat :=
  match lines with
  | [] => 0
  | l :: lines' =>
    if startswith (txt "#include") (strip l) then i + 1
    else find_include (S i) lines'
  end.

(** [lines.insert(i, x)] *)
Definition list_insert {A : Type} (i : nat) (x : A) (l : list A) : list A :=
  firstn i l ++ x :: skipn i l.

Definition inject_macros (code : str) (lv : level) : str :=
  match lv with
  | mild => code
  | _ =>
    let parts := split_strings code in
    let parts := map_even (fun p =>
        sub_binop "*" "_OB_M" (sub_binop "-" "_OB_S" (sub_binop "+" "_OB_A" p)))
      parts in
    let code := concat parts in
    let lines := split_lines code in
    let insert_pos := find_include 0 lines in
    let lines := fold_left (fun ls macro => list_insert insert_pos macro ls)
                           (rev macros) lines in
    join_lines lines
  end.

(** The number a string of decimal digits writes. *)
Definition digit_value (c : ascii) : Z := Z.of_nat (nat_of_ascii c - 48).

Definition decimal_value (s : str) : Z :=
  fold_left (fun acc c => (10 * acc + digit_value c)%Z) s 0%Z.

(** [sys.int_max_str_digits], at its default. *)
Definition int_max_str_digits : nat := 4300.

(** [int(s)] for a string of decimal digits: [ValueError] when the
    digits are more than the limit. *)
Definition int_of_digits (s : str) : result Z :=
  if length s <=? int_max_str_digits then Ok (decimal_value s)
  else ValueError.

(** [str(n)], [hex(n)], [oct(n)], [n.bit_length()] *)
Definition str_of_int (n : Z) : str := txt (NilZero.string_of_int (Z.to_int n)).
Definition hex (n : Z) : str := txt (HexString.of_Z n).
Definition oct (n : Z) : str := txt (OctalString.of_Z n).
Definition bit_length (n : Z) : Z :=
  if (n =? 0)%Z then 0%Z else (Z.log2 (Z.abs n) + 1)%Z.

(** The candidate list of [replace] for the value [n]. *)
Definition choices (n : Z) (r : rng) : list str * rng :=
  let c1 := [str_of_int n] in
  let c2 := if (n >=? 0)%Z then c1 ++ [hex n] else c1 in
  let c3 := if ((0 <? n) && (n <? 256))%Z
            then c2 ++ ["0" :: skipn 2 (oct n)]
                    ++ [txt "(0xFF&" ++ hex n ++ [")"]]
            else c2 in
  let (c4, r') :=
    if (n >? 1)%Z then
      let (a, r1) := randint 1 (n - 1) r in
      let b := (n - a)%Z in
      (c3 ++ ["(" :: str_of_int a ++ "+" :: str_of_int b ++ [")"]], r1)
    else (c3, r) in
  let c5 := if ((n >? 0) && (Z.land n (n - 1) =? 0))%Z
            then c4 ++ [txt "(1<<" ++ str_of_int (bit_length n - 1) ++ [")"]]
            else c4 in
  (c5, r').

(** [replace(match)] *)
Definition replace (lexeme : str) (r : rng) : result str * rng :=
  match int_of_digits lexeme with
  | Ok n =>
    let (cs, r1) := choices n r in
    let (e, r2) := choice [] cs r1 in
    (Ok e, r2)
  | IndexError => (IndexError, r)
  | ValueError => (ValueError, r)
  end.

(** Digits between word boundaries. *)
Definition NUMBER_RE : matcher unit := fun prev s =>
  let d := span is_digit s in
  if word_boundary_before prev && (0 <? d)
     && negb (match skipn d s with c :: _ => is_word c | [] => false end)
  then Some (d, tt) else None.

(** [re.sub] with the replacement function [replace], left to right; an
    exception raised by [replace] ends the substitution. *)
Fixpoint sub_replace (ps : list (piece unit)) (r : rng) : result str * rng :=
  match ps with
  | [] => (Ok [], r)
  | Gap c :: ps' =>
    let (out, r') := sub_replace ps' r in (result_map (cons c) out, r')
  | Match lexeme _ :: ps' =>
    match replace lexeme r with
    | (Ok e, r1) =>
      let (out, r2) := sub_replace ps' r1 in (result_map (app e) out, r2)
    | (IndexError, r1) => (IndexError, r1)
    | (ValueError, r1) => (ValueError, r1)
    end
  end.

Definition sub_numbers (part : str) (r : rng) : result str * rng :=
  sub_replace (scan NUMBER_RE None 0 part) r.

(** [for i in range(0, len(parts), 2): parts[i] = re.sub(..)], threading
    the random source; an exception ends the loop. *)
Fixpoint map_even_rng (parts : list str) (r : rng)
  : result (list str) * rng :=
  match parts with
  | [] => (Ok [], r)
  | [p] =>
    let (p', r') := sub_numbers p r in (result_map (fun x => [x]) p', r')
  | p :: q :: parts' =>
    match sub_numbers p r with
    | (Ok p', r1) =>
      let (out, r2) := map_even_rng parts' r1 in
      (result_map (fun l => p' :: q :: l) out, r2)
    | (IndexError, r1) => (IndexError, r1)
    | (ValueError, r1) => (ValueError, r1)
    end
  end.

Definition obfuscate_numbers (code : str) (lv : level) (r : rng)
  : result str * rng :=
  match lv with
  | extreme =>
    let (parts, r') := map_even_rng (split_strings code) r in
    (result_map (@concat ascii) parts, r')
  | _ => (Ok code, r)
  end.

(** ** Main pipeline *)

Definition obfuscate (code : str) (lv : level) (r : rng)
  : result (str * list (str * str)) :=
  let tokens := tokenize code in
  let tokens := strip_comments tokens in
  match rename_identifiers tokens lv r with
  | (Ok (tokens, mapping), r1) =>
    let tokens := compress_whitespace tokens lv in
    let code := detokenize tokens in
    let code := flatten_code code lv in
    let code := inject_macros code lv in
    let (code, _) := obfuscate_numbers code lv r1 in
    result_map (fun code => (code, mapping)) code
  | (IndexError, _) => IndexError
  | (ValueError, _) => ValueError
  end.

(** ** Concrete runs

    [rng0] is the random source whose every draw is 0. *)

Definition rng0 : rng := fun _ => 0.

(** ** Notions the properties are stated with *)

(** What [compress_whitespace] appends when the last token of [result]
    has kind [prev]: the loop without its accumulator. *)
Fixpoint compress_from (lv : level) (prev : option kind)
    (tokens : list token) : list token :=
  match tokens with
  | [] => []
  | (kind, value) :: rest =>
    if negb (kind_eqb kind Kws) then
      (kind, value) :: compress_from lv (Some kind) rest
    else
      let nxt := option_map fst (hd_error rest) in
      match lv with
      | mild | moderate =>
        (Kws, if has_char nl value then [nl] else [" "])
          :: compress_from lv (Some Kws) rest
      | extreme =>
        if is_kind Kpreproc nxt || is_kind Kpreproc prev then
          (Kws, [nl]) :: compress_from lv (Some Kws) rest
        else if ident_or_number prev && ident_or_number nxt then
          (Kws, [" "]) :: compress_from lv (Some Kws) rest
        else compress_from lv prev rest
      end
  end.

(** A double-quoted string literal with the contents [s]. *)
Definition quoted (s : string) : str := dquote :: txt s ++ [dquote].

(** Directive line isolation: a line is empty, or starts with the
    directive marker, or has no directive marker in it. *)
Definition line_isolated (line : str) : bool :=
  negb (nonempty line) || startswith ["#"] line || negb (has_char "#" line).

Definition lines_isolated (code : str) : bool :=
  forallb line_isolated (split_lines code).

(** Every name a tier can generate: the fixed pools of tiers 1 and 2, the
    curated list and its suffixed entries at tier 3. *)
Definition name_pool (lv : level) : list str :=
  match lv with
  | mild =>
    chars "xyzqwkjvnmftbpdr" ++ products (chars "xyzqw") (chars "0123456789")
  | moderate =>
    products (map txt ["_"; "__"; "___"]%string)
             (chars "xyzqwkjvnmftbpdr0123456789")
  | extreme =>
    CONFUSING ++ products CONFUSING (map txt ["_"; "0"; "1"]%string)
  end.

(** How many names a tier can hand out; [None] is no bound. *)
Definition pool_bound (lv : level) : option nat :=
  match lv with
  | mild => Some 66
  | moderate => Some 78
  | extreme => None
  end.

Definition within_bound (n : nat) (b : option nat) : Prop :=
  match b with
  | Some k => n <= k
  | None => True
  end.

(** The tokens the renamer tallies: identifiers outside the reserved
    set. *)
Definition renameable (t : token) : bool :=
  kind_eqb (fst t) Kident && negb (mem (snd t) RESERVED).

(** [count(A)]: how often [A] occurs as an identifier token. *)
Definition occurrences (A : str) (tokens : list token) : nat :=
  length (filter (fun t => kind_eqb (fst t) Kident && str_eqb (snd t) A)
                 tokens).

(** The first occurrence of the identifier [A] comes before every
    occurrence of the identifier [B]. *)
Definition first_seen_before (A B : str) (tokens : list token) : Prop :=
  exists pre post,
    tokens = pre ++ (Kident, A) :: post /\ ~ In (Kident, B) pre.

(** [x] stands at an earlier position of [l] than [y]. *)
Inductive before {A : Type} (x y : A) : list A -> Prop :=
| before_here (l : list A) : In y l -> before x y (x :: l)
| before_later (a : A) (l : list A) : before x y l -> before x y (a :: l).

(** [s] is [a] and [b] merged, each in its own order. *)
Inductive interleaved : str -> str -> str -> Prop :=
| interleaved_nil : interleaved [] [] []
| interleaved_left (c : ascii) (a b s : str) :
    interleaved a b s -> interleaved (c :: a) b (c :: s)
| interleaved_right (c : ascii) (a b s : str) :
    interleaved a b s -> interleaved a (c :: b) (c :: s).

(** The number of distinct identifiers of [code] that the renamer
    renames. *)
Definition distinct_identifiers (code : str) : nat :=
  length (count_identifiers (strip_comments (tokenize code))).

(** [n] identifiers, each one character longer than the one before,
    separated by spaces. *)
Definition many_identifiers (n : nat) : str :=
  concat (map (fun i => repeat "a" (S i) ++ [" "]) (seq 0 n)).

(** Directive line isolation read character by character: where in its
    line the text stands.  [None] is the failure, a directive marker
    inside a line that does not start with one. *)
Inductive line_state : Type := AtStart | InDirective | InPlain.

Definition line_step (q : option line_state) (c : ascii)
  : option line_state :=
  match q with
  | None => None
  | Some q' =>
    if Ascii.eqb c nl then Some AtStart
    else match q' with
         | AtStart => if Ascii.eqb c "#" then Some InDirective else Some InPlain
         | InDirective => Some InDirective
         | InPlain => if Ascii.eqb c "#" then None else Some InPlain
         end
  end.

Definition line_run (q : option line_state) (s : str) : option line_state :=
  fold_left line_step s q.

(** The states by what they still allow. *)
Definition rank (q : option line_state) : nat :=
  match q with
  | None => 0
  | Some InPlain => 1
  | Some AtStart => 2
  | Some InDirective => 3
  end.

(** Wherever [old] is put in a text, [new] can be put without breaking the
    isolation of its lines. *)
Definition improves (old new : str) : Prop :=
  forall q, rank (line_run q old) <= rank (line_run q new).

Definition not_hash (c : ascii) : bool := negb (Ascii.eqb c "#").
Definition plain (c : ascii) : bool := not_hash c && not_nl c.

(** What a line permits when the text before it left the state [q]. *)
Definition line_permits (q : line_state) (line : str) : bool :=
  match q with
  | AtStart => line_isolated line
  | InDirective => true
  | InPlain => negb (has_char "#" line)
  end.

(** An isolated line that holds no newline. *)
Definition tidy_line (l : str) : bool :=
  line_isolated l && negb (has_char nl l).

(** What the loop of [flatten_code] keeps of [result] and [buffer]. *)
Definition flatten_invariant (st : list str * str) : Prop :=
  forallb tidy_line (fst st) = true
  /\ has_char "#" (snd st) = false /\ has_char nl (snd st) = false.

(** Every directive token is the first token or stands right after a
    whitespace token; [b] says so of the token before the list. *)
Fixpoint adjacent (b : bool) (ts : list token) : bool :=
  match ts with
  | [] => true
  | (k, _) :: ts' =>
    (if kind_eqb k Kpreproc then b else true) && adjacent (kind_eqb k Kws) ts'
  end.

(** A directive token starts with the marker and holds no newline; any
    other token holds no marker. *)
Definition token_shape (t : token) : bool :=
  if kind_eqb (fst t) Kpreproc
  then startswith ["#"] (snd t) && negb (has_char nl (snd t))
  else negb (has_char "#" (snd t)).

(** Whether the text so far ends a line, after the lexeme [v]. *)
Definition ends_line (b : bool) (v : str) : bool :=
  match rev v with
  | [] => b
  | c :: _ => Ascii.eqb c nl
  end.

(** The tokens have their shapes and every directive token starts a
    line; [b] says whether the text before the list ends a line. *)
Fixpoint tokens_isolated (b : bool) (ts : list token) : bool :=
  match ts with
  | [] => true
  | (k, v) :: ts' =>
    token_shape (k, v) && (if kind_eqb k Kpreproc then b else true)
      && tokens_isolated (ends_line b v) ts'
  end.

(** The literal tokens of [code] hold no directive marker. *)
Definition literals_without_marker (code : str) : Prop :=
  forall t, In t (tokenize code) ->
    fst t = Kstring \/ fst t = Kcharlit -> has_char "#" (snd t) = false.

(** [literals_without_marker], computed. *)
Definition literals_without_marker_check (code : str) : bool :=
  forallb (fun t => if kind_eqb (fst t) Kstring || kind_eqb (fst t) Kcharlit
                    then negb (has_char "#" (snd t)) else true)
          (tokenize code).

(** A call with a string literal that holds the directive marker. *)
Definition marker_in_literal : str :=
  txt "printf(" ++ quoted "#" ++ txt ");".

(** ** The value of C integer constants and of the candidate expressions

    What [equivalent] means for the numeric obfuscator: the value C gives
    to an integer constant (hexadecimal after [0x], octal after a leading
    [0], decimal otherwise) and to the forms of the candidate list.  The
    sum and the shift are computed in [int], of 32 bits: they have a
    value only when the operands and the result fit [int]; beyond it the
    behaviour of the C expression is undefined. *)

Definition INT_MAX : Z := 2147483647.

Definition digit_of (base : Z) (c : ascii) : option Z :=
  let n := nat_of_ascii c in
  let v := if is_digit c then Some (n - 48)
           else if in_range 97 102 c then Some (n - 87)
           else if in_range 65 70 c then Some (n - 55)
           else None in
  match v with
  | Some d => if (Z.of_nat d <? base)%Z then Some (Z.of_nat d) else None
  | None => None
  end.

Fixpoint parse_digits (base acc : Z) (s : str) : option Z :=
  match s with
  | [] => Some acc
  | c :: s' =>
    match digit_of base c with
    | Some d => parse_digits base (base * acc + d) s'
    | None => None
    end
  end.

Definition c_int_value (s : str) : option Z :=
  match s with
  | [] => None
  | z :: rest =>
    if Ascii.eqb z "0" then
      match rest with
      | x :: h :: t =>
        if Ascii.eqb x "x" || Ascii.eqb x "X" then parse_digits 16 0 (h :: t)
        else parse_digits 8 0 rest
      | _ => parse_digits 8 0 rest
      end
    else parse_digits 10 0 s
  end.

(** The candidate forms: a constant, a constant masked with [0xFF], the
    sum of two constants, 1 shifted left by a constant. *)
Definition c_expr_value (e : str) : option Z :=
  if startswith ["("] e && startswith [")"] (rev e) then
    let inner := removelast (tl e) in
    if startswith (txt "0xFF&") inner then
      option_map (Z.land 255) (c_int_value (skipn 5 inner))
    else if startswith (txt "1<<") inner then
      match c_int_value (skipn 3 inner) with
      | Some k => if (k <? 31)%Z then Some (Z.shiftl 1 k) else None
      | None => None
      end
    else
      let d := span is_digit inner in
      match skipn d inner with
      | p :: b =>
        if Ascii.eqb p "+" then
          match c_int_value (firstn d inner), c_int_value b with
          | Some x, Some y =>
            if ((x <=? INT_MAX) && (y <=? INT_MAX) && (x + y <=? INT_MAX))%Z
            then Some (x + y)%Z else None
          | _, _ => None
          end
        else None
      | [] => None
      end
  else c_int_value e.

(** The candidate list for the value 10 when [randint] draws [1 + a]. *)
Definition candidates_of_ten (a : nat) : list str :=
  [ str_of_int 10; hex 10; "0" :: skipn 2 (oct 10);
    txt "(0xFF&" ++ hex 10 ++ [")"];
    "(" :: str_of_int (1 + Z.of_nat a)
        ++ "+" :: str_of_int (10 - (1 + Z.of_nat a)) ++ [")"] ].

(** ** Sample inputs and auxiliary notions of the proofs *)

Definition sample_source : str := txt
"#include <stdio.h>
/* sum */
int add(int a, int b) { return a + b * 0x1F; } // add
int main() { char c = 'q'; return add(010, 2.5e-1) >>= 1; }
".

Definition two_includes : str := txt
"#include <a.h>
#include <b.h>
int x;".

(** A character literal that holds a double quote, then a string literal. *)
Definition quote_char_then_string : str :=
  txt "char c = '" ++ dquote :: txt "'; char *s = " ++ quoted "1 + 2"
      ++ txt ";".

Definition desc (x y : str * nat) : Prop := snd y <= snd x.

Definition small_function : str := txt "int add(int a) { return a; }".

Definition three_identifiers : list token := tokenize (txt "b a c a").

(** A match that stays within the plain prefix of the text. *)
Definition within_plain (s : str) (r : option nat) : Prop :=
  match r with
  | Some n => n <= span plain s
  | None => True
  end.

(** The last character of a match of these alternatives is no newline. *)
Definition ends_within_line (s : str) (r : option nat) : Prop :=
  match r with
  | Some n => forall k, n = S k -> nth_error s k <> Some nl
  | None => True
  end.

Definition as_token (m : str * kind) : token := (snd m, fst m).

(** ** Notions of the further properties *)

(** [[{}()\[\];,.]] *)
Definition is_punct_char (c : ascii) : bool := has_char c (txt "{}()[];,.").

(** The characters of numeric literals: digits, the hexadecimal letters
    (with the exponent letters among them), the radix letters, the dot
    and the signs. *)
Definition is_number_char (c : ascii) : bool :=
  is_hex c || has_char c (txt ".xX+-").

(** [v] starts and ends with the quote [q] and the two are not one
    character. *)
Definition quoted_shape (q : ascii) (v : str) : bool :=
  startswith [q] v && startswith [q] (rev v) && (2 <=? length v).

(** The lexical shape of a token, by its kind. *)
Definition token_wellformed (t : token) : bool :=
  let v := snd t in
  match fst t with
  | Kcomment =>
    (startswith (txt "/*") v && startswith (txt "/*") (rev v)
       && (4 <=? length v))
    || (startswith (txt "//") v && negb (has_char nl v))
  | Kstring => quoted_shape dquote v
  | Kcharlit => quoted_shape "'" v
  | Kpreproc => startswith ["#"] v && negb (has_char nl v)
  | Knumber =>
    match v with
    | c :: _ => is_digit c && forallb is_number_char v
    | [] => false
    end
  | Kident =>
    match v with
    | c :: r => is_ident_start c && forallb is_word r
    | [] => false
    end
  | Kop => nonempty v && forallb is_op_char v && (length v <=? 3)
  | Kpunct =>
    match v with
    | [c] => is_punct_char c
    | _ => false
    end
  | Kws => nonempty v && forallb is_space v
  end.

(** A token that is not whitespace. *)
Definition not_ws (t : token) : bool := negb (kind_eqb (fst t) Kws).

(** An identifier or a number: the tokens whose texts would read as one
    word if nothing stood between them. *)
Definition word_token (t : token) : bool :=
  kind_eqb (fst t) Kident || kind_eqb (fst t) Knumber.

(** No two neighbouring tokens are both identifiers or numbers; [b] says
    whether the token before the list is one. *)
Fixpoint separated (b : bool) (ts : list token) : bool :=
  match ts with
  | [] => true
  | t :: ts' => negb (b && word_token t) && separated (word_token t) ts'
  end.

(** The characters of a text that are not whitespace, in their order. *)
Definition nonspace (s : str) : str :=
  filter (fun c => negb (is_space c)) s.

(** The list [flatten_code] joins: [result], with the stripped [buffer]
    appended when the buffer is not empty. *)
Definition flush (st : list str * str) : list str :=
  if nonempty (snd st) then fst st ++ [strip (snd st)] else fst st.

(** The first character of [s], if any, is not whitespace. *)
Definition head_ok (s : str) : bool :=
  match s with
  | [] => true
  | c :: _ => negb (is_space c)
  end.

(** No whitespace at either end. *)
Definition stripped (s : str) : bool := head_ok s && head_ok (rev s).

(** No two neighbouring lines are both free of a leading directive
    marker; [b] says whether the line before the list starts with one
    (or there is no line before). *)
Fixpoint merged (b : bool) (ls : list str) : bool :=
  match ls with
  | [] => true
  | l :: ls' => (b || startswith ["#"] l) && merged (startswith ["#"] l) ls'
  end.

(** A line of the flattened text: not empty, stripped, without a
    newline. *)
Definition flat_line (l : str) : bool :=
  nonempty l && stripped l && negb (has_char nl l).

(** What the loop of [flatten_code] keeps: the lines of [result] are
    flat and merged and the last of them is a directive line; the
    [buffer] has no newline and, when it is not empty, its first
    character after the leading whitespace is neither whitespace nor the
    directive marker. *)
Definition flatten_shape (st : list str * str) : Prop :=
  forallb flat_line (fst st) = true
  /\ merged true (fst st) = true
  /\ match last_error (fst st) with
     | Some x => startswith ["#"] x = true
     | None => True
     end
  /\ has_char nl (snd st) = false
  /\ (snd st = []
      \/ nonempty (lstrip (snd st)) = true
         /\ startswith ["#"] (lstrip (snd st)) = false).

(** The text [inject_macros] splits into lines: the operators rewritten
    in the segments at even positions of the split on string literals. *)
Definition rewrite_operators (code : str) : str :=
  concat (map_even (fun p =>
      sub_binop "*" "_OB_M" (sub_binop "-" "_OB_S" (sub_binop "+" "_OB_A" p)))
    (split_strings code)).

(** The test of the include search: the stripped line starts with the
    include keyword. *)
Definition is_include (l : str) : bool :=
  startswith (txt "#include") (strip l).

(** A run of digits that [int] refuses. *)
Definition too_long (lexeme : str) : bool :=
  negb (length lexeme <=? int_max_str_digits).

(** The segment holds a match of the number pattern that is too long. *)
Definition long_number_in (part : str) : bool :=
  existsb (fun m => too_long (fst m)) (matches (scan NUMBER_RE None 0 part)).

(** The segments at even positions: the ones the text passes rewrite. *)
Fixpoint even_parts (parts : list str) : list str :=
  match parts with
  | [] => []
  | [p] => [p]
  | p :: _ :: parts' => p :: even_parts parts'
  end.

(** The text holds, outside the string literals the split finds, a run
    of digits between word boundaries that [int] refuses. *)
Definition long_number (code : str) : bool :=
  existsb long_number_in (even_parts (split_strings code)).

(** [x] is [ValueError] when [b] holds, a returned value when it does
    not, and never [IndexError]. *)
Definition value_error_iff {A : Type} (x : result A) (b : bool) : Prop :=
  match x with
  | Ok _ => b = false
  | IndexError => False
  | ValueError => b = true
  end.

(** * Properties *)

(** ** Text and membership *)

Lemma str_eqb_eq (a b : str) : str_eqb a b = true <-> a = b.
Proof.
  unfold str_eqb. destruct (list_eq_dec ascii_dec a b); split; congruence.
Qed.

Lemma str_eqb_refl (a : str) : str_eqb a a = true.
Proof. apply str_eqb_eq. reflexivity. Qed.

Lemma str_eqb_neq (a b : str) : str_eqb a b = false <-> a <> b.
Proof.
  unfold str_eqb. destruct (list_eq_dec ascii_dec a b); split; congruence.
Qed.

Lemma mem_In (x : str) (l : list str) : mem x l = true <-> In x l.
Proof.
  unfold mem. rewrite existsb_exists. split.
  - intros [y [Hy E]]. apply str_eqb_eq in E. now subst.
  - intros H. exists x. split; [assumption | apply str_eqb_refl].
Qed.

Lemma mem_false (x : str) (l : list str) : mem x l = false <-> ~ In x l.
Proof.
  rewrite <- mem_In. destruct (mem x l); split; congruence.
Qed.

Lemma has_char_In (c : ascii) (s : str) : has_char c s = true <-> In c s.
Proof.
  unfold has_char. rewrite existsb_exists. split.
  - intros [y [Hy E]]. apply Ascii.eqb_eq in E. now subst.
  - intros H. exists c. split; [assumption | apply Ascii.eqb_refl].
Qed.

Lemma has_char_app (c : ascii) (a b : str) :
  has_char c (a ++ b) = has_char c a || has_char c b.
Proof. apply existsb_app. Qed.

Lemma kind_eqb_eq (a b : kind) : kind_eqb a b = true <-> a = b.
Proof. destruct a, b; simpl; split; congruence. Qed.

(** ** The scanning loop covers the text *)

Section ScanFacts.
Context {G : Type}.
Implicit Types (m : matcher G) (ps : list (piece G)).

(** Matches and gaps, in order, are the text that was left to scan. *)
Lemma scan_text m : forall s prev skip,
  concat (map piece_text (scan m prev skip s)) = skipn skip s.
Proof.
  induction s as [|c s IH]; intros prev skip; simpl.
  - now destruct skip.
  - destruct skip as [|k]; [|apply IH].
    destruct (m prev (c :: s)) as [[[|n] g]|]; simpl; rewrite IH; simpl;
      try reflexivity.
    now rewrite firstn_skipn.
Qed.

(** With no gap, the matches alone are the text. *)
Lemma matches_text_no_gap ps :
  gaps ps = [] ->
  concat (map fst (matches ps)) = concat (map piece_text ps).
Proof.
  induction ps as [|[c|lexeme g] ps IH]; simpl; intros H.
  - reflexivity.
  - discriminate.
  - now rewrite IH.
Qed.
End ScanFacts.

Lemma detokenize_tokenize_matches (code : str) :
  detokenize (tokenize code)
  = concat (map fst (matches (scan TOKEN_REGEX None 0 code))).
Proof.
  unfold detokenize, tokenize. now rewrite map_map.
Qed.

(** C1. Round trip: for every source text in which every character is
    matched by some tokenizer alternative, the lexemes of the tokens that
    [tokenize] produces, concatenated in order, are the text itself. *)
Theorem tokenize_round_trip (code : str) :
  valid_source code -> detokenize (tokenize code) = code.
Proof.
  unfold valid_source, unscanned. intros Hvalid.
  rewrite detokenize_tokenize_matches, (matches_text_no_gap _ Hvalid).
  apply (scan_text TOKEN_REGEX code None 0).
Qed.

Lemma tokenize_round_trip_witness :
  valid_source sample_source
  /\ detokenize (tokenize sample_source) = sample_source.
Proof.
  assert (H : valid_source sample_source) by (vm_compute; reflexivity).
  split; [exact H | exact (tokenize_round_trip sample_source H)].
Defined.

(** ** Whitespace compression *)

Lemma last_error_snoc {A : Type} (l : list A) (a : A) :
  last_error (l ++ [a]) = Some a.
Proof.
  induction l as [|b l IH]; simpl; [reflexivity|].
  destruct (l ++ [a]) eqn:E; [now destruct l | exact IH].
Qed.

(** The loop appends to [result] what [compress_from] lists. *)
Lemma compress_loop_from (lv : level) : forall tokens result,
  compress_loop lv result tokens
  = result ++ compress_from lv (option_map fst (last_error result)) tokens.
Proof.
  induction tokens as [|[k v] rest IH]; intros result; simpl.
  - now rewrite app_nil_r.
  - destruct (negb (kind_eqb k Kws)).
    + rewrite IH, last_error_snoc, <- app_assoc. reflexivity.
    + destruct lv.
      * rewrite IH, last_error_snoc, <- app_assoc. reflexivity.
      * rewrite IH, last_error_snoc, <- app_assoc. reflexivity.
      * destruct (is_kind Kpreproc (option_map fst (hd_error rest))
                  || is_kind Kpreproc (option_map fst (last_error result))).
        -- rewrite IH, last_error_snoc, <- app_assoc. reflexivity.
        -- destruct (ident_or_number (option_map fst (last_error result))
                     && ident_or_number (option_map fst (hd_error rest))).
           ++ rewrite IH, last_error_snoc, <- app_assoc. reflexivity.
           ++ apply IH.
Qed.

Lemma compress_whitespace_from (tokens : list token) (lv : level) :
  compress_whitespace tokens lv = compress_from lv None tokens.
Proof. unfold compress_whitespace. now rewrite compress_loop_from. Qed.

(** A token that is not whitespace stays at the head. *)
Lemma compress_from_head (lv : level) (prev : option kind) (tokens : list token)
    (k : kind) :
  k <> Kws ->
  option_map fst (hd_error tokens) = Some k ->
  option_map fst (hd_error (compress_from lv prev tokens)) = Some k.
Proof.
  destruct tokens as [|[k' v] rest]; simpl; [discriminate|].
  intros Hk [= ->]. destruct k; simpl; congruence.
Qed.

Lemma compress_from_idempotent (lv : level) : forall tokens prev,
  compress_from lv prev (compress_from lv prev tokens)
  = compress_from lv prev tokens.
Proof.
  induction tokens as [|[k v] rest IH]; intros prev; [reflexivity|].
  destruct (kind_eqb k Kws) eqn:Ek.
  - apply kind_eqb_eq in Ek. subst k. cbn [compress_from kind_eqb negb].
    destruct lv.
    + cbn [compress_from kind_eqb negb]. rewrite IH.
      now destruct (has_char nl v).
    + cbn [compress_from kind_eqb negb]. rewrite IH.
      now destruct (has_char nl v).
    + set (nxt := option_map fst (hd_error rest)).
      destruct (is_kind Kpreproc prev) eqn:Eprev.
      { rewrite orb_true_r. cbn [compress_from kind_eqb negb].
        rewrite Eprev, orb_true_r, IH. reflexivity. }
      rewrite orb_false_r.
      destruct (is_kind Kpreproc nxt) eqn:Enxt.
      { cbn [compress_from kind_eqb negb].
        assert (H : option_map fst
                      (hd_error (compress_from extreme (Some Kws) rest))
                    = Some Kpreproc).
        { apply compress_from_head; [discriminate|]. fold nxt.
          destruct nxt as [[]|]; simpl in Enxt; congruence. }
        rewrite H, IH. reflexivity. }
      destruct (ident_or_number prev && ident_or_number nxt) eqn:Eboth;
        [|apply IH].
      cbn [compress_from kind_eqb negb].
      apply andb_true_iff in Eboth. destruct Eboth as [Ep En].
      assert (H : option_map fst
                    (hd_error (compress_from extreme (Some Kws) rest))
                  = nxt).
      { destruct nxt as [k|] eqn:E; [|discriminate].
        apply compress_from_head; [|exact E].
        intros ->. discriminate. }
      rewrite H, Eprev, Enxt, Ep, En, IH. reflexivity.
  - cbn [compress_from]. rewrite Ek. cbn [negb compress_from].
    rewrite Ek. cbn [negb]. now rewrite IH.
Qed.

(** C9. The whitespace compressor is idempotent at every tier: run on its
    own output it changes nothing. *)
Theorem compress_whitespace_idempotent (tokens : list token) (lv : level) :
  compress_whitespace (compress_whitespace tokens lv) lv
  = compress_whitespace tokens lv.
Proof.
  rewrite !compress_whitespace_from. apply compress_from_idempotent.
Qed.

(** ** Macro injection: where the block goes *)

(** C6. With two include directives the block of macro definitions is
    inserted after the first of them, not after the last: [next] takes
    the first line that starts with the include keyword. *)
Theorem macros_follow_first_include :
  inject_macros two_includes moderate
  = join_lines (txt "#include <a.h>" :: macros
                  ++ [txt "#include <b.h>"; txt "int x;"])
  /\ inject_macros two_includes moderate
     <> join_lines (txt "#include <a.h>" :: txt "#include <b.h>" :: macros
                      ++ [txt "int x;"]).
Proof. split; [vm_compute; reflexivity | vm_compute; discriminate]. Qed.

(** ** String literals in the text passes *)

(** C7. The split on the string pattern pairs the double quote inside a
    character literal with the opening quote of the next string literal,
    so that literal's contents land in a segment that is rewritten: the
    macro pass changes the contents of the string literal, at tier 2 and
    in the whole pipeline at tier 3. *)
Theorem string_literal_rewritten :
  In (Kstring, quoted "1 + 2") (tokenize quote_char_then_string)
  /\ inject_macros quote_char_then_string moderate
     = join_lines (macros
         ++ [txt "char c = '" ++ dquote :: txt "'; char *s = "
               ++ quoted "_OB_A(1,2)" ++ txt ";"])
  /\ obfuscate quote_char_then_string extreme rng0
     = Ok (join_lines (macros
             ++ [txt "char l1='" ++ dquote :: txt "';char*Il="
                   ++ quoted "_OB_A(1,2)" ++ txt ";"]),
           [(txt "c", txt "l1"); (txt "s", txt "Il")]).
Proof.
  split; [|split].
  - vm_compute. tauto.
  - vm_compute. reflexivity.
  - vm_compute. reflexivity.
Qed.

(** ** The random source and the name pools *)

Lemma choice_In {A : Type} (d : A) (seq : list A) (r : rng) :
  seq <> [] -> In (fst (choice d seq r)) seq.
Proof.
  intros H. unfold choice, randbelow. cbn [fst]. apply nth_In.
  apply Nat.mod_upper_bound. destruct seq; simpl; [congruence | lia].
Qed.

Lemma set_nth_length {A : Type} (v : A) : forall x i,
  length (set_nth i v x) = length x.
Proof.
  induction x as [|a x IH]; intros [|i]; simpl; auto.
Qed.

Lemma set_nth_In {A : Type} (v y : A) : forall x i,
  In y (set_nth i v x) -> y = v \/ In y x.
Proof.
  induction x as [|a x IH]; intros [|i]; simpl; try tauto.
  - intros [H|H]; auto.
  - intros [H|H]; auto. destruct (IH _ H); auto.
Qed.

Lemma swap_length {A : Type} (i j : nat) (x : list A) :
  length (swap i j x) = length x.
Proof.
  unfold swap. destruct (nth_error x i), (nth_error x j); auto.
  now rewrite !set_nth_length.
Qed.

Lemma swap_In {A : Type} (i j : nat) (x : list A) (y : A) :
  In y (swap i j x) -> In y x.
Proof.
  unfold swap.
  destruct (nth_error x i) as [a|] eqn:Ei; [|auto].
  destruct (nth_error x j) as [b|] eqn:Ej; [|auto].
  intros H. apply set_nth_In in H. destruct H as [->|H].
  - eapply nth_error_In; eauto.
  - apply set_nth_In in H. destruct H as [->|H]; auto.
    eapply nth_error_In; eauto.
Qed.

Lemma shuffle_from_spec {A : Type} : forall i (x : list A) r,
  length (fst (shuffle_from i x r)) = length x
  /\ forall y, In y (fst (shuffle_from i x r)) -> In y x.
Proof.
  induction i as [|i IH]; intros x r; [simpl; auto|].
  cbn [shuffle_from]. unfold randbelow.
  destruct (IH (swap (S i) (r 0 mod S (S i)) x) (fun k => r (S k)))
    as [Hl Hin].
  split.
  - now rewrite Hl, swap_length.
  - intros y Hy. eapply swap_In. eauto.
Qed.

Lemma shuffle_length {A : Type} (x : list A) (r : rng) :
  length (fst (shuffle x r)) = length x.
Proof. apply shuffle_from_spec. Qed.

Lemma shuffle_In {A : Type} (x : list A) (r : rng) (y : A) :
  In y (fst (shuffle x r)) -> In y x.
Proof. apply shuffle_from_spec. Qed.

Lemma extend_pool_spec : forall k pool r,
  length (fst (extend_pool k pool r)) = length pool + k
  /\ forall y, In y (fst (extend_pool k pool r)) ->
       In y pool \/ In y (products CONFUSING (map txt ["_"; "0"; "1"]%string)).
Proof.
  induction k as [|k IH]; intros pool r.
  - simpl. split; [lia | auto].
  - cbn [extend_pool].
    destruct (choice [] CONFUSING r) as [a r1] eqn:Ea.
    destruct (choice [] (map txt ["_"; "0"; "1"]%string) r1) as [b r2] eqn:Eb.
    destruct (IH (pool ++ [a ++ b]) r2) as [Hl Hin]. split.
    + rewrite Hl, length_app. simpl. lia.
    + intros y Hy. destruct (Hin y Hy) as [H|H]; [|auto].
      apply in_app_or in H. destruct H as [H|[<-|[]]]; [auto|].
      right. apply in_flat_map. exists a. split.
      * change a with (fst (a, r1)). rewrite <- Ea.
        apply choice_In. discriminate.
      * apply in_map. change b with (fst (b, r2)). rewrite <- Eb.
        apply choice_In. discriminate.
Qed.

Lemma In_firstn {A : Type} (n : nat) (l : list A) (y : A) :
  In y (firstn n l) -> In y l.
Proof.
  intros H. rewrite <- (firstn_skipn n l). apply in_or_app. now left.
Qed.

(** The names handed out come from the tier's pool. *)
Lemma generate_names_In (count : nat) (lv : level) (r : rng) (y : str) :
  In y (fst (generate_names count lv r)) -> In y (name_pool lv).
Proof.
  unfold generate_names, name_pool.
  destruct lv.
  - destruct (shuffle _ r) as [pool' r2] eqn:E. cbn [fst]. intros H.
    apply In_firstn in H. change pool' with (fst (pool', r2)) in H.
    rewrite <- E in H. now apply shuffle_In in H.
  - destruct (shuffle _ r) as [pool' r2] eqn:E. cbn [fst]. intros H.
    apply In_firstn in H. change pool' with (fst (pool', r2)) in H.
    rewrite <- E in H. now apply shuffle_In in H.
  - destruct (extend_pool _ CONFUSING r) as [pool r1] eqn:Ep.
    destruct (shuffle pool r1) as [pool' r2] eqn:E. cbn [fst]. intros H.
    apply In_firstn in H. change pool' with (fst (pool', r2)) in H.
    rewrite <- E in H. apply shuffle_In in H.
    change pool with (fst (pool, r1)) in H. rewrite <- Ep in H.
    apply extend_pool_spec in H. apply in_or_app. exact H.
Qed.

(** As many names as asked for, up to the bound of the tier. *)
Lemma generate_names_length (count : nat) (lv : level) (r : rng) :
  length (fst (generate_names count lv r))
  = match pool_bound lv with
    | Some k => Nat.min count k
    | None => count
    end.
Proof.
  unfold generate_names.
  destruct lv.
  - destruct (shuffle _ r) as [pool' r2] eqn:E. cbn [fst pool_bound].
    rewrite length_firstn. change pool' with (fst (pool', r2)).
    rewrite <- E, shuffle_length. reflexivity.
  - destruct (shuffle _ r) as [pool' r2] eqn:E. cbn [fst pool_bound].
    rewrite length_firstn. change pool' with (fst (pool', r2)).
    rewrite <- E, shuffle_length. reflexivity.
  - destruct (extend_pool _ CONFUSING r) as [pool r1] eqn:Ep.
    destruct (shuffle pool r1) as [pool' r2] eqn:E. cbn [fst pool_bound].
    rewrite length_firstn. change pool' with (fst (pool', r2)).
    rewrite <- E, shuffle_length. change pool with (fst (pool, r1)).
    rewrite <- Ep. rewrite (proj1 (extend_pool_spec _ _ _)). lia.
Qed.

(** ** Positions in a list *)

Section Before.
Context {A : Type}.
Implicit Types (x y a : A) (l : list A).

Lemma before_In x y l : before x y l -> In x l /\ In y l.
Proof.
  induction 1 as [l H|a l H [IHx IHy]]; simpl; auto.
Qed.

Lemma before_app_l x y l1 l2 : before x y l1 -> before x y (l1 ++ l2).
Proof.
  induction 1 as [l H|a l H IH]; simpl.
  - apply before_here. apply in_or_app. now left.
  - now apply before_later.
Qed.

Lemma before_app_cross x y l1 l2 :
  In x l1 -> In y l2 -> before x y (l1 ++ l2).
Proof.
  intros Hx Hy. induction l1 as [|a l1 IH]; simpl in *; [contradiction|].
  destruct Hx as [->|Hx].
  - apply before_here. apply in_or_app. now right.
  - apply before_later. now apply IH.
Qed.

Lemma before_cons_inv x y a l :
  before x y (a :: l) -> x <> a -> before x y l.
Proof.
  intros H Hne. inversion H; subst; [congruence | assumption].
Qed.

(** Earlier in the list is a smaller index. *)
Lemma before_nth_error x y l :
  before x y l ->
  exists i j, i < j /\ nth_error l i = Some x /\ nth_error l j = Some y.
Proof.
  induction 1 as [l H|a l H (i & j & Hij & Hi & Hj)].
  - apply In_nth_error in H. destruct H as [j Hj].
    exists 0, (S j). repeat split; [lia | assumption].
  - exists (S i), (S j). repeat split; [lia | assumption | assumption].
Qed.
End Before.

(** ** Dictionaries *)

Section Dict.
Context {V : Type}.
Implicit Types (d : list (str * V)) (k : str) (v : V).

Lemma dict_get_None k d : dict_get k d = None <-> ~ In k (map fst d).
Proof.
  induction d as [|[k' v'] d IH]; simpl; [tauto|].
  destruct (str_eqb k' k) eqn:E.
  - apply str_eqb_eq in E. split; [discriminate | tauto].
  - apply str_eqb_neq in E. rewrite IH. tauto.
Qed.

Lemma dict_get_In k v d : dict_get k d = Some v -> In (k, v) d.
Proof.
  induction d as [|[k' v'] d IH]; simpl; [discriminate|].
  destruct (str_eqb k' k) eqn:E.
  - apply str_eqb_eq in E. intros [= ->]. subst. now left.
  - auto.
Qed.

(** Setting a key that is there keeps the keys and their order. *)
Lemma dict_set_keys_old k v d :
  In k (map fst d) -> map fst (dict_set k v d) = map fst d.
Proof.
  induction d as [|[k' v'] d IH]; simpl; [contradiction|].
  destruct (str_eqb k' k) eqn:E; [reflexivity|].
  apply str_eqb_neq in E. intros [H|H]; [congruence|].
  simpl. now rewrite IH.
Qed.

(** Setting a new key appends it. *)
Lemma dict_set_new k v d :
  ~ In k (map fst d) -> dict_set k v d = d ++ [(k, v)].
Proof.
  induction d as [|[k' v'] d IH]; simpl; [reflexivity|].
  intros H. destruct (str_eqb k' k) eqn:E.
  - apply str_eqb_eq in E. tauto.
  - rewrite IH; tauto.
Qed.

Lemma dict_get_set k k' v d :
  dict_get k' (dict_set k v d)
  = if str_eqb k k' then Some v else dict_get k' d.
Proof.
  induction d as [|[k0 v0] d IH]; simpl.
  - reflexivity.
  - destruct (str_eqb k0 k) eqn:E0; simpl.
    + apply str_eqb_eq in E0. subst k0.
      destruct (str_eqb k k'); reflexivity.
    + destruct (str_eqb k0 k') eqn:E1.
      * apply str_eqb_eq in E1. subst k0. apply str_eqb_neq in E0.
        destruct (str_eqb k k') eqn:E2; [|reflexivity].
        apply str_eqb_eq in E2. congruence.
      * exact IH.
Qed.
End Dict.

(** ** The tally of the renamer *)

Lemma count_identifiers_snoc (tokens : list token) (t : token) :
  count_identifiers (tokens ++ [t])
  = let freq := count_identifiers tokens in
    if renameable t
    then dict_set (snd t)
                  (match dict_get (snd t) freq with
                   | Some n => n
                   | None => 0
                   end + 1) freq
    else freq.
Proof. unfold count_identifiers. now rewrite fold_left_app. Qed.

Lemma occurrences_snoc (A : str) (tokens : list token) (t : token) :
  occurrences A (tokens ++ [t])
  = occurrences A tokens
    + (if kind_eqb (fst t) Kident && str_eqb (snd t) A then 1 else 0).
Proof.
  unfold occurrences. rewrite filter_app, length_app. simpl.
  now destruct (kind_eqb (fst t) Kident && str_eqb (snd t) A).
Qed.

Lemma occurrences_pos (A : str) (tokens : list token) :
  0 < occurrences A tokens <-> In (Kident, A) tokens.
Proof.
  unfold occurrences. induction tokens as [|[k v] tokens IH]; simpl.
  - split; [lia | tauto].
  - destruct (kind_eqb k Kident && str_eqb v A) eqn:E; simpl.
    + apply andb_true_iff in E. destruct E as [Ek Ev].
      apply kind_eqb_eq in Ek. apply str_eqb_eq in Ev. subst.
      split; [auto | lia].
    + rewrite IH. split; [auto|]. intros [[= -> ->]|H]; [|assumption].
      simpl in E. now rewrite str_eqb_refl in E.
Qed.

(** Each tallied identifier is listed with the number of its occurrences;
    reserved names and names that do not occur are not listed. *)
Lemma count_identifiers_get (tokens : list token) (A : str) :
  dict_get A (count_identifiers tokens)
  = if mem A RESERVED || (occurrences A tokens =? 0) then None
    else Some (occurrences A tokens).
Proof.
  induction tokens as [|[k v] tokens IH] using rev_ind.
  - simpl. now rewrite orb_true_r.
  - rewrite count_identifiers_snoc, occurrences_snoc. cbv zeta.
    unfold renameable. cbn [fst snd].
    destruct (kind_eqb k Kident) eqn:Ek; cbn [andb];
      [|now rewrite Nat.add_0_r].
    destruct (str_eqb v A) eqn:Ev.
    + apply str_eqb_eq in Ev. subst v.
      destruct (mem A RESERVED) eqn:Er; cbn [negb orb].
      * exact IH.
      * rewrite dict_get_set, str_eqb_refl, IH. cbn [orb].
        destruct (occurrences A tokens) as [|n]; simpl; [reflexivity|].
        replace (n + 1 =? 0) with false by (symmetry; apply Nat.eqb_neq; lia).
        reflexivity.
    + rewrite Nat.add_0_r. destruct (negb (mem v RESERVED)); [|exact IH].
      now rewrite dict_get_set, Ev.
Qed.

Lemma count_identifiers_key (tokens : list token) (A : str) :
  In A (map fst (count_identifiers tokens))
  <-> In (Kident, A) tokens /\ ~ In A RESERVED.
Proof.
  rewrite <- occurrences_pos, <- mem_false.
  destruct (dict_get A (count_identifiers tokens)) as [n|] eqn:E.
  - assert (H : In A (map fst (count_identifiers tokens))).
    { apply dict_get_In in E. now apply (in_map fst) in E. }
    rewrite count_identifiers_get in E.
    destruct (mem A RESERVED); [discriminate|].
    destruct (occurrences A tokens); [discriminate|].
    split; [intros _; split; [lia | reflexivity] | auto].
  - pose proof (proj1 (dict_get_None _ _) E) as H.
    rewrite count_identifiers_get in E.
    destruct (mem A RESERVED); [split; [tauto | intros [_ ?]; discriminate]|].
    destruct (occurrences A tokens); [|discriminate].
    split; [tauto | lia].
Qed.

Lemma count_identifiers_value (tokens : list token) (A : str) (n : nat) :
  In (A, n) (count_identifiers tokens) ->
  NoDup (map fst (count_identifiers tokens)) ->
  n = occurrences A tokens.
Proof.
  intros Hin Hnd.
  assert (E : dict_get A (count_identifiers tokens) = Some n).
  { revert Hin Hnd. generalize (count_identifiers tokens) as d.
    induction d as [|[k v] d IH]; simpl; [contradiction|].
    intros [[= -> ->]|Hin] Hnd; [now rewrite str_eqb_refl|].
    inversion Hnd as [|? ? Hk Hd]; subst.
    destruct (str_eqb k A) eqn:E.
    - apply str_eqb_eq in E. subst k. apply (in_map fst) in Hin. tauto.
    - auto. }
  rewrite count_identifiers_get in E.
  destruct (mem A RESERVED || (occurrences A tokens =? 0)); congruence.
Qed.

Lemma count_identifiers_NoDup (tokens : list token) :
  NoDup (map fst (count_identifiers tokens)).
Proof.
  induction tokens as [|t tokens IH] using rev_ind; [constructor|].
  rewrite count_identifiers_snoc. cbv zeta.
  destruct (renameable t); [|assumption].
  destruct (in_dec (list_eq_dec ascii_dec) (snd t)
                   (map fst (count_identifiers tokens))) as [H|H].
  - now rewrite dict_set_keys_old.
  - rewrite dict_set_new, map_app by assumption. simpl.
    apply NoDup_app; [assumption | repeat constructor; tauto |].
    intros x Hx [<-|[]]. tauto.
Qed.

(** The tally lists the identifiers in the order of their first
    occurrences. *)
Lemma count_identifiers_order (tokens : list token) (A B : str) :
  A <> B ->
  In B (map fst (count_identifiers tokens)) ->
  ~ In A RESERVED ->
  first_seen_before A B tokens ->
  before A B (map fst (count_identifiers tokens)).
Proof.
  intros Hne. induction tokens as [|t tokens IH] using rev_ind.
  - simpl. contradiction.
  - intros HB HA (pre & post & Esplit & Hpre).
    assert (Hkeys : exists tl,
               map fst (count_identifiers (tokens ++ [t]))
               = map fst (count_identifiers tokens) ++ tl
               /\ (In B tl -> ~ In B (map fst (count_identifiers tokens)))).
    { rewrite count_identifiers_snoc. cbv zeta.
      destruct (renameable t); [|exists []; rewrite app_nil_r; tauto].
      destruct (in_dec (list_eq_dec ascii_dec) (snd t)
                       (map fst (count_identifiers tokens))) as [H|H].
      - exists []. rewrite dict_set_keys_old, app_nil_r by assumption.
        simpl. tauto.
      - exists [snd t]. rewrite dict_set_new, map_app by assumption.
        split; [reflexivity|]. intros [<-|[]]. assumption. }
    destruct Hkeys as (tl & Ekeys & Htl).
    rewrite Ekeys in HB |- *.
    destruct post as [|p post] using rev_ind.
    + (* the first occurrence of A is the last token *)
      apply app_inj_tail in Esplit. destruct Esplit as [<- ->].
      exfalso. apply in_app_or in HB. destruct HB as [HB|HB].
      * apply count_identifiers_key in HB. tauto.
      * pose proof (Htl HB) as Hnew.
        assert (HB' : In B (map fst (count_identifiers tokens) ++ tl))
          by (apply in_or_app; now right).
        rewrite <- Ekeys in HB'.
        apply count_identifiers_key in HB'. destruct HB' as [HB' HBr].
        apply in_app_or in HB'. destruct HB' as [HB'|[[= E]|[]]]; tauto.
    + clear IHpost.
      rewrite app_comm_cons, app_assoc in Esplit.
      apply app_inj_tail in Esplit. destruct Esplit as [-> ->].
      assert (HAk : In A (map fst (count_identifiers (pre ++ (Kident, A) :: post)))).
      { apply count_identifiers_key. split; [|assumption].
        apply in_or_app. right. now left. }
      apply in_app_or in HB. destruct HB as [HB|HB].
      * apply before_app_l. apply IH; [assumption..|].
        exists pre, post. tauto.
      * apply before_app_cross; assumption.
Qed.

Lemma before_map {A B : Type} (f : A -> B) (x y : A) (l : list A) :
  before x y l -> before (f x) (f y) (map f l).
Proof.
  induction 1 as [l H|a l H IH]; simpl.
  - apply before_here. now apply in_map.
  - now apply before_later.
Qed.

(** Where [f] takes no value twice on [l], positions of images are
    positions of the elements. *)
Lemma before_map_inv {A B : Type} (f : A -> B) (x y : A) : forall l,
  NoDup (map f l) -> In x l -> In y l ->
  before (f x) (f y) (map f l) -> before x y l.
Proof.
  induction l as [|a l IH]; simpl; [contradiction|].
  intros Hnd Hx Hy Hb. inversion Hnd as [|? ? Ha Hnd']; subst.
  inversion Hb as [l' Hin [Efx El']|a' l' Hb' E]; subst.
  - destruct Hx as [->|Hx].
    + apply before_here. destruct Hy as [->|Hy]; [contradiction | assumption].
    + exfalso. apply Ha. rewrite <- Efx. now apply in_map.
  - apply before_In in Hb' as Hxy. destruct Hxy as [Hfx Hfy].
    destruct Hx as [->|Hx]; [contradiction|].
    destruct Hy as [->|Hy]; [contradiction|].
    apply before_later. now apply IH.
Qed.

(** ** The stable descending sort *)

Lemma insert_desc_perm (x : str * nat) : forall l,
  Permutation (insert_desc x l) (x :: l).
Proof.
  induction l as [|y l IH]; simpl; [reflexivity|].
  destruct (snd x <? snd y); [|reflexivity].
  rewrite IH. apply perm_swap.
Qed.

Lemma sorted_desc_perm : forall l, Permutation (sorted_desc l) l.
Proof.
  induction l as [|x l IH]; simpl; [reflexivity|].
  rewrite insert_desc_perm. now constructor.
Qed.

Lemma insert_desc_sorted (x : str * nat) : forall l,
  StronglySorted desc l -> StronglySorted desc (insert_desc x l).
Proof.
  induction l as [|y l IH]; simpl; intros Hs.
  - repeat constructor.
  - inversion Hs as [|? ? Hs' Hall]; subst.
    destruct (snd x <? snd y) eqn:E.
    + apply Nat.ltb_lt in E. constructor; [auto|].
      rewrite Forall_forall in *. intros z Hz.
      apply (Permutation_in _ (insert_desc_perm x l)) in Hz.
      destruct Hz as [<-|Hz]; [unfold desc; lia | auto].
    + apply Nat.ltb_ge in E. constructor; [assumption|].
      constructor; [exact E|]. rewrite Forall_forall in *.
      intros z Hz. specialize (Hall z Hz). unfold desc in *. lia.
Qed.

Lemma sorted_desc_sorted : forall l, StronglySorted desc (sorted_desc l).
Proof.
  induction l as [|x l IH]; simpl; [constructor|].
  now apply insert_desc_sorted.
Qed.

(** Where the inserted element lands: after the larger counts, before
    the counts that are equal or smaller; the others keep their order. *)
Lemma insert_desc_order (x : str * nat) : forall l,
  StronglySorted desc l ->
  (forall y, In y l -> snd y <= snd x -> before x y (insert_desc x l))
  /\ (forall y, In y l -> snd x < snd y -> before y x (insert_desc x l))
  /\ (forall y z, before y z l -> before y z (insert_desc x l)).
Proof.
  induction l as [|h l IH]; intros Hs.
  - simpl. repeat split; try contradiction. intros y z H. inversion H.
  - inversion Hs as [|? ? Hs' Hall]; subst.
    destruct (IH Hs') as (IH1 & IH2 & IH3). simpl.
    destruct (snd x <? snd h) eqn:E.
    + apply Nat.ltb_lt in E. repeat split.
      * intros y [<-|Hy] Hle; [lia|]. apply before_later. auto.
      * intros y [<-|Hy] Hlt.
        -- apply before_here.
           apply (Permutation_in _ (Permutation_sym (insert_desc_perm x l))).
           now left.
        -- apply before_later. auto.
      * intros y z H. inversion H as [l' Hz|a l' H']; subst.
        -- apply before_here.
           apply (Permutation_in _ (Permutation_sym (insert_desc_perm x l))).
           now right.
        -- apply before_later. auto.
    + apply Nat.ltb_ge in E. rewrite Forall_forall in Hall.
      repeat split.
      * intros y Hy _. now apply before_here.
      * intros y [<-|Hy] Hlt; [lia|]. specialize (Hall y Hy).
        unfold desc in Hall. lia.
      * intros y z H. now apply before_later.
Qed.

(** The sort puts larger counts first and keeps the order of equal
    counts. *)
Lemma sorted_desc_order : forall l x y,
  NoDup l -> In x l -> In y l -> x <> y ->
  snd y < snd x \/ (snd x = snd y /\ before x y l) ->
  before x y (sorted_desc l).
Proof.
  induction l as [|a l IH]; intros x y Hnd Hx Hy Hne Hc; [contradiction|].
  inversion Hnd as [|? ? Ha Hnd']; subst. simpl.
  destruct (insert_desc_order a (sorted_desc l) (sorted_desc_sorted l))
    as (I1 & I2 & I3).
  assert (Hin : forall z, In z l -> In z (sorted_desc l)).
  { intros z Hz.
    now apply (Permutation_in _ (Permutation_sym (sorted_desc_perm l))). }
  destruct Hx as [->|Hx], Hy as [->|Hy]; try congruence.
  - apply I1; [auto|]. destruct Hc as [Hc|[Hc _]]; lia.
  - destruct Hc as [Hc|[_ Hc]]; [apply I2; auto|].
    exfalso. inversion Hc; subst; [congruence|].
    apply Ha. now apply before_In in H0.
  - apply I3. apply IH; auto.
    destruct Hc as [Hc|[Hc Hb]]; [now left | right].
    split; [assumption|]. apply before_cons_inv with (a := a); [assumption|].
    intros ->. contradiction.
Qed.

Lemma sorted_desc_length (l : list (str * nat)) :
  length (sorted_desc l) = length l.
Proof. apply Permutation_length, sorted_desc_perm. Qed.

(** ** Building the mapping *)

Lemma skipn_nth_error {A : Type} (l : list A) (i : nat) (a : A) :
  nth_error l i = Some a -> skipn i l = a :: skipn (S i) l.
Proof.
  revert l. induction i as [|i IH]; intros [|b l]; simpl; try discriminate.
  - now intros [= ->].
  - intros H. rewrite (IH l H). now destruct l.
Qed.

(** When every [names[i]] exists, the identifiers are paired with the
    names position by position. *)
Lemma build_mapping_ok : forall sorted_idents i names mapping,
  NoDup (map fst mapping ++ map fst sorted_idents) ->
  i + length sorted_idents <= length names ->
  build_mapping i sorted_idents names mapping
  = Ok (mapping ++ combine (map fst sorted_idents) (skipn i names)).
Proof.
  induction sorted_idents as [|[orig n] rest IH]; intros i names mapping Hnd Hl.
  - simpl. now rewrite app_nil_r.
  - simpl in *. destruct (nth_error names i) as [name|] eqn:E.
    + assert (Hfresh : ~ In orig (map fst mapping)).
      { intros H. apply NoDup_remove_2 in Hnd. apply Hnd.
        apply in_or_app. now left. }
      rewrite (skipn_nth_error _ _ _ E), dict_set_new by assumption.
      rewrite IH.
      * simpl. now rewrite <- app_assoc.
      * rewrite map_app, <- app_assoc. simpl. exact Hnd.
      * lia.
    + apply nth_error_None in E. lia.
Qed.

(** When the names run out, the comprehension raises. *)
Lemma build_mapping_error : forall sorted_idents i names mapping,
  i <= length names ->
  length names < i + length sorted_idents ->
  build_mapping i sorted_idents names mapping = IndexError.
Proof.
  induction sorted_idents as [|[orig n] rest IH]; intros i names mapping Hi Hl.
  - simpl in Hl. lia.
  - simpl in *. destruct (nth_error names i) as [name|] eqn:E; [|reflexivity].
    assert (i < length names) by (apply nth_error_Some; congruence).
    apply IH; lia.
Qed.

(** ** The renamer *)

Lemma sorted_desc_keys_NoDup (tokens : list token) :
  NoDup (map fst (sorted_desc (count_identifiers tokens))).
Proof.
  eapply Permutation_NoDup; [|apply count_identifiers_NoDup].
  apply Permutation_map, Permutation_sym, sorted_desc_perm.
Qed.

(** [rename_identifiers] returns the positional pairing of the sorted
    identifiers with the generated names when the names suffice, and
    raises otherwise. *)
Lemma rename_identifiers_result (tokens : list token) (lv : level) (r : rng) :
  let sorted_idents := sorted_desc (count_identifiers tokens) in
  let names := fst (generate_names (length sorted_idents) lv r) in
  let mapping := combine (map fst sorted_idents) names in
  fst (rename_identifiers tokens lv r)
  = if length sorted_idents <=? length names
    then Ok (map (apply_mapping mapping) tokens, mapping)
    else IndexError.
Proof.
  cbv zeta. unfold rename_identifiers.
  destruct (generate_names _ lv r) as [names r1]. cbn [fst].
  destruct (length (sorted_desc (count_identifiers tokens)) <=? length names)
    eqn:E.
  - apply Nat.leb_le in E.
    rewrite build_mapping_ok;
      [reflexivity | apply sorted_desc_keys_NoDup | exact E].
  - apply Nat.leb_gt in E. rewrite build_mapping_error; [reflexivity | lia | lia].
Qed.

Lemma names_suffice (count : nat) (lv : level) (r : rng) :
  count <= length (fst (generate_names count lv r))
  <-> within_bound count (pool_bound lv).
Proof.
  rewrite generate_names_length. destruct lv; simpl; lia.
Qed.

Lemma obfuscate_numbers_mild (code : str) (lv : level) (r : rng) :
  lv <> extreme -> obfuscate_numbers code lv r = (Ok code, r).
Proof. destruct lv; [reflexivity | reflexivity | congruence]. Qed.

Lemma replace_raises (lexeme : str) (r : rng) :
  value_error_iff (fst (replace lexeme r)) (too_long lexeme).
Proof.
  unfold replace, int_of_digits, too_long.
  destruct (length lexeme <=? int_max_str_digits); [|reflexivity].
  destruct (choices (decimal_value lexeme) r) as [cs r1].
  destruct (choice [] cs r1) as [e r2]. reflexivity.
Qed.

Lemma sub_replace_raises : forall (ps : list (piece unit)) (r : rng),
  value_error_iff (fst (sub_replace ps r))
    (existsb (fun m => too_long (fst m)) (matches ps)).
Proof.
  induction ps as [|[c|lexeme g] ps IH]; intros r;
    cbn [sub_replace matches existsb fst].
  - reflexivity.
  - specialize (IH r). destruct (sub_replace ps r) as [[out| |] r'];
      exact IH.
  - pose proof (replace_raises lexeme r) as Hr.
    destruct (replace lexeme r) as [[e| |] r1]; cbn [fst] in *.
    + cbn [value_error_iff] in Hr. rewrite Hr. cbn [orb].
      specialize (IH r1). destruct (sub_replace ps r1) as [[out| |] r2];
        exact IH.
    + destruct Hr.
    + cbn [value_error_iff] in *. now rewrite Hr.
Qed.

Lemma map_even_rng_raises : forall (parts : list str) (r : rng),
  value_error_iff (fst (map_even_rng parts r))
    (existsb long_number_in (even_parts parts)).
Proof.
  fix IH 1. intros [|p [|q parts]] r;
    cbn [map_even_rng even_parts existsb].
  - reflexivity.
  - pose proof (sub_replace_raises (scan NUMBER_RE None 0 p) r) as Hp.
    fold (sub_numbers p r) in Hp. fold (long_number_in p) in Hp.
    destruct (sub_numbers p r) as [[p'| |] r']; cbn [fst result_map] in *;
      cbn [value_error_iff] in *; rewrite ?orb_false_r; exact Hp.
  - pose proof (sub_replace_raises (scan NUMBER_RE None 0 p) r) as Hp.
    fold (sub_numbers p r) in Hp. fold (long_number_in p) in Hp.
    destruct (sub_numbers p r) as [[p'| |] r1]; cbn [fst] in *.
    + cbn [value_error_iff] in Hp. rewrite Hp. cbn [orb].
      specialize (IH parts r1).
      destruct (map_even_rng parts r1) as [[out| |] r2]; exact IH.
    + destruct Hp.
    + cbn [value_error_iff] in *. now rewrite Hp.
Qed.

Lemma obfuscate_numbers_cases (code : str) (r : rng) :
  value_error_iff (fst (obfuscate_numbers code extreme r)) (long_number code).
Proof.
  unfold obfuscate_numbers, long_number.
  pose proof (map_even_rng_raises (split_strings code) r) as H.
  destruct (map_even_rng (split_strings code) r) as [[parts| |] r'];
    exact H.
Qed.

(** The outcomes of a run: [IndexError] exactly when the identifiers
    exceed the name pool; within it an output, or at tier 3 the
    [ValueError] of the numeric obfuscator. *)
Lemma obfuscate_cases (code : str) (lv : level) (r : rng) :
  (within_bound (distinct_identifiers code) (pool_bound lv)
   /\ ((exists out mapping, obfuscate code lv r = Ok (out, mapping))
       \/ (lv = extreme /\ obfuscate code lv r = ValueError)))
  \/ (~ within_bound (distinct_identifiers code) (pool_bound lv)
      /\ obfuscate code lv r = IndexError).
Proof.
  unfold obfuscate, distinct_identifiers.
  pose proof (rename_identifiers_result
                (strip_comments (tokenize code)) lv r) as H.
  cbv zeta in H. rewrite sorted_desc_length in H.
  rewrite <- (names_suffice _ lv r).
  destruct (rename_identifiers _ lv r) as [[[tokens mapping]| |] r1];
    cbn [fst] in H.
  - destruct (_ <=? _) eqn:E in H; [|discriminate].
    apply Nat.leb_le in E. left. split; [exact E|].
    destruct lv.
    + cbn [obfuscate_numbers result_map]. left. eauto.
    + cbn [obfuscate_numbers result_map]. left. eauto.
    + match goal with
      | |- context [obfuscate_numbers ?c extreme r1] =>
          pose proof (obfuscate_numbers_cases c r1) as Hext;
          destruct (obfuscate_numbers c extreme r1) as [[out| |] r2]
      end; cbn [fst result_map] in *.
      * left. eauto.
      * destruct Hext.
      * right. split; reflexivity.
  - destruct (_ <=? _) eqn:E in H; [discriminate|].
    apply Nat.leb_gt in E. right. split; [lia | reflexivity].
  - destruct (_ <=? _) in H; discriminate.
Qed.

Lemma pool_exhausted (code : str) (lv : level) (r : rng) :
  ~ within_bound (distinct_identifiers code) (pool_bound lv) ->
  obfuscate code lv r = IndexError.
Proof.
  intros H. destruct (obfuscate_cases code lv r) as [[Hw _]|[_ E]];
    [contradiction | exact E].
Qed.

(** C3. Sixty-seven distinct identifiers at tier 1, seventy-nine at
    tier 2: the pools have sixty-six and seventy-eight names and are not
    extended, and the renaming raises [IndexError] whatever the random
    source. *)
Theorem fixed_pool_exhausted (r : rng) :
  distinct_identifiers (many_identifiers 67) = 67
  /\ obfuscate (many_identifiers 67) mild r = IndexError
  /\ distinct_identifiers (many_identifiers 79) = 79
  /\ obfuscate (many_identifiers 79) moderate r = IndexError.
Proof.
  assert (H67 : distinct_identifiers (many_identifiers 67) = 67)
    by (vm_compute; reflexivity).
  assert (H79 : distinct_identifiers (many_identifiers 79) = 79)
    by (vm_compute; reflexivity).
  repeat split; try assumption.
  - apply pool_exhausted. rewrite H67. simpl. lia.
  - apply pool_exhausted. rewrite H79. simpl. lia.
Qed.

(** The same source is renamed at tier 3, where the pool is extended. *)
Lemma extreme_pool_extended (r : rng) :
  exists renamed mapping,
    fst (rename_identifiers (strip_comments (tokenize (many_identifiers 67)))
           extreme r)
    = Ok (renamed, mapping).
Proof.
  rewrite rename_identifiers_result. cbv zeta.
  destruct (_ <=? _) eqn:E; [eauto|]. apply Nat.leb_gt in E.
  match type of E with
  | length (fst (generate_names ?n extreme r)) < _ =>
      pose proof (proj2 (names_suffice n extreme r) I)
  end. lia.
Qed.

Lemma obfuscate_mapping (code : str) (lv : level) (r : rng) (out : str)
    (mapping : list (str * str)) :
  obfuscate code lv r = Ok (out, mapping) ->
  exists renamed,
    fst (rename_identifiers (strip_comments (tokenize code)) lv r)
    = Ok (renamed, mapping).
Proof.
  unfold obfuscate.
  destruct (rename_identifiers _ lv r) as [[[tokens m]| |] r1];
    try discriminate.
  destruct (obfuscate_numbers _ lv r1) as [[code'| |] r2];
    cbn [result_map]; try discriminate.
  intros [= _ ->]. now exists tokens.
Qed.

Lemma name_pool_not_reserved (lv : level) (y : str) :
  In y (name_pool lv) -> ~ In y RESERVED.
Proof.
  intros H. apply mem_false.
  assert (E : forallb (fun y => negb (mem y RESERVED)) (name_pool lv) = true)
    by (destruct lv; vm_compute; reflexivity).
  rewrite forallb_forall in E. specialize (E y H).
  now destruct (mem y RESERVED).
Qed.

Lemma In_combine {A B : Type} (ks : list A) (vs : list B) (k : A) (v : B) :
  In (k, v) (combine ks vs) -> In k ks /\ In v vs.
Proof.
  intros H. split; [eapply in_combine_l | eapply in_combine_r]; eauto.
Qed.

(** C5. In every run at every tier, no key of the rename mapping is in
    the reserved set, and no generated name in its values is. *)
Theorem reserved_set_invariant (code : str) (lv : level) (r : rng)
    (out : str) (mapping : list (str * str)) :
  obfuscate code lv r = Ok (out, mapping) ->
  forall orig name, In (orig, name) mapping ->
    ~ In orig RESERVED /\ ~ In name RESERVED.
Proof.
  intros Hrun orig name Hin.
  apply obfuscate_mapping in Hrun. destruct Hrun as [renamed Hrun].
  rewrite rename_identifiers_result in Hrun.
  destruct (_ <=? _) in Hrun; [|discriminate].
  injection Hrun as _ <-. apply In_combine in Hin. destruct Hin as [Hk Hv].
  split.
  - apply (Permutation_in _ (Permutation_map fst (sorted_desc_perm _))) in Hk.
    now apply count_identifiers_key in Hk.
  - eapply name_pool_not_reserved, generate_names_In, Hv.
Qed.

Lemma reserved_set_invariant_witness :
  obfuscate small_function mild rng0
  = Ok (txt "int z(int y) { return y; }",
        [(txt "a", txt "y"); (txt "add", txt "z")])
  /\ ~ In (txt "add") RESERVED /\ ~ In (txt "z") RESERVED.
Proof.
  assert (H : obfuscate small_function mild rng0
              = Ok (txt "int z(int y) { return y; }",
                    [(txt "a", txt "y"); (txt "add", txt "z")]))
    by (vm_compute; reflexivity).
  split; [exact H|].
  apply (reserved_set_invariant _ _ _ _ _ H). right. left. reflexivity.
Defined.

(** ** Frequency ordering *)

Lemma nth_error_combine {A B : Type} : forall (ks : list A) (vs : list B) i k v,
  nth_error ks i = Some k -> nth_error vs i = Some v ->
  nth_error (combine ks vs) i = Some (k, v).
Proof.
  induction ks as [|k0 ks IH]; intros [|v0 vs] [|i] k v; simpl;
    try discriminate.
  - now intros [= ->] [= ->].
  - apply IH.
Qed.

Lemma count_identifiers_entry (tokens : list token) (A : str) :
  In (Kident, A) tokens -> ~ In A RESERVED ->
  In (A, occurrences A tokens) (count_identifiers tokens).
Proof.
  intros Hocc Hres.
  assert (Hk : In A (map fst (count_identifiers tokens)))
    by (apply count_identifiers_key; tauto).
  apply in_map_iff in Hk. destruct Hk as ([A' n] & E & Hin).
  simpl in E. subst A'.
  now rewrite <- (count_identifiers_value tokens A n Hin
                    (count_identifiers_NoDup tokens)).
Qed.

(** C4. Of two distinct renameable identifiers of the token stream, the
    one that occurs more often is assigned the earlier position of the
    consumed name pool; with equal counts, the one first seen earlier;
    and the entries of the mapping stand in that same order. *)
Theorem frequency_ordering (tokens : list token) (lv : level) (r : rng)
    (renamed : list token) (mapping : list (str * str)) :
  fst (rename_identifiers tokens lv r) = Ok (renamed, mapping) ->
  forall A B,
    A <> B ->
    In (Kident, A) tokens -> ~ In A RESERVED ->
    In (Kident, B) tokens -> ~ In B RESERVED ->
    occurrences B tokens < occurrences A tokens
    \/ (occurrences A tokens = occurrences B tokens
        /\ first_seen_before A B tokens) ->
    exists i j a b,
      i < j
      /\ nth_error (fst (generate_names (length mapping) lv r)) i = Some a
      /\ nth_error (fst (generate_names (length mapping) lv r)) j = Some b
      /\ nth_error mapping i = Some (A, a)
      /\ nth_error mapping j = Some (B, b).
Proof.
  intros Hrun A B Hne HA HAr HB HBr Hc.
  rewrite rename_identifiers_result in Hrun.
  destruct (_ <=? _) eqn:El in Hrun; [|discriminate].
  apply Nat.leb_le in El. injection Hrun as _ <-.
  set (freq := count_identifiers tokens) in *.
  set (names := fst (generate_names (length (sorted_desc freq)) lv r)) in *.
  assert (Elen : length (combine (map fst (sorted_desc freq)) names)
                 = length (sorted_desc freq)).
  { rewrite length_combine, length_map. lia. }
  rewrite Elen. fold names.
  pose proof (count_identifiers_entry tokens A HA HAr) as HinA.
  pose proof (count_identifiers_entry tokens B HB HBr) as HinB.
  fold freq in HinA, HinB.
  assert (Hb : before A B (map fst (sorted_desc freq))).
  { apply (before_map fst (A, occurrences A tokens) (B, occurrences B tokens)).
    apply sorted_desc_order; try assumption.
    - eapply NoDup_map_inv, count_identifiers_NoDup.
    - congruence.
    - cbn [snd]. destruct Hc as [Hc|[Hc Hfirst]]; [now left | right].
      split; [assumption|].
      apply (before_map_inv fst); try assumption;
        [apply count_identifiers_NoDup|].
      apply count_identifiers_order; try assumption.
      apply (in_map fst) in HinB. exact HinB. }
  apply before_nth_error in Hb. destruct Hb as (i & j & Hij & Hi & Hj).
  assert (Hjl : j < length names).
  { assert (j < length (map fst (sorted_desc freq)))
      by (apply nth_error_Some; congruence).
    rewrite length_map in *. lia. }
  destruct (nth_error names i) as [a|] eqn:Ea;
    [|apply nth_error_None in Ea; lia].
  destruct (nth_error names j) as [b|] eqn:Eb;
    [|apply nth_error_None in Eb; lia].
  exists i, j, a, b. repeat split; try assumption.
  - now apply nth_error_combine.
  - now apply nth_error_combine.
Qed.

Lemma frequency_ordering_witness :
  fst (rename_identifiers three_identifiers mild rng0)
  = Ok ([(Kident, txt "z"); (Kws, txt " "); (Kident, txt "y");
         (Kws, txt " "); (Kident, txt "q"); (Kws, txt " ");
         (Kident, txt "y")],
        [(txt "a", txt "y"); (txt "b", txt "z"); (txt "c", txt "q")])
  /\ exists i j a b,
       i < j
       /\ nth_error (fst (generate_names 3 mild rng0)) i = Some a
       /\ nth_error (fst (generate_names 3 mild rng0)) j = Some b
       /\ nth_error [(txt "a", txt "y"); (txt "b", txt "z"); (txt "c", txt "q")]
                    i = Some (txt "b", a)
       /\ nth_error [(txt "a", txt "y"); (txt "b", txt "z"); (txt "c", txt "q")]
                    j = Some (txt "c", b).
Proof.
  assert (H : fst (rename_identifiers three_identifiers mild rng0)
              = Ok ([(Kident, txt "z"); (Kws, txt " "); (Kident, txt "y");
                     (Kws, txt " "); (Kident, txt "q"); (Kws, txt " ");
                     (Kident, txt "y")],
                    [(txt "a", txt "y"); (txt "b", txt "z");
                     (txt "c", txt "q")]))
    by (vm_compute; reflexivity).
  split; [exact H|].
  apply (frequency_ordering _ _ _ _ _ H (txt "b") (txt "c")).
  - discriminate.
  - left. reflexivity.
  - vm_compute. intuition discriminate.
  - right. right. right. right. left. reflexivity.
  - vm_compute. intuition discriminate.
  - right. split; [reflexivity|].
    exists [], (tl three_identifiers). split; [reflexivity | intros []].
Defined.

(** ** Characters that no alternative matches *)

Lemma interleaved_app_left (l : str) : forall a b s,
  interleaved a b s -> interleaved (l ++ a) b (l ++ s).
Proof.
  induction l as [|c l IH]; intros a b s H; simpl; [assumption|].
  apply interleaved_left. now apply IH.
Qed.

(** The text of the pieces is the matches and the gaps merged. *)
Lemma pieces_interleaved {G : Type} (ps : list (piece G)) :
  interleaved (concat (map fst (matches ps))) (gaps ps)
              (concat (map piece_text ps)).
Proof.
  induction ps as [|[c|lexeme g] ps IH]; simpl.
  - constructor.
  - now apply interleaved_right.
  - now apply interleaved_app_left.
Qed.

Lemma tokenize_interleaved (code : str) :
  interleaved (detokenize (tokenize code)) (unscanned code) code.
Proof.
  rewrite detokenize_tokenize_matches. unfold unscanned.
  rewrite <- (scan_text TOKEN_REGEX code None 0) at 3.
  apply pieces_interleaved.
Qed.

(** C2, as the code has it.  A character that no alternative matches does
    not stop the run: the scan steps over it, and the token lexemes are
    the input with exactly those characters left out.  Whenever the
    distinct renameable identifiers fit the name pool of the tier the
    run returns an output, or, at tier 3 only, raises the [ValueError]
    of [int]. *)
Theorem unscannable_input_dropped (code : str) (lv : level) (r : rng) :
  interleaved (detokenize (tokenize code)) (unscanned code) code
  /\ (within_bound (distinct_identifiers code) (pool_bound lv) ->
      (exists out mapping, obfuscate code lv r = Ok (out, mapping))
      \/ (lv = extreme /\ obfuscate code lv r = ValueError)).
Proof.
  split; [apply tokenize_interleaved|]. intros Hw.
  destruct (obfuscate_cases code lv r) as [[_ H]|[Hn _]];
    [exact H | contradiction].
Qed.

Lemma unscannable_input_dropped_witness :
  interleaved (detokenize (tokenize (txt "a@b"))) (unscanned (txt "a@b"))
              (txt "a@b")
  /\ exists out mapping, obfuscate (txt "a@b") mild rng0 = Ok (out, mapping).
Proof.
  destruct (unscannable_input_dropped (txt "a@b") mild rng0) as [H1 H2].
  split; [exact H1|].
  destruct H2 as [H|[H _]]; [vm_compute; lia | exact H | discriminate H].
Defined.

(** Whatever the random source: the input holds no identifier to
    rename. *)
Lemma unscannable_input_accepted_always (r : rng) :
  obfuscate (txt "1 @ 2") mild r = Ok (txt "1  2", []).
Proof. reflexivity. Qed.

(** C2, as stated, fails: the input holds a character that no alternative
    matches, and the run returns an output from which it is missing. *)
Lemma unscannable_input_accepted :
  unscanned (txt "1 @ 2") = txt "@"
  /\ obfuscate (txt "1 @ 2") mild rng0 = Ok (txt "1  2", []).
Proof. split; vm_compute; reflexivity. Qed.

(** ** Directive line isolation, character by character *)

Lemma line_run_app (q : option line_state) (a b : str) :
  line_run q (a ++ b) = line_run (line_run q a) b.
Proof. apply fold_left_app. Qed.

Lemma line_run_None (s : str) : line_run None s = None.
Proof. induction s as [|c s IH]; [reflexivity | exact IH]. Qed.

Lemma line_step_mono (q q' : option line_state) (c : ascii) :
  rank q <= rank q' -> rank (line_step q c) <= rank (line_step q' c).
Proof.
  destruct q as [[]|], q' as [[]|]; simpl; intros H; try lia;
    destruct (Ascii.eqb c nl); simpl; try lia;
    destruct (Ascii.eqb c "#"); simpl; lia.
Qed.

Lemma line_run_mono (s : str) : forall q q',
  rank q <= rank q' -> rank (line_run q s) <= rank (line_run q' s).
Proof.
  induction s as [|c s IH]; intros q q' H; [exact H|].
  apply IH, line_step_mono, H.
Qed.

Lemma improves_refl (s : str) : improves s s.
Proof. intros q. lia. Qed.

Lemma improves_trans (a b c : str) :
  improves a b -> improves b c -> improves a c.
Proof. intros H1 H2 q. specialize (H1 q). specialize (H2 q). lia. Qed.

Lemma improves_app (a a' b b' : str) :
  improves a a' -> improves b b' -> improves (a ++ b) (a' ++ b').
Proof.
  intros Ha Hb q. rewrite !line_run_app.
  etransitivity; [apply line_run_mono, Ha | apply Hb].
Qed.

Lemma split_lines_cons (s : str) : exists l ls, split_lines s = l :: ls.
Proof.
  destruct s as [|c s]; simpl; [eauto|].
  destruct (Ascii.eqb c nl); [eauto|].
  destruct (split_lines s); eauto.
Qed.

(** The lines of a text are isolated exactly when the run over its
    characters does not fail. *)
Lemma line_run_lines : forall s q l ls,
  split_lines s = l :: ls ->
  (line_run (Some q) s <> None
   <-> line_permits q l && forallb line_isolated ls = true).
Proof.
  induction s as [|c s IH]; intros q l ls El.
  - injection El as <- <-. destruct q; simpl; split; congruence.
  - change (line_run (Some q) (c :: s))
      with (line_run (line_step (Some q) c) s).
    cbn [split_lines line_step] in *.
    destruct (split_lines_cons s) as (l' & ls' & El').
    rewrite El' in El. destruct (Ascii.eqb c nl) eqn:Enl.
    + injection El as <- <-. rewrite (IH AtStart l' ls' El').
      cbn [forallb line_permits]. destruct q; simpl; tauto.
    + injection El as <- <-.
      destruct q; cbn [line_permits].
      * destruct (Ascii.eqb c "#") eqn:Eh.
        -- rewrite (IH InDirective l' ls' El'). cbn [line_permits].
           unfold line_isolated. cbn [nonempty negb startswith].
           rewrite (Ascii.eqb_sym "#" c), Eh. simpl. tauto.
        -- rewrite (IH InPlain l' ls' El'). cbn [line_permits].
           unfold line_isolated.
           cbn [nonempty negb startswith has_char existsb].
           rewrite (Ascii.eqb_sym "#" c), Eh. simpl. tauto.
      * rewrite (IH InDirective l' ls' El'). reflexivity.
      * destruct (Ascii.eqb c "#") eqn:Eh.
        -- rewrite line_run_None. cbn [has_char existsb].
           rewrite (Ascii.eqb_sym "#" c), Eh. simpl. split; congruence.
        -- rewrite (IH InPlain l' ls' El'). cbn [line_permits has_char existsb].
           rewrite (Ascii.eqb_sym "#" c), Eh. simpl. tauto.
Qed.

Lemma lines_isolated_run (s : str) :
  lines_isolated s = true <-> line_run (Some AtStart) s <> None.
Proof.
  unfold lines_isolated.
  destruct (split_lines_cons s) as (l & ls & El).
  rewrite (line_run_lines s AtStart l ls El), El. reflexivity.
Qed.

(** ** Spans and prefixes *)

Lemma span_firstn (p : ascii -> bool) : forall s,
  forallb p (firstn (span p s) s) = true.
Proof.
  induction s as [|c s IH]; simpl; [reflexivity|].
  destruct (p c) eqn:E; simpl; [now rewrite E | reflexivity].
Qed.

Lemma firstn_add {A : Type} (a b : nat) : forall l : list A,
  firstn (a + b) l = firstn a l ++ firstn b (skipn a l).
Proof.
  induction a as [|a IH]; intros [|x l]; simpl; try reflexivity.
  - now rewrite firstn_nil.
  - now rewrite IH.
Qed.

Lemma skipn_add {A : Type} (a b : nat) : forall l : list A,
  skipn (a + b) l = skipn b (skipn a l).
Proof.
  induction a as [|a IH]; intros [|x l]; simpl; try reflexivity.
  - now rewrite skipn_nil.
  - apply IH.
Qed.

Lemma forallb_firstn {A : Type} (p : A -> bool) (n : nat) : forall l,
  forallb p l = true -> forallb p (firstn n l) = true.
Proof.
  induction n as [|n IH]; intros [|x l]; simpl; try reflexivity.
  intros H. apply andb_true_iff in H. destruct H as [-> H]. now apply IH.
Qed.

Lemma forallb_skipn {A : Type} (p : A -> bool) (n : nat) : forall l,
  forallb p l = true -> forallb p (skipn n l) = true.
Proof.
  induction n as [|n IH]; intros [|x l]; simpl; try reflexivity; auto.
  intros H. apply andb_true_iff in H. destruct H as [_ H]. now apply IH.
Qed.

Lemma forallb_impl {A : Type} (p q : A -> bool) (l : list A) :
  (forall x, p x = true -> q x = true) ->
  forallb p l = true -> forallb q l = true.
Proof.
  intros Hpq. rewrite !forallb_forall. auto.
Qed.

(** A text of characters other than [x] does not hold [x]. *)
Lemma has_char_forallb (x : ascii) (l : str) :
  forallb (fun c => negb (Ascii.eqb c x)) l = true <-> has_char x l = false.
Proof.
  induction l as [|c l IH]; simpl; [tauto|].
  rewrite (Ascii.eqb_sym x c).
  destruct (Ascii.eqb c x); simpl; [split; discriminate | exact IH].
Qed.

Lemma plain_no_hash (l : str) :
  forallb plain l = true -> has_char "#" l = false.
Proof.
  intros H. apply has_char_forallb. revert H. apply forallb_impl.
  intros c Hc. unfold plain, not_hash in Hc.
  now apply andb_true_iff in Hc.
Qed.

Lemma plain_no_nl (l : str) :
  forallb plain l = true -> has_char nl l = false.
Proof.
  intros H. apply has_char_forallb. revert H. apply forallb_impl.
  intros c Hc. unfold plain, not_nl in Hc.
  now apply andb_true_iff in Hc.
Qed.

Lemma word_plain (c : ascii) : is_word c = true -> plain c = true.
Proof.
  intros H. unfold plain, not_hash, not_nl.
  destruct (Ascii.eqb c "#") eqn:E1;
    [apply Ascii.eqb_eq in E1; subst; discriminate|].
  destruct (Ascii.eqb c nl) eqn:E2;
    [apply Ascii.eqb_eq in E2; subst; discriminate|].
  reflexivity.
Qed.

Lemma digit_word (c : ascii) : is_digit c = true -> is_word c = true.
Proof. unfold is_word. intros ->. apply orb_true_r. Qed.

(** ** Replacing matches keeps lines isolated *)

Lemma line_run_no_hash (s : str) : forall q,
  has_char "#" s = false -> 1 <= rank q -> 1 <= rank (line_run q s).
Proof.
  induction s as [|c s IH]; intros q H Hq; [exact Hq|].
  cbn [has_char existsb] in H. apply orb_false_iff in H. destruct H as [Hc H].
  apply IH; [exact H|].
  rewrite Ascii.eqb_sym in Hc.
  destruct q as [[]|]; simpl in *; try lia;
    destruct (Ascii.eqb c nl); simpl; try lia; rewrite Hc; simpl; lia.
Qed.

Lemma line_run_directive (s : str) :
  has_char nl s = false ->
  line_run (Some InDirective) s = Some InDirective.
Proof.
  induction s as [|c s IH]; intros H; [reflexivity|].
  cbn [has_char existsb] in H. apply orb_false_iff in H. destruct H as [Hc H].
  rewrite Ascii.eqb_sym in Hc.
  change (line_run (line_step (Some InDirective) c) s = Some InDirective).
  cbn [line_step]. rewrite Hc. now apply IH.
Qed.

(** After a text with no directive marker that ends within a line, the
    run is inside a plain line, unless it is inside a directive. *)
Lemma line_run_plain_end (m : str) (c : ascii) (q : line_state) :
  has_char "#" (m ++ [c]) = false -> Ascii.eqb c nl = false ->
  q <> InDirective ->
  rank (line_run (Some q) (m ++ [c])) <= 1.
Proof.
  intros H Hc Hq. rewrite has_char_app in H.
  apply orb_false_iff in H. destruct H as [Hm Hh].
  cbn [has_char existsb] in Hh. rewrite orb_false_r, Ascii.eqb_sym in Hh.
  rewrite line_run_app.
  assert (Hr : rank (line_run (Some q) m) <= 2).
  { clear Hh Hc. revert q Hq.
    induction m as [|d m IH]; intros q Hq; [destruct q; simpl; [lia|tauto|lia]|].
    cbn [has_char existsb] in Hm. apply orb_false_iff in Hm.
    destruct Hm as [Hd Hm]. rewrite Ascii.eqb_sym in Hd.
    change (rank (line_run (line_step (Some q) d) m) <= 2).
    cbn [line_step]. destruct (Ascii.eqb d nl); [apply IH; [assumption|discriminate]|].
    destruct q; [| tauto |]; rewrite Hd; apply IH; try assumption; discriminate. }
  destruct (line_run (Some q) m) as [[]|]; simpl in *; try lia;
    rewrite Hc, ?Hh; simpl; lia.
Qed.

Lemma rank_le_3 (q : option line_state) : rank q <= 3.
Proof. destruct q as [[]|]; simpl; lia. Qed.

(** A match with no directive marker that ends within a line may be
    replaced by any text with no directive marker and no newline. *)
Lemma replacement_improves (m : str) (c : ascii) (e : str) :
  has_char "#" (m ++ [c]) = false -> Ascii.eqb c nl = false ->
  has_char "#" e = false -> has_char nl e = false ->
  improves (m ++ [c]) e.
Proof.
  intros Hm Hc He Hnl q. destruct q as [q|].
  - destruct q.
    + etransitivity; [apply line_run_plain_end; try assumption; discriminate|].
      apply line_run_no_hash; [assumption | simpl; lia].
    + rewrite (line_run_directive e Hnl). apply rank_le_3.
    + etransitivity; [apply line_run_plain_end; try assumption; discriminate|].
      apply line_run_no_hash; [assumption | simpl; lia].
  - rewrite line_run_None. simpl. lia.
Qed.

Section ScanMatches.
Context {G : Type} (m : matcher G) (P : str -> G -> Prop).
Hypothesis matcher_sound :
  forall prev s n g, m prev s = Some (n, g) -> P (firstn n s) g.

(** What holds of every match of the matcher holds of every match the
    scan lists. *)
Lemma scan_matches_sound : forall s prev skip lexeme g,
  In (Match lexeme g) (scan m prev skip s) -> P lexeme g.
Proof.
  induction s as [|c s IH]; intros prev skip lexeme g; simpl; [tauto|].
  destruct skip as [|k]; [|apply IH].
  destruct (m prev (c :: s)) as [[[|n] g']|] eqn:E; simpl.
  - intros [[=]|H]. eapply IH, H.
  - intros [[= <- <-]|H]; [|eapply IH, H].
    apply (matcher_sound _ _ _ _ E).
  - intros [[=]|H]. eapply IH, H.
Qed.
End ScanMatches.

Lemma sub_pieces_improves {G : Type} (repl : str -> G -> str)
    (ps : list (piece G)) :
  (forall lexeme g, In (Match lexeme g) ps -> improves lexeme (repl lexeme g)) ->
  improves (concat (map piece_text ps)) (sub_pieces repl ps).
Proof.
  unfold sub_pieces. induction ps as [|[c|lexeme g] ps IH]; intros H; simpl.
  - apply improves_refl.
  - apply (improves_app [c] [c]); [apply improves_refl|].
    apply IH. intros; apply H; now right.
  - apply improves_app; [apply H; now left|].
    apply IH. intros; apply H; now right.
Qed.

(** A non-empty text of word characters ends in a word character. *)
Lemma words_end (n : nat) (s : str) :
  0 < n -> n <= span is_word s ->
  exists m c, firstn n s = m ++ [c] /\ is_word c = true.
Proof.
  intros Hn Hle.
  assert (Hall : forallb is_word (firstn n s) = true).
  { replace n with (Nat.min n (span is_word s)) by lia.
    rewrite <- firstn_firstn. apply forallb_firstn, span_firstn. }
  destruct (firstn n s) as [|x l] eqn:E using rev_ind.
  - exfalso. destruct n; [lia|]. destruct s; simpl in *; [lia | discriminate].
  - clear IHl. exists l, x. split; [reflexivity|].
    rewrite forallb_app in Hall. apply andb_true_iff in Hall.
    destruct Hall as [_ Hx]. simpl in Hx. now rewrite andb_true_r in Hx.
Qed.

Lemma class_no_char (p : ascii -> bool) (x : ascii) (l : str) :
  p x = false -> forallb p l = true -> has_char x l = false.
Proof.
  intros Hx H. apply has_char_forallb. revert H. apply forallb_impl.
  intros c Hc. destruct (Ascii.eqb c x) eqn:E; [|reflexivity].
  apply Ascii.eqb_eq in E. congruence.
Qed.

(** What an operator pattern matches: word and space characters around
    the operator, ending in a word character; the groups are words. *)
Lemma BINOP_RE_sound (o : ascii) (prev : option ascii) (s : str) (n : nat)
    (g : str * str) :
  Ascii.eqb o "#" = false ->
  BINOP_RE o prev s = Some (n, g) ->
  has_char "#" (firstn n s) = false
  /\ (exists m c, firstn n s = m ++ [c] /\ is_word c = true)
  /\ forallb is_word (fst g) = true /\ forallb is_word (snd g) = true.
Proof.
  intros Ho. unfold BINOP_RE.
  set (w1 := span is_word s). set (s1 := skipn w1 s).
  set (sp1 := span is_space s1).
  destruct (word_boundary_before prev && (0 <? w1)); [|discriminate].
  destruct (skipn sp1 s1) as [|c s2] eqn:E2; [discriminate|].
  destruct (Ascii.eqb c o) eqn:Ec; [|discriminate].
  apply Ascii.eqb_eq in Ec. subst c.
  set (sp2 := span is_space s2). set (s3 := skipn sp2 s2).
  set (w2 := span is_word s3).
  destruct (0 <? w2) eqn:Ew2; [|discriminate].
  apply Nat.ltb_lt in Ew2. intros [= <- <-]. cbn [fst snd].
  assert (Hw1 : forallb is_word (firstn w1 s) = true) by apply span_firstn.
  assert (Hw2 : forallb is_word (firstn w2 s3) = true) by apply span_firstn.
  assert (Hs1 : forallb is_space (firstn sp1 s1) = true) by apply span_firstn.
  assert (Hs2 : forallb is_space (firstn sp2 s2) = true) by apply span_firstn.
  assert (Eshape : firstn (w1 + sp1 + 1 + sp2 + w2) s
                   = firstn w1 s ++ firstn sp1 s1 ++ [o] ++ firstn sp2 s2
                       ++ firstn w2 s3).
  { rewrite !firstn_add, !skipn_add. fold s1. rewrite E2. simpl.
    fold s3. now rewrite <- !app_assoc. }
  rewrite Eshape. repeat split; try assumption.
  - rewrite !has_char_app.
    rewrite (class_no_char is_word "#" _ eq_refl Hw1).
    rewrite (class_no_char is_word "#" _ eq_refl Hw2).
    rewrite (class_no_char is_space "#" _ eq_refl Hs1).
    rewrite (class_no_char is_space "#" _ eq_refl Hs2).
    cbn [has_char existsb]. rewrite Ascii.eqb_sym, Ho. reflexivity.
  - destruct (words_end w2 s3 Ew2 (Nat.le_refl _)) as (m & c & Em & Hc).
    exists (firstn w1 s ++ firstn sp1 s1 ++ [o] ++ firstn sp2 s2 ++ m), c.
    split; [|assumption]. rewrite Em. now rewrite <- !app_assoc.
Qed.

Lemma word_not_nl (c : ascii) : is_word c = true -> Ascii.eqb c nl = false.
Proof.
  intros H. destruct (Ascii.eqb c nl) eqn:E; [|reflexivity].
  apply Ascii.eqb_eq in E. subst. discriminate.
Qed.

(** One operator pass keeps lines isolated. *)
Lemma sub_binop_improves (o : ascii) (name : string) (part : str) :
  Ascii.eqb o "#" = false ->
  forallb plain (txt name) = true ->
  improves part (sub_binop o name part).
Proof.
  intros Ho Hname. unfold sub_binop.
  rewrite <- (scan_text (BINOP_RE o) part None 0) at 1.
  apply sub_pieces_improves. intros lexeme g Hin.
  apply (scan_matches_sound (BINOP_RE o)
           (fun lexeme g =>
              has_char "#" lexeme = false
              /\ (exists m c, lexeme = m ++ [c] /\ is_word c = true)
              /\ forallb is_word (fst g) = true
              /\ forallb is_word (snd g) = true)) in Hin.
  - destruct Hin as (Hh & (m & c & -> & Hc) & Hg1 & Hg2).
    assert (Hp1 : forallb plain (fst g) = true)
      by (revert Hg1; apply forallb_impl, word_plain).
    assert (Hp2 : forallb plain (snd g) = true)
      by (revert Hg2; apply forallb_impl, word_plain).
    assert (Hcall : forallb plain (macro_call name (m ++ [c]) g) = true).
    { unfold macro_call. rewrite forallb_app, Hname. cbn [forallb andb].
      rewrite forallb_app, Hp1. cbn [forallb andb].
      rewrite forallb_app, Hp2. reflexivity. }
    apply replacement_improves; try assumption.
    + now apply word_not_nl.
    + now apply plain_no_hash.
    + now apply plain_no_nl.
  - intros prev s n g'. now apply BINOP_RE_sound.
Qed.

(** ** Splitting on string literals *)

Lemma split_pieces_concat {G : Type} (ps : list (piece G)) : forall seg,
  concat (split_pieces seg ps) = seg ++ concat (map piece_text ps).
Proof.
  induction ps as [|[c|lexeme g] ps IH]; intros seg; simpl.
  - now rewrite !app_nil_r.
  - now rewrite IH, <- app_assoc.
  - now rewrite IH.
Qed.

Lemma split_strings_concat (code : str) : concat (split_strings code) = code.
Proof.
  unfold split_strings. rewrite split_pieces_concat. simpl.
  apply (scan_text STRING_RE code None 0).
Qed.

Lemma map_even_improves (f : str -> str) :
  (forall p, improves p (f p)) ->
  forall parts, improves (concat parts) (concat (map_even f parts)).
Proof.
  intros Hf. fix IH 1. intros [|p [|q parts]]; simpl.
  - apply improves_refl.
  - apply improves_app; [apply Hf | apply improves_refl].
  - apply improves_app; [apply Hf|].
    apply improves_app; [apply improves_refl | apply IH].
Qed.

(** ** Lines *)

Lemma split_lines_app_nl (l rest : str) :
  has_char nl l = false ->
  split_lines (l ++ nl :: rest) = l :: split_lines rest.
Proof.
  induction l as [|c l IH]; intros H; [reflexivity|].
  cbn [has_char existsb] in H. apply orb_false_iff in H. destruct H as [Hc H].
  rewrite Ascii.eqb_sym in Hc. simpl. rewrite Hc, (IH H). reflexivity.
Qed.

Lemma split_lines_one (l : str) :
  has_char nl l = false -> split_lines l = [l].
Proof.
  induction l as [|c l IH]; intros H; [reflexivity|].
  cbn [has_char existsb] in H. apply orb_false_iff in H. destruct H as [Hc H].
  rewrite Ascii.eqb_sym in Hc. simpl. rewrite Hc, (IH H). reflexivity.
Qed.

(** Joining lines that hold no newline and splitting again gives the
    lines back. *)
Lemma split_join_lines : forall lines,
  lines <> [] ->
  forallb (fun l => negb (has_char nl l)) lines = true ->
  split_lines (join_lines lines) = lines.
Proof.
  induction lines as [|l [|l2 ls] IH]; intros Hne H; [congruence| |].
  - simpl in *. rewrite andb_true_r in H. apply split_lines_one.
    now destruct (has_char nl l).
  - cbn [forallb] in H. apply andb_true_iff in H. destruct H as [Hl H].
    change (join_lines (l :: l2 :: ls))
      with (l ++ nl :: join_lines (l2 :: ls)).
    rewrite split_lines_app_nl; [|now destruct (has_char nl l)].
    rewrite IH; [reflexivity | discriminate | exact H].
Qed.

Lemma split_lines_no_nl : forall s,
  forallb (fun l => negb (has_char nl l)) (split_lines s) = true.
Proof.
  induction s as [|c s IH]; [reflexivity|].
  cbn [split_lines]. destruct (Ascii.eqb c nl) eqn:E; [exact IH|].
  destruct (split_lines s) as [|l ls]; cbn [forallb has_char existsb] in *.
  - now rewrite (Ascii.eqb_sym nl c), E.
  - now rewrite (Ascii.eqb_sym nl c), E.
Qed.

Lemma forallb_list_insert {A : Type} (p : A -> bool) (i : nat) (x : A)
    (l : list A) :
  p x = true -> forallb p l = true -> forallb p (list_insert i x l) = true.
Proof.
  intros Hx Hl. unfold list_insert. rewrite forallb_app. cbn [forallb].
  now rewrite forallb_firstn, Hx, forallb_skipn.
Qed.

Lemma forallb_insert_all {A : Type} (p : A -> bool) (i : nat) :
  forall (xs l : list A),
  forallb p xs = true -> forallb p l = true ->
  forallb p (fold_left (fun ls x => list_insert i x ls) xs l) = true.
Proof.
  induction xs as [|x xs IH]; intros l Hxs Hl; [exact Hl|].
  cbn [forallb] in Hxs. apply andb_true_iff in Hxs. destruct Hxs as [Hx Hxs].
  simpl. apply IH; [exact Hxs|]. now apply forallb_list_insert.
Qed.

(** A list of isolated lines that hold no newline joins to an isolated
    text. *)
Lemma join_lines_isolated (lines : list str) :
  forallb line_isolated lines = true ->
  forallb (fun l => negb (has_char nl l)) lines = true ->
  lines_isolated (join_lines lines) = true.
Proof.
  intros Hiso Hnl. unfold lines_isolated.
  destruct lines as [|l ls]; [reflexivity|].
  rewrite split_join_lines; [exact Hiso | discriminate | exact Hnl].
Qed.

Lemma improves_isolated (old new : str) :
  improves old new -> lines_isolated old = true -> lines_isolated new = true.
Proof.
  intros H Hold. apply lines_isolated_run. apply lines_isolated_run in Hold.
  specialize (H (Some AtStart)).
  destruct (line_run (Some AtStart) old); [|congruence].
  destruct (line_run (Some AtStart) new); [discriminate|].
  destruct l; simpl in H; lia.
Qed.

(** The macro injector keeps lines isolated. *)
Lemma inject_macros_isolated (code : str) (lv : level) :
  lines_isolated code = true -> lines_isolated (inject_macros code lv) = true.
Proof.
  intros H. unfold inject_macros. destruct lv; [exact H| |].
  all: match goal with
       | |- context [map_even ?f _] => set (passes := f)
       end.
  all: assert (Hcode : lines_isolated
                         (concat (map_even passes (split_strings code))) = true)
    by (apply (improves_isolated code); [|exact H];
        rewrite <- (split_strings_concat code) at 1;
        apply map_even_improves; intros p; unfold passes;
        apply (improves_trans _ (sub_binop "+" "_OB_A" p));
          [apply sub_binop_improves; reflexivity|];
        apply (improves_trans _ (sub_binop "-" "_OB_S"
                                   (sub_binop "+" "_OB_A" p)));
          apply sub_binop_improves; reflexivity).
  all: apply join_lines_isolated;
    [ apply forallb_insert_all; [reflexivity | exact Hcode]
    | apply forallb_insert_all; [reflexivity | apply split_lines_no_nl] ].
Qed.

(** ** The characters of rendered numbers *)

Lemma txt_String (c : ascii) (s : string) : txt (String c s) = c :: txt s.
Proof. reflexivity. Qed.

Lemma string_of_uint_plain (d : Decimal.uint) :
  forallb plain (txt (NilEmpty.string_of_uint d)) = true.
Proof.
  induction d; cbn [NilEmpty.string_of_uint]; rewrite ?txt_String;
    cbn [forallb]; rewrite ?IHd; reflexivity.
Qed.

Lemma str_of_int_plain (n : Z) : forallb plain (str_of_int n) = true.
Proof.
  unfold str_of_int, NilZero.string_of_int, NilZero.string_of_uint.
  destruct (Z.to_int n) as [d|d].
  - destruct d; try apply string_of_uint_plain. reflexivity.
  - rewrite txt_String. cbn [forallb].
    destruct d; try (rewrite string_of_uint_plain; reflexivity). reflexivity.
Qed.

Lemma hex_of_pos_plain : forall (p : positive) (rest : string),
  forallb plain (txt rest) = true ->
  forallb plain (txt (HexString.Raw.of_pos p rest)) = true.
Proof.
  intros p. remember (Pos.to_nat p) as n eqn:En. revert p En.
  induction n as [n IH] using lt_wf_ind. intros p -> rest H.
  do 4 try destruct p as [p|p|]; cbn [HexString.Raw.of_pos];
    try (apply (IH (Pos.to_nat p)); [lia | reflexivity |]);
    rewrite ?txt_String; cbn [forallb]; rewrite H; reflexivity.
Qed.

Lemma hex_plain (n : Z) : forallb plain (hex n) = true.
Proof.
  unfold hex, HexString.of_Z, HexString.of_pos.
  destruct n as [|p|p]; [reflexivity| |]; rewrite !txt_String; cbn [forallb];
    rewrite hex_of_pos_plain; reflexivity.
Qed.

Lemma oct_of_pos_plain : forall (p : positive) (rest : string),
  forallb plain (txt rest) = true ->
  forallb plain (txt (OctalString.Raw.of_pos p rest)) = true.
Proof.
  intros p. remember (Pos.to_nat p) as n eqn:En. revert p En.
  induction n as [n IH] using lt_wf_ind. intros p -> rest H.
  do 3 try destruct p as [p|p|]; cbn [OctalString.Raw.of_pos];
    try (apply (IH (Pos.to_nat p)); [lia | reflexivity |]);
    rewrite ?txt_String; cbn [forallb]; rewrite H; reflexivity.
Qed.

Lemma oct_plain (n : Z) : forallb plain (oct n) = true.
Proof.
  unfold oct, OctalString.of_Z, OctalString.of_pos.
  destruct n as [|p|p]; [reflexivity| |]; rewrite !txt_String; cbn [forallb];
    rewrite oct_of_pos_plain; reflexivity.
Qed.

Lemma forallb_snoc {A : Type} (p : A -> bool) (l : list A) (x : A) :
  forallb p l = true -> p x = true -> forallb p (l ++ [x]) = true.
Proof. intros Hl Hx. rewrite forallb_app, Hl. simpl. now rewrite Hx. Qed.

Lemma plain_app (a b : str) :
  forallb plain a = true -> forallb plain b = true ->
  forallb plain (a ++ b) = true.
Proof. intros Ha Hb. now rewrite forallb_app, Ha, Hb. Qed.

Lemma plain_cons (c : ascii) (b : str) :
  plain c = true -> forallb plain b = true -> forallb plain (c :: b) = true.
Proof. intros Hc Hb. simpl. now rewrite Hc, Hb. Qed.

(** Every candidate expression is made of plain characters. *)
Lemma choices_plain (n : Z) (r : rng) :
  forallb (forallb plain) (fst (choices n r)) = true.
Proof.
  unfold choices.
  assert (H1 : forallb (forallb plain) [str_of_int n] = true)
    by (cbn [forallb]; now rewrite str_of_int_plain).
  set (c2 := if (n >=? 0)%Z then [str_of_int n] ++ [hex n] else [str_of_int n]).
  assert (H2 : forallb (forallb plain) c2 = true).
  { unfold c2. destruct (n >=? 0)%Z; [|exact H1].
    apply forallb_snoc; [exact H1 | apply hex_plain]. }
  set (c3 := if ((0 <? n) && (n <? 256))%Z then _ else c2).
  assert (H3 : forallb (forallb plain) c3 = true).
  { unfold c3. destruct ((0 <? n) && (n <? 256))%Z; [|exact H2].
    rewrite app_assoc. apply forallb_snoc; [apply forallb_snoc; [exact H2|]|].
    - apply plain_cons; [reflexivity|]. apply forallb_skipn, oct_plain.
    - apply plain_app; [reflexivity|]. apply plain_app; [apply hex_plain|].
      reflexivity. }
  assert (Hshift : forallb plain
                     (txt "(1<<" ++ str_of_int (bit_length n - 1) ++ [")"])
                   = true).
  { apply plain_app; [reflexivity|].
    apply plain_app; [apply str_of_int_plain | reflexivity]. }
  destruct (n >? 1)%Z.
  - destruct (randint 1 (n - 1) r) as [a r1].
    assert (H4 : forallb (forallb plain)
                   (c3 ++ ["(" :: str_of_int a ++ "+" :: str_of_int (n - a)
                                 ++ [")"]]) = true).
    { apply forallb_snoc; [exact H3|].
      apply plain_cons; [reflexivity|].
      apply plain_app; [apply str_of_int_plain|].
      apply plain_cons; [reflexivity|].
      apply plain_app; [apply str_of_int_plain | reflexivity]. }
    cbn [fst]. destruct ((n >? 0) && (Z.land n (n - 1) =? 0))%Z; [|exact H4].
    apply forallb_snoc; [exact H4 | exact Hshift].
  - cbn [fst]. destruct ((n >? 0) && (Z.land n (n - 1) =? 0))%Z; [|exact H3].
    apply forallb_snoc; [exact H3 | exact Hshift].
Qed.

Lemma choices_nonempty (n : Z) (r : rng) : fst (choices n r) <> [].
Proof.
  unfold choices.
  destruct (n >=? 0)%Z, ((0 <? n) && (n <? 256))%Z, (n >? 1)%Z;
    try destruct (randint 1 (n - 1) r);
    destruct ((n >? 0) && (Z.land n (n - 1) =? 0))%Z; discriminate.
Qed.

Lemma replace_plain (lexeme : str) (r : rng) (e : str) :
  fst (replace lexeme r) = Ok e -> forallb plain e = true.
Proof.
  unfold replace.
  destruct (int_of_digits lexeme) as [n| |]; try discriminate.
  pose proof (choices_plain n r) as Hp.
  pose proof (choices_nonempty n r) as Hn.
  destruct (choices n r) as [cs r1]. cbn [fst] in *.
  pose proof (choice_In [] cs r1 Hn) as Hin.
  destruct (choice [] cs r1) as [e' r2]. cbn [fst] in *.
  intros [= <-]. rewrite forallb_forall in Hp. now apply Hp.
Qed.

(** ** The numeric obfuscator keeps lines isolated *)

Lemma span_mono (p q : ascii -> bool) :
  (forall c, p c = true -> q c = true) ->
  forall s, span p s <= span q s.
Proof.
  intros Hpq. induction s as [|c s IH]; simpl; [lia|].
  destruct (p c) eqn:E; [|lia]. rewrite (Hpq c E). lia.
Qed.

(** A number match is a non-empty run of digits. *)
Lemma NUMBER_RE_sound (prev : option ascii) (s : str) (n : nat) (g : unit) :
  NUMBER_RE prev s = Some (n, g) ->
  has_char "#" (firstn n s) = false
  /\ exists m c, firstn n s = m ++ [c] /\ is_word c = true.
Proof.
  unfold NUMBER_RE.
  destruct (word_boundary_before prev && (0 <? span is_digit s)
            && negb _) eqn:E; [|discriminate].
  intros [= <- _].
  apply andb_true_iff in E. destruct E as [E _].
  apply andb_true_iff in E. destruct E as [_ E]. apply Nat.ltb_lt in E.
  split.
  - apply (class_no_char is_digit); [reflexivity | apply span_firstn].
  - apply words_end; [exact E|]. apply span_mono, digit_word.
Qed.

Lemma sub_replace_improves : forall (ps : list (piece unit)) (r : rng)
    (out : str),
  (forall lexeme g, In (Match lexeme g) ps ->
     has_char "#" lexeme = false
     /\ exists m c, lexeme = m ++ [c] /\ is_word c = true) ->
  fst (sub_replace ps r) = Ok out ->
  improves (concat (map piece_text ps)) out.
Proof.
  induction ps as [|[c|lexeme g] ps IH]; intros r out H; cbn [sub_replace].
  - intros [= <-]. apply improves_refl.
  - specialize (IH r).
    destruct (sub_replace ps r) as [[o| |] r']; cbn [fst result_map] in *;
      try discriminate.
    intros [= <-]. apply (improves_app [c] [c]); [apply improves_refl|].
    apply IH; [|reflexivity]. intros l g Hin. apply (H l g). now right.
  - pose proof (replace_plain lexeme r) as Hp.
    destruct (replace lexeme r) as [[e| |] r1]; cbn [fst] in *;
      try discriminate.
    specialize (Hp e eq_refl). specialize (IH r1).
    destruct (sub_replace ps r1) as [[o| |] r2]; cbn [fst result_map] in *;
      try discriminate.
    intros [= <-]. cbn [map concat piece_text]. apply improves_app.
    + destruct (H lexeme g (or_introl eq_refl)) as (Hh & m & c & -> & Hc).
      apply replacement_improves; try assumption.
      * now apply word_not_nl.
      * now apply plain_no_hash.
      * now apply plain_no_nl.
    + apply IH; [|reflexivity]. intros l g' Hin. apply (H l g'). now right.
Qed.

Lemma sub_numbers_improves (part : str) (r : rng) (out : str) :
  fst (sub_numbers part r) = Ok out -> improves part out.
Proof.
  unfold sub_numbers. intros Hout.
  rewrite <- (scan_text NUMBER_RE part None 0) at 1.
  apply (sub_replace_improves _ r); [|exact Hout]. intros lexeme g.
  apply (scan_matches_sound NUMBER_RE
           (fun lexeme _ =>
              has_char "#" lexeme = false
              /\ exists m c, lexeme = m ++ [c] /\ is_word c = true)).
  intros prev s n g'. apply NUMBER_RE_sound.
Qed.

Lemma map_even_rng_improves : forall (parts : list str) (r : rng)
    (out : list str),
  fst (map_even_rng parts r) = Ok out ->
  improves (concat parts) (concat out).
Proof.
  fix IH 1. intros [|p [|q parts]] r out; cbn [map_even_rng].
  - intros [= <-]. apply improves_refl.
  - pose proof (sub_numbers_improves p r) as Hp.
    destruct (sub_numbers p r) as [[p'| |] r']; cbn [fst result_map] in *;
      try discriminate.
    intros [= <-]. simpl. apply improves_app; [now apply Hp|].
    apply improves_refl.
  - pose proof (sub_numbers_improves p r) as Hp.
    destruct (sub_numbers p r) as [[p'| |] r1]; cbn [fst] in *;
      try discriminate.
    specialize (IH parts r1).
    destruct (map_even_rng parts r1) as [[o| |] r2];
      cbn [fst result_map] in *; try discriminate.
    intros [= <-]. cbn [concat]. apply improves_app; [now apply Hp|].
    apply improves_app; [apply improves_refl | now apply IH].
Qed.

Lemma obfuscate_numbers_isolated (code : str) (lv : level) (r : rng)
    (out : str) :
  fst (obfuscate_numbers code lv r) = Ok out ->
  lines_isolated code = true -> lines_isolated out = true.
Proof.
  unfold obfuscate_numbers. destruct lv; try (now intros [= <-]).
  pose proof (map_even_rng_improves (split_strings code) r) as Hi.
  destruct (map_even_rng (split_strings code) r) as [[parts| |] r'];
    cbn [fst result_map] in *; try discriminate.
  intros [= <-] H. apply (improves_isolated code); [|exact H].
  specialize (Hi parts eq_refl). now rewrite split_strings_concat in Hi.
Qed.

(** ** The line flattener *)

Lemma In_skipn {A : Type} (n : nat) (l : list A) (x : A) :
  In x (skipn n l) -> In x l.
Proof.
  intros H. rewrite <- (firstn_skipn n l). apply in_or_app. now right.
Qed.

Lemma In_strip (c : ascii) (s : str) : In c (strip s) -> In c s.
Proof.
  unfold strip, rstrip, lstrip. intros H.
  apply in_rev, In_skipn, in_rev, In_skipn in H. exact H.
Qed.

Lemma strip_no_char (c : ascii) (s : str) :
  has_char c s = false -> has_char c (strip s) = false.
Proof.
  intros H. destruct (has_char c (strip s)) eqn:E; [|reflexivity].
  apply has_char_In, In_strip, has_char_In in E. congruence.
Qed.

Lemma span_app_stop (p : ascii -> bool) (x : ascii) (b : str) : forall a,
  p x = false -> span p (a ++ x :: b) <= length a.
Proof.
  intros a Hx. induction a as [|c a IH]; simpl.
  - now rewrite Hx.
  - destruct (p c); lia.
Qed.

(** Stripping a line that starts with the directive marker keeps the
    marker in front. *)
Lemma strip_hash_start (s : str) :
  startswith ["#"] s = true -> startswith ["#"] (strip s) = true.
Proof.
  destruct s as [|c s]; [discriminate|]. cbn [startswith].
  rewrite andb_true_r. intros E. apply Ascii.eqb_eq in E. subst c.
  unfold strip, rstrip. change (lstrip ("#" :: s)) with ("#" :: s).
  unfold lstrip. cbn [rev].
  pose proof (span_app_stop is_space "#" [] (rev s) eq_refl) as Hk.
  rewrite skipn_app.
  replace (span is_space (rev s ++ ["#"]) - length (rev s)) with 0 by lia.
  cbn [skipn]. rewrite rev_app_distr. reflexivity.
Qed.

Lemma no_hash_tidy (l : str) :
  has_char "#" l = false -> has_char nl l = false -> tidy_line l = true.
Proof.
  intros Hh Hn. unfold tidy_line, line_isolated. rewrite Hh, Hn.
  cbn [negb]. now rewrite orb_true_r.
Qed.

(** What the loop of the flattener keeps: the lines put out are isolated
    and hold no newline, the buffer holds no directive marker and no
    newline. *)
Lemma flatten_step_invariant (st : list str * str) (line : str) :
  flatten_invariant st -> tidy_line line = true ->
  flatten_invariant (flatten_step st line).
Proof.
  destruct st as [result buffer]. intros (Hres & Hbh & Hbn) Hline.
  unfold flatten_invariant, flatten_step in *. cbn [fst snd] in *.
  apply andb_true_iff in Hline. destruct Hline as [Hiso Hnl].
  apply negb_true_iff in Hnl.
  destruct (nonempty (strip line)) eqn:Ene; cbn [negb fst snd]; [|tauto].
  destruct (startswith ["#"] (strip line)) eqn:Ehash; cbn [fst snd].
  - split; [|split; reflexivity].
    assert (Hstripped : tidy_line (strip line) = true).
    { unfold tidy_line, line_isolated.
      rewrite Ehash, (strip_no_char nl line Hnl). cbn [negb].
      now rewrite orb_true_r. }
    apply forallb_snoc; [|exact Hstripped].
    destruct (nonempty buffer); [|exact Hres].
    apply forallb_snoc; [exact Hres|].
    apply no_hash_tidy; now apply strip_no_char.
  - split; [exact Hres|].
    assert (Hh : has_char "#" line = false).
    { unfold line_isolated in Hiso.
      destruct (startswith ["#"] line) eqn:Es.
      - apply strip_hash_start in Es. congruence.
      - destruct line as [|c line]; [discriminate|].
        cbn [nonempty negb orb] in Hiso. now apply negb_true_iff in Hiso. }
    rewrite !has_char_app, Hbh, Hbn. cbn [has_char existsb orb].
    change (existsb (Ascii.eqb "#") (strip line)) with (has_char "#" (strip line)).
    change (existsb (Ascii.eqb nl) (strip line)) with (has_char nl (strip line)).
    rewrite (strip_no_char "#" line Hh), (strip_no_char nl line Hnl).
    split; reflexivity.
Qed.

Lemma flatten_loop_invariant : forall (lines : list str) (st : list str * str),
  forallb tidy_line lines = true ->
  flatten_invariant st ->
  flatten_invariant (fold_left flatten_step lines st).
Proof.
  induction lines as [|l lines IH]; intros st Hl Hst; [exact Hst|].
  cbn [forallb] in Hl. apply andb_true_iff in Hl. destruct Hl as [Hl Hls].
  cbn [fold_left]. apply IH; [exact Hls|].
  now apply flatten_step_invariant.
Qed.

Lemma forallb_and {A : Type} (p q : A -> bool) (l : list A) :
  forallb (fun x => p x && q x) l = forallb p l && forallb q l.
Proof.
  induction l as [|x l IH]; simpl; [reflexivity|]. rewrite IH.
  destruct (p x), (q x), (forallb p l); reflexivity.
Qed.

Lemma flatten_flush_isolated (st : list str * str) :
  flatten_invariant st ->
  lines_isolated
    (let (result, buffer) := st in
     join_lines (if nonempty buffer then result ++ [strip buffer] else result))
  = true.
Proof.
  destruct st as [result buffer]. intros (Hres & Hbh & Hbn).
  cbn [fst snd] in *.
  assert (Hall : forallb tidy_line
                   (if nonempty buffer then result ++ [strip buffer]
                    else result) = true).
  { destruct (nonempty buffer); [|exact Hres].
    apply forallb_snoc; [exact Hres|].
    apply no_hash_tidy; now apply strip_no_char. }
  unfold tidy_line in Hall. rewrite forallb_and in Hall.
  apply andb_true_iff in Hall. destruct Hall as [Hiso Hnl].
  now apply join_lines_isolated.
Qed.

(** The line flattener keeps lines isolated. *)
Lemma flatten_code_isolated (code : str) (lv : level) :
  lines_isolated code = true -> lines_isolated (flatten_code code lv) = true.
Proof.
  intros H. unfold flatten_code. destruct lv; try exact H.
  apply flatten_flush_isolated, flatten_loop_invariant.
  - unfold tidy_line. rewrite forallb_and. unfold lines_isolated in H.
    now rewrite H, split_lines_no_nl.
  - repeat split.
Qed.

(** ** What the alternatives of the tokenizer match *)

Lemma span_nth (p : ascii -> bool) : forall s i c,
  i < span p s -> nth_error s i = Some c -> p c = true.
Proof.
  induction s as [|x s IH]; intros i c; simpl; [lia|].
  destruct (p x) eqn:E; [|lia].
  destruct i as [|i]; simpl; [now intros _ [= <-]|].
  intros Hi. apply IH. lia.
Qed.

Lemma span_cons (p : ascii -> bool) (c : ascii) (s : str) :
  p c = true -> span p (c :: s) = S (span p s).
Proof. intros H. simpl. now rewrite H. Qed.

Lemma span_skipn (p : ascii -> bool) : forall a s,
  a <= span p s -> span p s = a + span p (skipn a s).
Proof.
  induction a as [|a IH]; intros s H; [reflexivity|].
  destruct s as [|c s]; simpl in *; [lia|].
  destruct (p c); [|lia]. rewrite (IH s); lia.
Qed.

Lemma digit_plain (c : ascii) : is_digit c = true -> plain c = true.
Proof. intros H. now apply word_plain, digit_word. Qed.

Lemma hex_plain_char (c : ascii) : is_hex c = true -> plain c = true.
Proof.
  intros H. unfold plain, not_hash, not_nl.
  destruct (Ascii.eqb c "#") eqn:E1;
    [apply Ascii.eqb_eq in E1; subst; discriminate|].
  destruct (Ascii.eqb c nl) eqn:E2;
    [apply Ascii.eqb_eq in E2; subst; discriminate|].
  reflexivity.
Qed.

Lemma oct_plain_char (c : ascii) : is_oct c = true -> plain c = true.
Proof.
  intros H. unfold plain, not_hash, not_nl.
  destruct (Ascii.eqb c "#") eqn:E1;
    [apply Ascii.eqb_eq in E1; subst; discriminate|].
  destruct (Ascii.eqb c nl) eqn:E2;
    [apply Ascii.eqb_eq in E2; subst; discriminate|].
  reflexivity.
Qed.

Lemma match_hex_plain (s : str) : within_plain s (match_hex s).
Proof.
  unfold match_hex. destruct s as [|z [|x r]]; try exact I.
  destruct (Ascii.eqb z "0" && (Ascii.eqb x "x" || Ascii.eqb x "X")
            && (0 <? span is_hex r)) eqn:E; [|exact I].
  apply andb_true_iff in E. destruct E as [E _].
  apply andb_true_iff in E. destruct E as [Ez Ex].
  apply Ascii.eqb_eq in Ez. subst z.
  assert (Hx : plain x = true).
  { apply orb_true_iff in Ex.
    destruct Ex as [Ex|Ex]; apply Ascii.eqb_eq in Ex; subst; reflexivity. }
  unfold within_plain. rewrite span_cons, span_cons by (reflexivity || exact Hx).
  pose proof (span_mono is_hex plain hex_plain_char r). lia.
Qed.

Lemma match_octal_plain (s : str) : within_plain s (match_octal s).
Proof.
  unfold match_octal. destruct s as [|z r]; try exact I.
  destruct (Ascii.eqb z "0" && (0 <? span is_oct r)) eqn:E; [|exact I].
  apply andb_true_iff in E. destruct E as [Ez _].
  apply Ascii.eqb_eq in Ez. subst z.
  unfold within_plain. rewrite span_cons by reflexivity.
  pose proof (span_mono is_oct plain oct_plain_char r). lia.
Qed.

Lemma match_fraction_plain (s : str) : match_fraction s <= span plain s.
Proof.
  unfold match_fraction. destruct s as [|c r]; [simpl; lia|].
  destruct (Ascii.eqb c ".") eqn:E; [|lia].
  apply Ascii.eqb_eq in E. subst c. rewrite span_cons by reflexivity.
  pose proof (span_mono is_digit plain digit_plain r). lia.
Qed.

Lemma match_exponent_plain (s : str) : match_exponent s <= span plain s.
Proof.
  unfold match_exponent. destruct s as [|e r]; [simpl; lia|].
  destruct (Ascii.eqb e "e" || Ascii.eqb e "E") eqn:E; [|lia].
  assert (He : plain e = true).
  { apply orb_true_iff in E.
    destruct E as [E|E]; apply Ascii.eqb_eq in E; subst; reflexivity. }
  rewrite span_cons by exact He.
  set (sign := match r with
               | c :: _ => if Ascii.eqb c "+" || Ascii.eqb c "-" then 1 else 0
               | [] => 0
               end).
  destruct (0 <? span is_digit (skipn sign r)); [|lia].
  assert (Hsign : sign <= span plain r).
  { unfold sign. destruct r as [|c r]; [simpl; lia|].
    destruct (Ascii.eqb c "+" || Ascii.eqb c "-") eqn:Ec; [|lia].
    rewrite span_cons; [lia|]. apply orb_true_iff in Ec.
    destruct Ec as [Ec|Ec]; apply Ascii.eqb_eq in Ec; subst; reflexivity. }
  rewrite (span_skipn plain sign r Hsign).
  pose proof (span_mono is_digit plain digit_plain (skipn sign r)). lia.
Qed.

Lemma match_decimal_plain (s : str) : within_plain s (match_decimal s).
Proof.
  unfold match_decimal. set (d := span is_digit s).
  destruct (0 <? d); [|exact I]. unfold within_plain.
  assert (Hd : d <= span plain s) by apply span_mono, digit_plain.
  pose proof (match_fraction_plain (skipn d s)) as Hf.
  set (f := match_fraction (skipn d s)) in *.
  assert (Hdf : d + f <= span plain s)
    by (rewrite (span_skipn plain d s Hd); lia).
  pose proof (match_exponent_plain (skipn (d + f) s)) as He.
  rewrite (span_skipn plain (d + f) s Hdf). lia.
Qed.

Lemma match_number_plain (s : str) : within_plain s (match_number s).
Proof.
  unfold match_number, orelse.
  pose proof (match_hex_plain s). pose proof (match_octal_plain s).
  pose proof (match_decimal_plain s).
  destruct (match_hex s); [assumption|]. now destruct (match_octal s).
Qed.

Lemma ident_start_plain (c : ascii) : is_ident_start c = true -> plain c = true.
Proof. intros H. apply word_plain. unfold is_word. now rewrite H. Qed.

Lemma match_ident_plain (s : str) : within_plain s (match_ident s).
Proof.
  unfold match_ident. destruct s as [|c s]; [exact I|].
  destruct (is_ident_start c) eqn:E; [|exact I].
  unfold within_plain. rewrite span_cons by now apply ident_start_plain.
  pose proof (span_mono is_word plain word_plain s). lia.
Qed.

Lemma startswith_span (p : ascii -> bool) : forall pre s,
  startswith pre s = true -> forallb p pre = true -> length pre <= span p s.
Proof.
  induction pre as [|a pre IH]; intros [|b s]; simpl; try lia; try discriminate.
  intros H Hp. apply andb_true_iff in H. destruct H as [Hab H].
  apply andb_true_iff in Hp. destruct Hp as [Ha Hp].
  apply Ascii.eqb_eq in Hab. subst b. rewrite Ha.
  specialize (IH s H Hp). lia.
Qed.

Lemma op_char_plain (c : ascii) : is_op_char c = true -> plain c = true.
Proof.
  intros H. unfold plain, not_hash, not_nl.
  destruct (Ascii.eqb c "#") eqn:E1;
    [apply Ascii.eqb_eq in E1; subst; discriminate|].
  destruct (Ascii.eqb c nl) eqn:E2;
    [apply Ascii.eqb_eq in E2; subst; discriminate|].
  reflexivity.
Qed.

Lemma match_op_plain (s : str) : within_plain s (match_op s).
Proof.
  unfold match_op.
  repeat match goal with
         | |- context [if startswith ?pre s then _ else _] =>
             destruct (startswith pre s) eqn:?E;
               [apply (startswith_span plain) in E; [exact E | reflexivity]|];
               clear E
         end.
  destruct s as [|c s]; [exact I|].
  destruct (is_op_char c) eqn:Ec; [|exact I].
  unfold within_plain. rewrite span_cons by now apply op_char_plain.
  destruct (startswith ["="] s) eqn:E; [|lia].
  apply (startswith_span plain) in E; [simpl in E; lia | reflexivity].
Qed.

Lemma match_punct_plain (s : str) : within_plain s (match_punct s).
Proof.
  unfold match_punct. destruct s as [|c s]; [exact I|].
  destruct (has_char c (txt "{}()[];,.")) eqn:E; [|exact I].
  unfold within_plain. rewrite span_cons; [lia|].
  unfold plain, not_hash, not_nl.
  destruct (Ascii.eqb c "#") eqn:E1;
    [apply Ascii.eqb_eq in E1; subst; discriminate|].
  destruct (Ascii.eqb c nl) eqn:E2;
    [apply Ascii.eqb_eq in E2; subst; discriminate|].
  reflexivity.
Qed.

(** Within the plain prefix there is no directive marker and no
    newline. *)
Lemma within_plain_firstn (s : str) (n : nat) :
  n <= span plain s -> forallb plain (firstn n s) = true.
Proof.
  intros H. replace n with (Nat.min n (span plain s)) by lia.
  rewrite <- firstn_firstn. apply forallb_firstn, span_firstn.
Qed.

Lemma within_plain_nth (s : str) (n i : nat) (c : ascii) :
  n <= span plain s -> i < n -> nth_error s i = Some c ->
  Ascii.eqb c nl = false.
Proof.
  intros Hn Hi Hc.
  assert (H : plain c = true) by (apply (span_nth plain s i); [lia | exact Hc]).
  unfold plain, not_nl in H. apply andb_true_iff in H.
  destruct H as [_ H]. now apply negb_true_iff in H.
Qed.

(** The last character of a block comment's tail is the slash, of a
    quoted literal the quote. *)
Lemma to_comment_end_last : forall s n,
  to_comment_end s = Some n ->
  exists k, n = S k /\ nth_error s k = Some "/"%char.
Proof.
  induction s as [|c s IH]; intros n; cbn [to_comment_end]; [discriminate|].
  destruct (Ascii.eqb c "*" && startswith ["/"] s) eqn:E.
  - intros [= <-]. exists 1. split; [reflexivity|].
    apply andb_true_iff in E. destruct E as [_ E].
    destruct s as [|d s]; [discriminate|]. cbn [startswith] in E.
    rewrite andb_true_r in E. apply Ascii.eqb_eq in E. now subst.
  - destruct (to_comment_end s) as [m|]; [|discriminate].
    cbn [option_map]. intros [= <-].
    destruct (IH m eq_refl) as (k & -> & Hk).
    now exists (S k).
Qed.

Lemma quoted_body_last (q : ascii) : forall s n,
  quoted_body q s = Some n -> exists k, n = S k /\ nth_error s k = Some q.
Proof.
  fix IH 1. intros [|c s] n; cbn [quoted_body]; [discriminate|].
  destruct (Ascii.eqb c q) eqn:Eq.
  - intros [= <-]. exists 0. apply Ascii.eqb_eq in Eq. now subst.
  - destruct (Ascii.eqb c "\").
    + destruct s as [|d s]; [discriminate|].
      destruct (quoted_body q s) as [m|] eqn:Em; [|discriminate].
      cbn [option_map]. intros [= <-].
      destruct (IH s m Em) as (k & -> & Hk).
      now exists (S (S k)).
    + destruct (quoted_body q s) as [m|] eqn:Em; [|discriminate].
      cbn [option_map]. intros [= <-].
      destruct (IH s m Em) as (k & -> & Hk).
      now exists (S k).
Qed.

Lemma within_plain_ends (s : str) (r : option nat) :
  within_plain s r -> ends_within_line s r.
Proof.
  destruct r as [n|]; [|auto]. simpl. intros H k -> Hk.
  pose proof (within_plain_nth s (S k) k nl H (Nat.lt_succ_diag_r k) Hk) as E.
  discriminate E.
Qed.

Lemma match_comment_ends (s : str) : ends_within_line s (match_comment s).
Proof.
  unfold match_comment. destruct s as [|a [|b r]]; try exact I.
  destruct (Ascii.eqb a "/" && Ascii.eqb b "*") eqn:E1.
  - destruct (to_comment_end r) as [n|] eqn:En; [|exact I].
    destruct (to_comment_end_last r n En) as (k & -> & Hk).
    cbn [option_map ends_within_line]. intros k' Hk'.
    assert (k' = S (S k)) by lia. subst k'. cbn [nth_error].
    rewrite Hk. discriminate.
  - destruct (Ascii.eqb a "/" && Ascii.eqb b "/") eqn:E2; [|exact I].
    apply andb_true_iff in E2. destruct E2 as [Ea Eb].
    apply Ascii.eqb_eq in Ea, Eb. subst a b.
    cbn [ends_within_line]. intros k Hk'.
    assert (k = S (span not_nl r)) by lia. subst k. cbn [nth_error].
    destruct (span not_nl r) as [|m] eqn:Em; [discriminate|].
    intros Hk.
    assert (H : not_nl nl = true)
      by (apply (span_nth not_nl r m); [lia | exact Hk]).
    discriminate.
Qed.

Lemma match_quoted_ends (q : ascii) (s : str) :
  Ascii.eqb q nl = false -> ends_within_line s (match_quoted q s).
Proof.
  intros Hq. unfold match_quoted. destruct s as [|c s]; [exact I|].
  destruct (Ascii.eqb c q); [|exact I].
  destruct (quoted_body q s) as [n|] eqn:En; [|exact I].
  destruct (quoted_body_last q s n En) as (k & -> & Hk).
  cbn [option_map ends_within_line]. intros k' [= <-]. cbn [nth_error].
  rewrite Hk. intros [= ->]. rewrite Ascii.eqb_refl in Hq. discriminate.
Qed.

(** A directive match stands at the start of a line, starts with the
    marker and stays within the line. *)
Lemma match_preproc_shape (prev : option ascii) (s : str) (n : nat) :
  match_preproc prev s = Some n ->
  at_line_start prev = true
  /\ startswith ["#"] (firstn n s) = true
  /\ has_char nl (firstn n s) = false.
Proof.
  unfold match_preproc. destruct s as [|c s]; [discriminate|].
  destruct (at_line_start prev && Ascii.eqb c "#") eqn:E; [|discriminate].
  apply andb_true_iff in E. destruct E as [Hstart Ec].
  apply Ascii.eqb_eq in Ec. subst c. intros [= <-].
  split; [exact Hstart|]. split; [reflexivity|].
  cbn [firstn has_char existsb]. cbn [orb].
  change (existsb (Ascii.eqb nl) ?l) with (has_char nl l).
  apply (class_no_char not_nl); [reflexivity | apply span_firstn].
Qed.

Lemma match_preproc_ends (prev : option ascii) (s : str) :
  ends_within_line s (match_preproc prev s).
Proof.
  destruct (match_preproc prev s) as [n|] eqn:E; [|exact I].
  destruct (match_preproc_shape prev s n E) as (_ & _ & Hnl).
  simpl. intros k -> Hk.
  assert (Hin : In nl (firstn (S k) s)).
  { clear -Hk. revert s Hk. induction k as [|k IH]; intros [|c s];
      simpl; try discriminate.
    - intros [= ->]. now left.
    - intros H. right. apply (IH s H). }
  apply has_char_In in Hin. congruence.
Qed.

(** The alternation returns the match of the alternative whose kind it
    reports. *)
Lemma TOKEN_REGEX_inv (prev : option ascii) (s : str) (n : nat) (k : kind) :
  TOKEN_REGEX prev s = Some (n, k) ->
  match k with
  | Kcomment => match_comment s
  | Kstring => match_string s
  | Kcharlit => match_charlit s
  | Kpreproc => match_preproc prev s
  | Knumber => match_number s
  | Kident => match_ident s
  | Kop => match_op s
  | Kpunct => match_punct s
  | Kws => match_ws s
  end = Some n.
Proof.
  unfold TOKEN_REGEX, orelse, tagged.
  destruct (match_comment s); [now intros [= <- <-]|].
  destruct (match_string s); [now intros [= <- <-]|].
  destruct (match_charlit s); [now intros [= <- <-]|].
  destruct (match_preproc prev s); [now intros [= <- <-]|].
  destruct (match_number s); [now intros [= <- <-]|].
  destruct (match_ident s); [now intros [= <- <-]|].
  destruct (match_op s); [now intros [= <- <-]|].
  destruct (match_punct s); [now intros [= <- <-]|].
  destruct (match_ws s); [now intros [= <- <-] | discriminate].
Qed.

(** A token that ends in a newline is whitespace. *)
Lemma TOKEN_REGEX_ends (prev : option ascii) (s : str) (n : nat) (k : kind) :
  TOKEN_REGEX prev s = Some (S n, k) ->
  nth_error s n = Some nl -> k = Kws.
Proof.
  intros H Hnl. apply TOKEN_REGEX_inv in H.
  assert (Hends : forall r, ends_within_line s r -> r = Some (S n) -> False).
  { intros r Hr ->. exact (Hr n eq_refl Hnl). }
  destruct k; try reflexivity; exfalso; revert H; apply Hends.
  - apply match_comment_ends.
  - apply match_quoted_ends. reflexivity.
  - apply match_quoted_ends. reflexivity.
  - apply match_preproc_ends.
  - apply within_plain_ends, match_number_plain.
  - apply within_plain_ends, match_ident_plain.
  - apply within_plain_ends, match_op_plain.
  - apply within_plain_ends, match_punct_plain.
Qed.

(** A newline is always matched. *)
Lemma TOKEN_REGEX_newline (prev : option ascii) (s : str) :
  exists n k, TOKEN_REGEX prev (nl :: s) = Some (S n, k).
Proof.
  assert (H1 : match_comment (nl :: s) = None) by (destruct s; reflexivity).
  assert (H2 : match_string (nl :: s) = None) by reflexivity.
  assert (H3 : match_charlit (nl :: s) = None) by reflexivity.
  assert (H4 : match_preproc prev (nl :: s) = None)
    by (unfold match_preproc; now rewrite andb_false_r).
  assert (H5 : match_number (nl :: s) = None) by (destruct s; reflexivity).
  assert (H6 : match_ident (nl :: s) = None) by reflexivity.
  assert (H7 : match_op (nl :: s) = None) by (destruct s; reflexivity).
  assert (H8 : match_punct (nl :: s) = None) by reflexivity.
  assert (H9 : match_ws (nl :: s) = Some (S (span is_space s)))
    by (unfold match_ws; now rewrite span_cons).
  unfold TOKEN_REGEX. rewrite H1, H2, H3, H4, H5, H6, H7, H8, H9.
  cbn [tagged option_map orelse]. eauto.
Qed.

(** The shape of a token by its kind. *)
Lemma TOKEN_REGEX_shape (prev : option ascii) (s : str) (n : nat) (k : kind) :
  TOKEN_REGEX prev s = Some (n, k) ->
  k <> Kcomment -> k <> Kstring -> k <> Kcharlit ->
  token_shape (k, firstn n s) = true.
Proof.
  intros H Hc Hs Hl. apply TOKEN_REGEX_inv in H. unfold token_shape.
  assert (Hplain : forall r, within_plain s r -> r = Some n ->
                             negb (has_char "#" (firstn n s)) = true).
  { intros r Hr ->. apply negb_true_iff, plain_no_hash.
    now apply within_plain_firstn. }
  destruct k; try congruence; cbn [fst snd kind_eqb].
  - destruct (match_preproc_shape prev s n H) as (_ & -> & ->). reflexivity.
  - exact (Hplain _ (match_number_plain s) H).
  - exact (Hplain _ (match_ident_plain s) H).
  - exact (Hplain _ (match_op_plain s) H).
  - exact (Hplain _ (match_punct_plain s) H).
  - unfold match_ws in H. destruct (0 <? span is_space s); [|discriminate].
    injection H as <-. apply negb_true_iff.
    apply (class_no_char is_space); [reflexivity | apply span_firstn].
Qed.

(** ** Directive tokens in the token stream *)

Lemma tokenize_as_tokens (code : str) :
  tokenize code = map as_token (matches (scan TOKEN_REGEX None 0 code)).
Proof. reflexivity. Qed.

(** In the token stream every directive token is first or right after a
    whitespace token. *)
Lemma scan_adjacent : forall s prev skip b,
  match skip with
  | O => at_line_start prev = true -> b = true
  | S k => nth_error s k = Some nl -> b = true
  end ->
  adjacent b (map as_token (matches (scan TOKEN_REGEX prev skip s))) = true.
Proof.
  induction s as [|c s IH]; intros prev skip b Hb; [reflexivity|].
  cbn [scan]. destruct skip as [|k].
  - destruct (TOKEN_REGEX prev (c :: s)) as [[[|n] kd]|] eqn:E.
    + cbn [matches]. apply IH. cbn [at_line_start]. intros Hc.
      apply Ascii.eqb_eq in Hc. subst c.
      destruct (TOKEN_REGEX_newline prev s) as (n & k & E').
      congruence.
    + cbn [matches map as_token fst snd adjacent]. apply andb_true_iff. split.
      * destruct (kind_eqb kd Kpreproc) eqn:Ek; [|reflexivity].
        apply kind_eqb_eq in Ek. subst kd. apply Hb.
        apply TOKEN_REGEX_inv in E.
        now destruct (match_preproc_shape _ _ _ E).
      * apply IH. destruct n as [|k].
        -- cbn [at_line_start]. intros Hc. apply Ascii.eqb_eq in Hc. subst c.
           apply kind_eqb_eq. now apply (TOKEN_REGEX_ends _ _ _ _ E).
        -- intros Hk. apply kind_eqb_eq.
           now apply (TOKEN_REGEX_ends _ _ _ _ E).
    + cbn [matches]. apply IH. cbn [at_line_start]. intros Hc.
      apply Ascii.eqb_eq in Hc. subst c.
      destruct (TOKEN_REGEX_newline prev s) as (n & k & E').
      congruence.
  - apply IH. destruct k as [|k]; [|exact Hb].
    cbn [at_line_start]. intros Hc. apply Ascii.eqb_eq in Hc. subst c.
    now apply Hb.
Qed.

Lemma tokenize_adjacent (code : str) : adjacent true (tokenize code) = true.
Proof. rewrite tokenize_as_tokens. now apply scan_adjacent. Qed.

Lemma tokenize_shape (code : str) (t : token) :
  In t (tokenize code) ->
  fst t <> Kcomment -> fst t <> Kstring -> fst t <> Kcharlit ->
  token_shape t = true.
Proof.
  rewrite tokenize_as_tokens. intros Hin.
  apply in_map_iff in Hin. destruct Hin as ([lexeme k] & <- & Hin).
  cbn [as_token fst snd].
  assert (Hm : In (Match lexeme k) (scan TOKEN_REGEX None 0 code)).
  { revert Hin. generalize (scan TOKEN_REGEX None 0 code).
    induction l as [|[c|lx g] l IHl]; simpl; [tauto|auto|].
    intros [[= -> ->]|H]; [now left | right; auto]. }
  revert Hm.
  apply (scan_matches_sound TOKEN_REGEX
           (fun lexeme k =>
              k <> Kcomment -> k <> Kstring -> k <> Kcharlit ->
              token_shape (k, lexeme) = true)).
  intros prev s n g. apply TOKEN_REGEX_shape.
Qed.

Lemma adjacent_weaken : forall ts b, adjacent false ts = true -> adjacent b ts = true.
Proof.
  intros [|[k v] ts] b; [reflexivity|]. cbn [adjacent].
  destruct (kind_eqb k Kpreproc); [discriminate|]. now destruct b.
Qed.

Lemma strip_comments_adjacent : forall ts b,
  adjacent b ts = true -> adjacent b (strip_comments ts) = true.
Proof.
  induction ts as [|[k v] ts IH]; intros b H; [reflexivity|].
  cbn [adjacent] in H. apply andb_true_iff in H. destruct H as [H1 H2].
  unfold strip_comments. cbn [filter fst].
  destruct (kind_eqb k Kcomment) eqn:Ek; cbn [negb].
  - apply kind_eqb_eq in Ek. subst k. cbn [kind_eqb] in H2.
    apply IH. now apply adjacent_weaken.
  - cbn [adjacent]. rewrite H1. now apply IH.
Qed.

Lemma apply_mapping_kind (mapping : list (str * str)) (t : token) :
  fst (apply_mapping mapping t) = fst t.
Proof.
  unfold apply_mapping. destruct (kind_eqb (fst t) Kident); [|reflexivity].
  now destruct (dict_get (snd t) mapping).
Qed.

Lemma rename_adjacent (mapping : list (str * str)) : forall ts b,
  adjacent b (map (apply_mapping mapping) ts) = adjacent b ts.
Proof.
  induction ts as [|t ts IH]; intros b; [reflexivity|].
  cbn [map]. pose proof (apply_mapping_kind mapping t) as Hk.
  destruct (apply_mapping mapping t) as [k' v'], t as [k v].
  cbn [fst] in Hk. subst k'. cbn [adjacent]. now rewrite IH.
Qed.

(** Renaming keeps the shapes when the generated names hold no directive
    marker. *)
Lemma rename_shape (mapping : list (str * str)) (ts : list token) :
  (forall orig name, In (orig, name) mapping -> has_char "#" name = false) ->
  forallb token_shape ts = true ->
  forallb token_shape (map (apply_mapping mapping) ts) = true.
Proof.
  intros Hnames. rewrite !forallb_forall. intros H t Hin.
  apply in_map_iff in Hin. destruct Hin as (t0 & <- & Hin0).
  specialize (H t0 Hin0). unfold apply_mapping.
  destruct (kind_eqb (fst t0) Kident) eqn:Ek; [|exact H].
  destruct (dict_get (snd t0) mapping) as [name|] eqn:Eg; [|exact H].
  apply kind_eqb_eq in Ek. unfold token_shape. cbn [fst snd]. rewrite Ek.
  cbn [kind_eqb]. apply dict_get_In in Eg. now rewrite (Hnames _ _ Eg).
Qed.

Lemma ends_line_no_nl (b : bool) (c : ascii) (v : str) :
  has_char nl (c :: v) = false -> ends_line b (c :: v) = false.
Proof.
  intros H. unfold ends_line.
  destruct (rev (c :: v)) as [|d l] eqn:E.
  - apply (f_equal (@length ascii)) in E. rewrite length_rev in E.
    discriminate.
  - destruct (Ascii.eqb d nl) eqn:Ed; [|reflexivity].
    apply Ascii.eqb_eq in Ed. subst d.
    assert (Hin : In nl (c :: v)) by (apply in_rev; rewrite E; now left).
    apply has_char_In in Hin. congruence.
Qed.

(** The tier 3 compressor puts every directive token at the start of a
    line. *)
Lemma compress_isolated : forall tokens prev bs bo,
  forallb token_shape tokens = true ->
  adjacent bs tokens = true ->
  (is_kind Kpreproc (option_map fst (hd_error tokens)) = true -> bo = true) ->
  tokens_isolated bo (compress_from extreme prev tokens) = true.
Proof.
  induction tokens as [|[k v] rest IH]; intros prev bs bo Hshape Hadj Hhd;
    [reflexivity|].
  cbn [forallb] in Hshape. apply andb_true_iff in Hshape.
  destruct Hshape as [Hkv Hshape].
  cbn [adjacent] in Hadj. apply andb_true_iff in Hadj.
  destruct Hadj as [_ Hadj].
  assert (Hnext : forall b, kind_eqb k Kws = false ->
            is_kind Kpreproc (option_map fst (hd_error rest)) = true ->
            b = true).
  { intros b Ek Hp. rewrite Ek in Hadj.
    destruct rest as [|[k' v'] rest']; [discriminate|].
    cbn [hd_error option_map fst is_kind] in Hp.
    cbn [adjacent] in Hadj. rewrite Hp in Hadj. discriminate. }
  cbn [compress_from]. destruct (kind_eqb k Kws) eqn:Ek; cbn [negb].
  - set (nxt := option_map fst (hd_error rest)) in *.
    destruct (is_kind Kpreproc nxt || is_kind Kpreproc prev) eqn:E1.
    + cbn [tokens_isolated]. apply (IH _ true); auto.
    + apply orb_false_iff in E1. destruct E1 as [E1 _].
      destruct (ident_or_number prev && ident_or_number nxt).
      * cbn [tokens_isolated]. apply (IH _ true); [assumption..|].
        fold nxt. congruence.
      * apply (IH _ true); [assumption..|]. fold nxt. congruence.
  - cbn [tokens_isolated]. rewrite Hkv. cbn [andb].
    apply andb_true_iff. split.
    + destruct (kind_eqb k Kpreproc) eqn:Ep; [|reflexivity].
      apply Hhd. cbn [hd_error option_map fst is_kind]. exact Ep.
    + apply (IH _ false); [assumption..|]. now apply Hnext.
Qed.

Lemma line_run_ends_line (b : bool) (v : str) (q : option line_state) :
  has_char "#" v = false -> 1 <= rank q ->
  (b = true -> q = Some AtStart) ->
  ends_line b v = true -> line_run q v = Some AtStart.
Proof.
  intros Hh Hq Hb. unfold ends_line.
  destruct v as [|c v] using rev_ind; [exact Hb|]. clear IHv.
  rewrite rev_app_distr. cbn [rev app]. intros Hc.
  apply Ascii.eqb_eq in Hc. subst c.
  rewrite has_char_app in Hh. apply orb_false_iff in Hh. destruct Hh as [Hv _].
  rewrite line_run_app.
  pose proof (line_run_no_hash v q Hv Hq) as Hr.
  destruct (line_run q v) as [q'|]; [reflexivity | simpl in Hr; lia].
Qed.

(** The text of tokens that are isolated has isolated lines. *)
Lemma tokens_isolated_run : forall C b q,
  tokens_isolated b C = true ->
  (b = true -> q = Some AtStart) -> 1 <= rank q ->
  1 <= rank (line_run q (detokenize C)).
Proof.
  induction C as [|[k v] C IH]; intros b q H Hb Hq; [exact Hq|].
  cbn [tokens_isolated] in H. apply andb_true_iff in H. destruct H as [H HC].
  apply andb_true_iff in H. destruct H as [Hshape Hstart].
  change (detokenize ((k, v) :: C)) with (v ++ detokenize C).
  rewrite line_run_app. unfold token_shape in Hshape. cbn [fst snd] in Hshape.
  destruct (kind_eqb k Kpreproc).
  - apply andb_true_iff in Hshape. destruct Hshape as [Hhash Hnl].
    apply negb_true_iff in Hnl. rewrite (Hb Hstart).
    destruct v as [|c v]; [discriminate|].
    cbn [startswith] in Hhash. rewrite andb_true_r in Hhash.
    apply Ascii.eqb_eq in Hhash. subst c.
    rewrite (ends_line_no_nl b _ _ Hnl) in HC.
    change (line_run (Some AtStart) ("#" :: v))
      with (line_run (Some InDirective) v).
    cbn [has_char existsb] in Hnl. apply orb_false_iff in Hnl.
    rewrite line_run_directive by apply Hnl.
    apply (IH false); [exact HC | discriminate | simpl; lia].
  - apply negb_true_iff in Hshape.
    apply (IH (ends_line b v)); [exact HC| |].
    + now apply line_run_ends_line.
    + now apply line_run_no_hash.
Qed.

Lemma name_pool_no_hash (lv : level) (y : str) :
  In y (name_pool lv) -> has_char "#" y = false.
Proof.
  intros H.
  assert (E : forallb (fun y => negb (has_char "#" y)) (name_pool lv) = true)
    by (destruct lv; vm_compute; reflexivity).
  rewrite forallb_forall in E. specialize (E y H).
  now apply negb_true_iff in E.
Qed.

Lemma strip_comments_shape (code : str) :
  literals_without_marker code ->
  forallb token_shape (strip_comments (tokenize code)) = true.
Proof.
  intros Hlit. apply forallb_forall. intros t Hin.
  unfold strip_comments in Hin. apply filter_In in Hin.
  destruct Hin as [Hin Hk]. apply negb_true_iff in Hk.
  assert (Hc : fst t <> Kcomment).
  { intros E. rewrite E in Hk. discriminate. }
  destruct (kind_eqb (fst t) Kstring) eqn:Es.
  - apply kind_eqb_eq in Es. unfold token_shape. rewrite Es. cbn [kind_eqb].
    apply negb_true_iff, Hlit; auto.
  - destruct (kind_eqb (fst t) Kcharlit) eqn:El.
    + apply kind_eqb_eq in El. unfold token_shape. rewrite El. cbn [kind_eqb].
      apply negb_true_iff, Hlit; auto.
    + apply (tokenize_shape code); try assumption.
      * intros E. rewrite E in Es. discriminate.
      * intros E. rewrite E in El. discriminate.
Qed.

(** The text the tier 3 passes hand to the text-level passes has
    isolated lines. *)
Lemma compressed_text_isolated (code : str) (mapping : list (str * str)) :
  literals_without_marker code ->
  (forall orig name, In (orig, name) mapping -> has_char "#" name = false) ->
  lines_isolated
    (detokenize
       (compress_whitespace
          (map (apply_mapping mapping) (strip_comments (tokenize code)))
          extreme)) = true.
Proof.
  intros Hlit Hnames. apply lines_isolated_run.
  rewrite compress_whitespace_from.
  assert (H : 1 <= rank (line_run (Some AtStart)
                (detokenize
                   (compress_from extreme None
                      (map (apply_mapping mapping)
                           (strip_comments (tokenize code))))))).
  { apply (tokens_isolated_run _ true); [|reflexivity | simpl; lia].
    apply (compress_isolated _ None true true).
    - apply rename_shape; [exact Hnames | now apply strip_comments_shape].
    - rewrite rename_adjacent.
      apply strip_comments_adjacent, tokenize_adjacent.
    - reflexivity. }
  intros E. rewrite E in H. simpl in H. lia.
Qed.

(** C10, as the code has it.  At tier 3, when no string literal and no
    character literal of the source holds the directive marker, the run
    raises the [ValueError] of [int] or returns an output in which every
    line is empty, starts with the marker, or holds no marker. *)
Theorem directive_lines_isolated (code : str) (r : rng) :
  literals_without_marker code ->
  (exists out mapping,
     obfuscate code extreme r = Ok (out, mapping)
     /\ lines_isolated out = true)
  \/ obfuscate code extreme r = ValueError.
Proof.
  intros Hlit.
  pose proof (rename_identifiers_result
                (strip_comments (tokenize code)) extreme r) as Hren.
  cbv zeta in Hren.
  set (sorted_idents :=
         sorted_desc (count_identifiers (strip_comments (tokenize code)))) in *.
  set (names := fst (generate_names (length sorted_idents) extreme r)) in *.
  set (mapping := combine (map fst sorted_idents) names) in *.
  assert (Hlen : (length sorted_idents <=? length names) = true).
  { apply Nat.leb_le. unfold names. now apply names_suffice. }
  rewrite Hlen in Hren.
  assert (Hnames : forall orig name,
             In (orig, name) mapping -> has_char "#" name = false).
  { intros orig name Hin. apply In_combine in Hin. destruct Hin as [_ Hin].
    apply (name_pool_no_hash extreme). now apply generate_names_In in Hin. }
  unfold obfuscate.
  destruct (rename_identifiers (strip_comments (tokenize code)) extreme r)
    as [res r1].
  cbn [fst] in Hren. subst res.
  match goal with
  | |- context [obfuscate_numbers ?c extreme r1] =>
      pose proof (obfuscate_numbers_isolated c extreme r1) as Hout;
      pose proof (obfuscate_numbers_cases c r1) as Hcases;
      destruct (obfuscate_numbers c extreme r1) as [[out| |] r2]
  end; cbn [fst result_map] in *.
  - left. exists out, mapping. split; [reflexivity|].
    apply (Hout out eq_refl).
    apply inject_macros_isolated, flatten_code_isolated.
    now apply compressed_text_isolated.
  - destruct Hcases.
  - now right.
Qed.

Lemma literals_without_marker_checked (code : str) :
  literals_without_marker_check code = true -> literals_without_marker code.
Proof.
  unfold literals_without_marker_check. rewrite forallb_forall.
  intros H t Hin Hk. specialize (H t Hin).
  assert (E : kind_eqb (fst t) Kstring || kind_eqb (fst t) Kcharlit = true).
  { apply orb_true_iff.
    destruct Hk as [Hk|Hk]; [left | right]; now apply kind_eqb_eq. }
  rewrite E in H. now apply negb_true_iff in H.
Qed.

Lemma directive_lines_isolated_witness :
  literals_without_marker sample_source
  /\ exists out mapping,
       obfuscate sample_source extreme rng0 = Ok (out, mapping)
       /\ lines_isolated out = true.
Proof.
  assert (H : literals_without_marker sample_source)
    by (apply literals_without_marker_checked; vm_compute; reflexivity).
  split; [exact H|].
  destruct (directive_lines_isolated sample_source rng0 H) as [Hok|Herr];
    [exact Hok | vm_compute in Herr; discriminate Herr].
Defined.

(** Whatever the random source: the input holds no identifier to rename
    and no number. *)
Lemma marker_inside_output_line_always (r : rng) :
  obfuscate marker_in_literal extreme r
  = Ok (join_lines (macros ++ [marker_in_literal]), []).
Proof. reflexivity. Qed.

(** C10, as stated, fails: a string literal that holds the directive
    marker puts it inside an output line that does not start with it. *)
Lemma marker_inside_output_line :
  obfuscate marker_in_literal extreme rng0
  = Ok (join_lines (macros ++ [marker_in_literal]), [])
  /\ lines_isolated (join_lines (macros ++ [marker_in_literal])) = false.
Proof. split; vm_compute; reflexivity. Qed.

(** ** Integer literals with a leading zero *)

Lemma replace_octal_literal (r : rng) :
  fst (obfuscate_numbers (txt "010") extreme r)
  = Ok (nth (r 1 mod 5) (candidates_of_ten (r 0 mod 9)) []).
Proof.
  transitivity (@Ok str
                  ((nth (r 1 mod 5) (candidates_of_ten (r 0 mod 9)) [] ++ [])
                     ++ [])); [reflexivity | now rewrite !app_nil_r].
Qed.

Lemma candidates_of_ten_value (a c : nat) :
  a < 9 -> c < 5 ->
  c_expr_value (nth c (candidates_of_ten a) []) = Some 10%Z.
Proof.
  intros Ha Hc.
  do 9 (destruct a as [|a]; [do 5 (destruct c as [|c]; [reflexivity|]); lia|]).
  lia.
Qed.

(** C8. The literal [010] is the octal constant 8 in C; the obfuscator
    reads it as the decimal 10, and whatever the random source draws, the
    expression it puts in its place has the value 10. *)
Theorem octal_literal_changes_value (r : rng) :
  matches (scan NUMBER_RE None 0 (txt "010")) = [(txt "010", tt)]
  /\ c_int_value (txt "010") = Some 8%Z
  /\ (exists e, fst (obfuscate_numbers (txt "010") extreme r) = Ok e
                /\ c_expr_value e = Some 10%Z)
  /\ fst (obfuscate_numbers (txt "x = 010;") extreme rng0)
     = Ok (txt "x = 10;").
Proof.
  split; [reflexivity|]. split; [reflexivity|]. split; [|reflexivity].
  eexists. split; [apply replace_octal_literal|].
  apply candidates_of_ten_value.
  - apply Nat.mod_upper_bound. discriminate.
  - apply Nat.mod_upper_bound. discriminate.
Qed.


(** * Further properties of the passes *)

(** ** The tokenizer: what it matches and what it skips *)

Section ScanGaps.
Context {G : Type} (m : matcher G) (P : ascii -> Prop).
Hypothesis unmatched_sound :
  forall prev c s,
    match m prev (c :: s) with
    | Some (S _, _) => True
    | _ => P c
    end.

(** What holds of every character at which the matcher has no match
    holds of every character the scan steps over. *)
Lemma scan_gaps_sound : forall s prev skip c,
  In c (gaps (scan m prev skip s)) -> P c.
Proof.
  induction s as [|x s IH]; intros prev skip c; simpl; [tauto|].
  destruct skip as [|k]; [|apply IH].
  pose proof (unmatched_sound prev x s) as Hx.
  destruct (m prev (x :: s)) as [[[|n] g]|]; simpl.
  - intros [<-|H]; [exact Hx | eapply IH, H].
  - apply IH.
  - intros [<-|H]; [exact Hx | eapply IH, H].
Qed.
End ScanGaps.

(** No alternative matches the empty text. *)
Lemma TOKEN_REGEX_positive (prev : option ascii) (s : str) (n : nat)
    (k : kind) :
  TOKEN_REGEX prev s = Some (n, k) -> 0 < n.
Proof.
  intros H. apply TOKEN_REGEX_inv in H. destruct k.
  - unfold match_comment in H. destruct s as [|a [|b r]]; try discriminate.
    destruct (Ascii.eqb a "/" && Ascii.eqb b "*").
    + destruct (to_comment_end r); [|discriminate].
      cbn [option_map] in H. injection H as <-. lia.
    + destruct (Ascii.eqb a "/" && Ascii.eqb b "/"); [|discriminate].
      injection H as <-. lia.
  - unfold match_string, match_quoted in H. destruct s as [|c s]; [discriminate|].
    destruct (Ascii.eqb c dquote); [|discriminate].
    destruct (quoted_body dquote s); [|discriminate].
    cbn [option_map] in H. injection H as <-. lia.
  - unfold match_charlit, match_quoted in H. destruct s as [|c s]; [discriminate|].
    destruct (Ascii.eqb c "'"); [|discriminate].
    destruct (quoted_body "'" s); [|discriminate].
    cbn [option_map] in H. injection H as <-. lia.
  - unfold match_preproc in H. destruct s as [|c s]; [discriminate|].
    destruct (at_line_start prev && Ascii.eqb c "#"); [|discriminate].
    injection H as <-. lia.
  - unfold match_number, orelse in H.
    destruct (match_hex s) as [h|] eqn:Eh.
    + injection H as <-. unfold match_hex in Eh.
      destruct s as [|z [|x r]]; try discriminate.
      destruct (_ && _ && _); [|discriminate]. injection Eh as <-. lia.
    + destruct (match_octal s) as [o|] eqn:Eo.
      * injection H as <-. unfold match_octal in Eo.
        destruct s as [|z r]; try discriminate.
        destruct (_ && _); [|discriminate]. injection Eo as <-. lia.
      * unfold match_decimal in H.
        destruct (0 <? span is_digit s) eqn:Ed; [|discriminate].
        apply Nat.ltb_lt in Ed. injection H as <-. lia.
  - unfold match_ident in H. destruct s as [|c s]; [discriminate|].
    destruct (is_ident_start c); [|discriminate]. injection H as <-. lia.
  - unfold match_op in H.
    repeat match type of H with
           | (if ?b then _ else _) = _ =>
               destruct b; [injection H as <-; lia|]
           end.
    destruct s as [|c s]; [discriminate|].
    destruct (is_op_char c); [|discriminate].
    destruct (startswith ["="] s); injection H as <-; lia.
  - unfold match_punct in H. destruct s as [|c s]; [discriminate|].
    destruct (has_char c (txt "{}()[];,.")); [|discriminate].
    injection H as <-. lia.
  - unfold match_ws in H. destruct (0 <? span is_space s) eqn:E; [|discriminate].
    apply Nat.ltb_lt in E. injection H as <-. exact E.
Qed.

(** Where no alternative matches, the character is no word character, no
    whitespace, no operator character and no punctuation. *)
Lemma TOKEN_REGEX_None (prev : option ascii) (c : ascii) (s : str) :
  TOKEN_REGEX prev (c :: s) = None ->
  is_word c = false /\ is_space c = false /\ is_op_char c = false
  /\ is_punct_char c = false.
Proof.
  unfold TOKEN_REGEX, orelse, tagged.
  destruct (match_comment (c :: s)); [discriminate|].
  destruct (match_string (c :: s)); [discriminate|].
  destruct (match_charlit (c :: s)); [discriminate|].
  destruct (match_preproc prev (c :: s)); [discriminate|].
  destruct (match_number (c :: s)) eqn:En; [discriminate|].
  destruct (match_ident (c :: s)) eqn:Ei; [discriminate|].
  destruct (match_op (c :: s)) eqn:Eo; [discriminate|].
  destruct (match_punct (c :: s)) eqn:Ep; [discriminate|].
  destruct (match_ws (c :: s)) eqn:Ew; [discriminate|]. intros _.
  assert (Hstart : is_ident_start c = false).
  { unfold match_ident in Ei. now destruct (is_ident_start c). }
  assert (Hdigit : is_digit c = false).
  { unfold match_number, orelse in En.
    destruct (match_hex (c :: s)); [discriminate|].
    destruct (match_octal (c :: s)); [discriminate|].
    unfold match_decimal in En. cbn [span] in En.
    now destruct (is_digit c). }
  repeat split.
  - unfold is_word. now rewrite Hstart, Hdigit.
  - unfold match_ws in Ew. cbn [span] in Ew. now destruct (is_space c).
  - unfold match_op in Eo.
    repeat match type of Eo with
           | (if ?b then _ else _) = _ => destruct b; [discriminate|]
           end.
    now destruct (is_op_char c).
  - unfold match_punct in Ep. unfold is_punct_char.
    now destruct (has_char c (txt "{}()[];,.")).
Qed.

(** X1. The tokenizer only ever skips characters that are neither word
    characters, nor whitespace, nor operator characters, nor punctuation:
    every letter, digit, underscore, blank, newline, operator and
    punctuation character of the source lands in some token. *)
Theorem unscanned_characters (code : str) (c : ascii) :
  In c (unscanned code) ->
  is_word c = false /\ is_space c = false /\ is_op_char c = false
  /\ is_punct_char c = false.
Proof.
  unfold unscanned.
  apply (scan_gaps_sound TOKEN_REGEX
           (fun c => is_word c = false /\ is_space c = false
                     /\ is_op_char c = false /\ is_punct_char c = false)).
  intros prev x s.
  destruct (TOKEN_REGEX prev (x :: s)) as [[[|n] k]|] eqn:E; [|exact I|].
  - apply TOKEN_REGEX_positive in E. lia.
  - now apply TOKEN_REGEX_None in E.
Qed.

Lemma unscanned_characters_witness :
  In "@"%char (unscanned (txt "a @ b"))
  /\ is_word "@" = false /\ is_space "@" = false /\ is_op_char "@" = false
  /\ is_punct_char "@" = false.
Proof.
  assert (H : In "@"%char (unscanned (txt "a @ b"))) by (left; reflexivity).
  split; [exact H | exact (unscanned_characters _ _ H)].
Defined.

Lemma interleaved_length (a b s : str) :
  interleaved a b s -> length a + length b = length s.
Proof. induction 1; simpl; lia. Qed.

Lemma scan_lexemes_nonempty {G : Type} (m : matcher G) : forall s prev skip lx g,
  In (lx, g) (matches (scan m prev skip s)) -> lx <> [].
Proof.
  induction s as [|c s IH]; intros prev skip lx g; simpl; [tauto|].
  destruct skip as [|k]; [|apply IH].
  destruct (m prev (c :: s)) as [[[|n] g']|]; simpl.
  - apply IH.
  - intros [[= <- <-]|H]; [discriminate | eapply IH, H].
  - apply IH.
Qed.

(** X2. No alternative of the token pattern matches the empty string:
    wherever the pattern matches, the match is at least one character
    long.  So [finditer] yields no empty token, and the tokens and the
    skipped characters account for every character of the source. *)
Theorem token_matches_nonempty (code : str) :
  (forall prev s n k, TOKEN_REGEX prev s = Some (n, k) -> 0 < n)
  /\ (forall t, In t (tokenize code) -> snd t <> [])
  /\ length (detokenize (tokenize code)) + length (unscanned code)
     = length code.
Proof.
  split; [exact TOKEN_REGEX_positive|]. split.
  - intros t Hin. unfold tokenize in Hin. apply in_map_iff in Hin.
    destruct Hin as ([lx k] & <- & Hin). cbn [snd fst].
    now apply scan_lexemes_nonempty in Hin.
  - apply interleaved_length, tokenize_interleaved.
Qed.

(** ** The lexical shape of the tokens *)

Lemma firstn_snoc_nth {A : Type} : forall (l : list A) (k : nat) (a : A),
  nth_error l k = Some a -> firstn (S k) l = firstn k l ++ [a].
Proof.
  induction l as [|x l IH]; intros [|k] a; simpl; try discriminate.
  - now intros [= ->].
  - intros H. now rewrite <- (IH k a H).
Qed.

Lemma startswith_firstn : forall pre s,
  startswith pre s = true -> firstn (length pre) s = pre.
Proof.
  induction pre as [|a pre IH]; intros [|b s]; simpl; try discriminate;
    try reflexivity.
  intros H. apply andb_true_iff in H. destruct H as [Hab H].
  apply Ascii.eqb_eq in Hab. subst b. now rewrite IH.
Qed.

Lemma firstn_span_length (p : ascii -> bool) : forall s,
  length (firstn (span p s) s) = span p s.
Proof.
  induction s as [|c s IH]; simpl; [reflexivity|].
  destruct (p c); simpl; [now rewrite IH | reflexivity].
Qed.

(** The tail of a block comment ends with the star and the slash. *)
Lemma to_comment_end_close : forall s n,
  to_comment_end s = Some n ->
  exists k, n = S (S k) /\ nth_error s k = Some "*"%char
            /\ nth_error s (S k) = Some "/"%char.
Proof.
  induction s as [|c s IH]; intros n; cbn [to_comment_end]; [discriminate|].
  destruct (Ascii.eqb c "*" && startswith ["/"] s) eqn:E.
  - intros [= <-]. exists 0. split; [reflexivity|].
    apply andb_true_iff in E. destruct E as [Ec E].
    apply Ascii.eqb_eq in Ec. subst c.
    destruct s as [|d s]; [discriminate|]. cbn [startswith] in E.
    rewrite andb_true_r in E. apply Ascii.eqb_eq in E. now subst.
  - destruct (to_comment_end s) as [m|]; [|discriminate].
    cbn [option_map]. intros [= <-].
    destruct (IH m eq_refl) as (k & -> & Hk1 & Hk2).
    now exists (S k).
Qed.

Lemma match_comment_shape (s : str) (n : nat) :
  match_comment s = Some n -> token_wellformed (Kcomment, firstn n s) = true.
Proof.
  unfold match_comment, token_wellformed. cbn [fst snd].
  destruct s as [|a [|b r]]; try discriminate.
  destruct (Ascii.eqb a "/" && Ascii.eqb b "*") eqn:E1.
  - apply andb_true_iff in E1. destruct E1 as [Ea Eb].
    apply Ascii.eqb_eq in Ea, Eb. subst a b.
    destruct (to_comment_end r) as [m|] eqn:Em; [|discriminate].
    cbn [option_map]. intros [= <-].
    destruct (to_comment_end_close r m Em) as (k & -> & Hk1 & Hk2).
    apply orb_true_iff. left.
    cbn [Nat.add]. rewrite !firstn_cons.
    rewrite (firstn_snoc_nth r (S k) _ Hk2), (firstn_snoc_nth r k _ Hk1).
    rewrite <- app_assoc. cbn [app].
    change ("/" :: "*" :: firstn k r ++ ["*"; "/"])
      with (["/"; "*"] ++ firstn k r ++ ["*"; "/"]).
    rewrite !rev_app_distr, !length_app.
    apply andb_true_iff. split; [apply andb_true_iff; split; reflexivity|].
    apply Nat.leb_le. cbn [length]. lia.
  - destruct (Ascii.eqb a "/" && Ascii.eqb b "/") eqn:E2; [|discriminate].
    apply andb_true_iff in E2. destruct E2 as [Ea Eb].
    apply Ascii.eqb_eq in Ea, Eb. subst a b. intros [= <-].
    apply orb_true_iff. right.
    cbn [Nat.add]. rewrite !firstn_cons.
    apply andb_true_iff. split; [reflexivity|]. apply negb_true_iff.
    cbn [has_char existsb]. cbn [orb].
    change (existsb (Ascii.eqb nl) ?l) with (has_char nl l).
    apply (class_no_char not_nl); [reflexivity | apply span_firstn].
Qed.

Lemma match_quoted_shape (q : ascii) (s : str) (n : nat) :
  match_quoted q s = Some n -> quoted_shape q (firstn n s) = true.
Proof.
  unfold match_quoted, quoted_shape. destruct s as [|c s]; [discriminate|].
  destruct (Ascii.eqb c q) eqn:Ec; [|discriminate].
  apply Ascii.eqb_eq in Ec. subst c.
  destruct (quoted_body q s) as [m|] eqn:Em; [|discriminate].
  cbn [option_map]. intros [= <-].
  destruct (quoted_body_last q s m Em) as (k & -> & Hk).
  rewrite !firstn_cons.
  rewrite (firstn_snoc_nth s k q Hk).
  change (q :: firstn k s ++ [q]) with ([q] ++ firstn k s ++ [q]).
  rewrite !rev_app_distr, !length_app.
  apply andb_true_iff. split; [apply andb_true_iff; split|].
  - cbn [app startswith]. now rewrite Ascii.eqb_refl.
  - cbn [rev app startswith]. now rewrite Ascii.eqb_refl.
  - apply Nat.leb_le. cbn [length]. lia.
Qed.

Lemma number_char_hex (c : ascii) : is_hex c = true -> is_number_char c = true.
Proof. unfold is_number_char. now intros ->. Qed.

Lemma number_char_digit (c : ascii) :
  is_digit c = true -> is_number_char c = true.
Proof. intros H. apply number_char_hex. unfold is_hex. now rewrite H. Qed.

Lemma number_char_oct (c : ascii) : is_oct c = true -> is_number_char c = true.
Proof.
  intros H. apply number_char_digit. unfold is_oct, is_digit, in_range in *.
  apply andb_true_iff in H. destruct H as [H1 H2].
  apply andb_true_iff. split; [exact H1|].
  apply Nat.leb_le in H2. apply Nat.leb_le. lia.
Qed.

(** A match that stays within the numeric prefix of the text. *)
Lemma match_number_chars (s : str) (n : nat) :
  match_number s = Some n -> n <= span is_number_char s.
Proof.
  unfold match_number, orelse.
  destruct (match_hex s) as [h|] eqn:Eh.
  - intros [= <-]. unfold match_hex in Eh.
    destruct s as [|z [|x r]]; try discriminate.
    destruct (Ascii.eqb z "0" && (Ascii.eqb x "x" || Ascii.eqb x "X")
              && (0 <? span is_hex r)) eqn:E; [|discriminate].
    injection Eh as <-.
    apply andb_true_iff in E. destruct E as [E _].
    apply andb_true_iff in E. destruct E as [Ez Ex].
    apply Ascii.eqb_eq in Ez. subst z.
    assert (Hx : is_number_char x = true).
    { apply orb_true_iff in Ex.
      destruct Ex as [Ex|Ex]; apply Ascii.eqb_eq in Ex; subst; reflexivity. }
    rewrite span_cons, span_cons by (reflexivity || exact Hx).
    pose proof (span_mono is_hex is_number_char number_char_hex r). lia.
  - destruct (match_octal s) as [o|] eqn:Eo.
    + intros [= <-]. unfold match_octal in Eo.
      destruct s as [|z r]; try discriminate.
      destruct (Ascii.eqb z "0" && (0 <? span is_oct r)) eqn:E; [|discriminate].
      injection Eo as <-. apply andb_true_iff in E. destruct E as [Ez _].
      apply Ascii.eqb_eq in Ez. subst z. rewrite span_cons by reflexivity.
      pose proof (span_mono is_oct is_number_char number_char_oct r). lia.
    + unfold match_decimal. set (d := span is_digit s).
      destruct (0 <? d); [|discriminate]. intros [= <-].
      assert (Hd : d <= span is_number_char s)
        by apply span_mono, number_char_digit.
      assert (Hf : match_fraction (skipn d s)
                   <= span is_number_char (skipn d s)).
      { unfold match_fraction. destruct (skipn d s) as [|c r]; [simpl; lia|].
        destruct (Ascii.eqb c ".") eqn:E; [|lia].
        apply Ascii.eqb_eq in E. subst c. rewrite span_cons by reflexivity.
        pose proof (span_mono is_digit is_number_char number_char_digit r).
        lia. }
      set (f := match_fraction (skipn d s)) in *.
      assert (Hdf : d + f <= span is_number_char s)
        by (rewrite (span_skipn is_number_char d s Hd); lia).
      assert (He : match_exponent (skipn (d + f) s)
                   <= span is_number_char (skipn (d + f) s)).
      { unfold match_exponent. destruct (skipn (d + f) s) as [|e r]; [simpl; lia|].
        destruct (Ascii.eqb e "e" || Ascii.eqb e "E") eqn:E; [|lia].
        assert (Hec : is_number_char e = true).
        { apply orb_true_iff in E.
          destruct E as [E|E]; apply Ascii.eqb_eq in E; subst; reflexivity. }
        rewrite span_cons by exact Hec.
        set (sign := match r with
                     | c :: _ =>
                       if Ascii.eqb c "+" || Ascii.eqb c "-" then 1 else 0
                     | [] => 0
                     end).
        destruct (0 <? span is_digit (skipn sign r)); [|lia].
        assert (Hsign : sign <= span is_number_char r).
        { unfold sign. destruct r as [|c r]; [simpl; lia|].
          destruct (Ascii.eqb c "+" || Ascii.eqb c "-") eqn:Ec; [|lia].
          rewrite span_cons; [lia|]. apply orb_true_iff in Ec.
          destruct Ec as [Ec|Ec]; apply Ascii.eqb_eq in Ec; subst; reflexivity. }
        rewrite (span_skipn is_number_char sign r Hsign).
        pose proof (span_mono is_digit is_number_char number_char_digit
                      (skipn sign r)). lia. }
      rewrite (span_skipn is_number_char (d + f) s Hdf). lia.
Qed.

Lemma match_number_first (s : str) (n : nat) :
  match_number s = Some n ->
  exists c r, s = c :: r /\ is_digit c = true /\ 0 < n.
Proof.
  unfold match_number, orelse.
  destruct (match_hex s) as [h|] eqn:Eh.
  - intros [= <-]. unfold match_hex in Eh.
    destruct s as [|z [|x r]]; try discriminate.
    destruct (Ascii.eqb z "0") eqn:Ez; [|discriminate].
    apply Ascii.eqb_eq in Ez. subst z.
    destruct (_ && _) in Eh; [|discriminate]. injection Eh as <-.
    exists "0"%char, (x :: r). repeat split. lia.
  - destruct (match_octal s) as [o|] eqn:Eo.
    + intros [= <-]. unfold match_octal in Eo.
      destruct s as [|z r]; try discriminate.
      destruct (Ascii.eqb z "0") eqn:Ez; [|discriminate].
      apply Ascii.eqb_eq in Ez. subst z.
      destruct (_ && _) in Eo; [|discriminate]. injection Eo as <-.
      exists "0"%char, r. repeat split. lia.
    + unfold match_decimal.
      destruct (0 <? span is_digit s) eqn:Ed; [|discriminate].
      apply Nat.ltb_lt in Ed. intros [= <-].
      destruct s as [|c r]; [simpl in Ed; lia|].
      pose proof Ed as Ed'. cbn [span] in Ed'.
      destruct (is_digit c) eqn:Ec; [|lia].
      exists c, r. repeat split; [exact Ec | lia].
Qed.

Lemma within_class_firstn (p : ascii -> bool) (s : str) (n : nat) :
  n <= span p s -> forallb p (firstn n s) = true.
Proof.
  intros H. replace n with (Nat.min n (span p s)) by lia.
  rewrite <- firstn_firstn. apply forallb_firstn, span_firstn.
Qed.

Lemma match_op_shape (s : str) (n : nat) :
  match_op s = Some n -> token_wellformed (Kop, firstn n s) = true.
Proof.
  unfold match_op, token_wellformed. cbn [fst snd].
  repeat match goal with
         | |- (if startswith ?pre s then _ else _) = _ -> _ =>
             destruct (startswith pre s) eqn:?E;
               [intros [= <-];
                let F := fresh "F" in
                pose proof (startswith_firstn pre s E) as F;
                let k := eval compute in (length pre) in
                change (length pre) with k in F;
                rewrite F; reflexivity|];
               clear E
         end.
  destruct s as [|c s]; [discriminate|].
  destruct (is_op_char c) eqn:Ec; [|discriminate].
  destruct (startswith ["="] s) eqn:E; intros [= <-].
  - change (firstn 2 (c :: s)) with (c :: firstn (length ["="%char]) s).
    rewrite (startswith_firstn _ s E). cbn [nonempty forallb length].
    now rewrite Ec.
  - cbn [firstn nonempty forallb length]. now rewrite Ec.
Qed.

(** The lexeme of a match has the shape of its kind. *)
Lemma TOKEN_REGEX_wellformed (prev : option ascii) (s : str) (n : nat)
    (k : kind) :
  TOKEN_REGEX prev s = Some (n, k) -> token_wellformed (k, firstn n s) = true.
Proof.
  intros H. apply TOKEN_REGEX_inv in H. destruct k.
  - now apply match_comment_shape.
  - now apply match_quoted_shape.
  - now apply match_quoted_shape.
  - unfold token_wellformed. cbn [fst snd].
    destruct (match_preproc_shape prev s n H) as (_ & -> & ->). reflexivity.
  - unfold token_wellformed. cbn [fst snd].
    destruct (match_number_first s n H) as (c & r & -> & Hc & Hn).
    destruct n as [|n]; [lia|]. cbn [firstn]. rewrite Hc. cbn [andb].
    change (c :: firstn n r) with (firstn (S n) (c :: r)).
    now apply within_class_firstn, match_number_chars.
  - unfold token_wellformed, match_ident in *. cbn [fst snd].
    destruct s as [|c s]; [discriminate|].
    destruct (is_ident_start c) eqn:Ec; [|discriminate].
    injection H as <-. cbn [firstn]. rewrite Ec. apply span_firstn.
  - now apply match_op_shape.
  - unfold token_wellformed, match_punct in *. cbn [fst snd].
    destruct s as [|c s]; [discriminate|]. fold (is_punct_char c) in H.
    destruct (is_punct_char c) eqn:Ec; [|discriminate].
    injection H as <-. exact Ec.
  - unfold token_wellformed, match_ws in *. cbn [fst snd].
    destruct (0 <? span is_space s) eqn:E; [|discriminate].
    apply Nat.ltb_lt in E. injection H as <-.
    rewrite span_firstn, andb_true_r.
    destruct s as [|c s]; [simpl in E; lia|]. cbn [span] in *.
    destruct (is_space c); [reflexivity | lia].
Qed.

Lemma matches_In_Match {G : Type} (ps : list (piece G)) (lx : str) (g : G) :
  In (lx, g) (matches ps) -> In (Match lx g) ps.
Proof.
  induction ps as [|[c|lx' g'] ps IH]; simpl; [tauto | auto|].
  intros [[= -> ->]|H]; [now left | right; auto].
Qed.

(** X3. Every token has the lexical shape of its kind: an identifier is
    a letter or underscore followed by word characters, a number starts
    with a digit and holds only digits, hexadecimal letters, [x], the dot
    and signs, a string or character literal opens and closes with its
    quote, a comment is a closed block comment or a line comment without
    a newline, a directive starts with the marker and stays within its
    line, an operator is one to three operator characters, punctuation is
    one punctuation character, whitespace is a non-empty run of blanks. *)
Theorem tokens_wellformed (code : str) :
  forallb token_wellformed (tokenize code) = true.
Proof.
  apply forallb_forall. intros t Hin. unfold tokenize in Hin.
  apply in_map_iff in Hin. destruct Hin as ([lx k] & <- & Hin).
  cbn [fst snd]. apply matches_In_Match in Hin. revert Hin.
  apply (scan_matches_sound TOKEN_REGEX
           (fun lx k => token_wellformed (k, lx) = true)).
  intros prev s n g. apply TOKEN_REGEX_wellformed.
Qed.

Lemma last_error_cons {A : Type} (a : A) (l : list A) :
  exists x, last_error (a :: l) = Some x.
Proof.
  revert a. induction l as [|b l IH]; intros a; [now exists a|].
  destruct (IH b) as [x Hx]. exists x. exact Hx.
Qed.

Lemma adjacent_split : forall pre b t post,
  adjacent b (pre ++ t :: post) = true -> fst t = Kpreproc ->
  match last_error pre with
  | None => b = true
  | Some w => fst w = Kws
  end.
Proof.
  induction pre as [|[k v] pre IH]; intros b [kt vt] post H Ht.
  - cbn [fst] in Ht. subst kt. cbn [app adjacent kind_eqb] in H.
    apply andb_true_iff in H. now destruct H.
  - cbn [app adjacent] in H. apply andb_true_iff in H. destruct H as [_ H].
    specialize (IH _ _ _ H Ht).
    destruct pre as [|w pre].
    + cbn [last_error] in *. cbn [fst]. now apply kind_eqb_eq.
    + change (last_error ((k, v) :: w :: pre)) with (last_error (w :: pre)).
      destruct (last_error_cons w pre) as [x Hx]. rewrite Hx in *. exact IH.
Qed.

(** X4. In the token stream a preprocessor directive token is the first
    token or stands right after a whitespace token: the directive
    alternative only matches at the start of a line, and what ends a line
    is always a whitespace token. *)
Theorem directive_tokens_follow_whitespace (code : str) (pre post : list token)
    (t : token) :
  tokenize code = pre ++ t :: post -> fst t = Kpreproc ->
  pre = [] \/ exists pre' w, pre = pre' ++ [w] /\ fst w = Kws.
Proof.
  intros Hsplit Ht.
  pose proof (tokenize_adjacent code) as H. rewrite Hsplit in H.
  pose proof (adjacent_split pre true t post H Ht) as Hlast.
  destruct pre as [|x pre] using rev_ind; [now left|]. right.
  rewrite last_error_snoc in Hlast. now exists pre, x.
Qed.

Lemma directive_tokens_follow_whitespace_witness :
  tokenize two_includes
  = [(Kpreproc, txt "#include <a.h>"); (Kws, [nl])]
      ++ (Kpreproc, txt "#include <b.h>")
      :: [(Kws, [nl]); (Kident, txt "int"); (Kws, txt " ");
          (Kident, txt "x"); (Kpunct, txt ";")]
  /\ ([(Kpreproc, txt "#include <a.h>"); (Kws, [nl])] = []
      \/ exists pre' w,
           [(Kpreproc, txt "#include <a.h>"); (Kws, [nl])] = pre' ++ [w]
           /\ fst w = Kws).
Proof.
  assert (H : tokenize two_includes
              = [(Kpreproc, txt "#include <a.h>"); (Kws, [nl])]
                  ++ (Kpreproc, txt "#include <b.h>")
                  :: [(Kws, [nl]); (Kident, txt "int"); (Kws, txt " ");
                      (Kident, txt "x"); (Kpunct, txt ";")])
    by (vm_compute; reflexivity).
  split; [exact H|].
  exact (directive_tokens_follow_whitespace _ _ _ _ H eq_refl).
Defined.

(** ** The name generator *)

(** X5. The name generator returns exactly as many names as asked for at
    tier 3, and at tiers 1 and 2 as many as asked for up to the size of
    the fixed pool, 66 and 78: beyond it the list is shorter than the
    count. *)
Theorem generate_names_count (count : nat) (lv : level) (r : rng) :
  length (fst (generate_names count lv r))
  = match lv with
    | mild => Nat.min count 66
    | moderate => Nat.min count 78
    | extreme => count
    end.
Proof. rewrite generate_names_length. now destruct lv. Qed.

(** A name that the tokenizer reads back as one identifier token. *)
Lemma name_pool_identifiers (lv : level) (y : str) :
  In y (name_pool lv) -> tokenize y = [(Kident, y)].
Proof.
  intros H.
  assert (E : forallb (fun y => match tokenize y with
                                | [(Kident, v)] => str_eqb v y
                                | _ => false
                                end) (name_pool lv) = true)
    by (destruct lv; vm_compute; reflexivity).
  rewrite forallb_forall in E. specialize (E y H).
  destruct (tokenize y) as [|[[] v] [|t ts]]; try discriminate.
  apply str_eqb_eq in E. now subst.
Qed.

(** X6. Every generated name, at every tier and for every random source,
    is a valid identifier: the tokenizer reads it back as exactly one
    identifier token. *)
Theorem generated_names_are_identifiers (count : nat) (lv : level) (r : rng)
    (y : str) :
  In y (fst (generate_names count lv r)) -> tokenize y = [(Kident, y)].
Proof.
  intros H. apply (name_pool_identifiers lv). now apply generate_names_In in H.
Qed.

Lemma generated_names_are_identifiers_witness :
  In (txt "y") (fst (generate_names 3 mild rng0))
  /\ tokenize (txt "y") = [(Kident, txt "y")].
Proof.
  assert (H : In (txt "y") (fst (generate_names 3 mild rng0)))
    by (vm_compute; left; reflexivity).
  split; [exact H | exact (generated_names_are_identifiers _ _ _ _ H)].
Defined.

Lemma set_nth_perm {A : Type} (a b : A) : forall (x : list A) (j : nat),
  nth_error x j = Some b -> Permutation (b :: set_nth j a x) (a :: x).
Proof.
  induction x as [|c x IH]; intros [|j]; simpl; try discriminate.
  - intros [= ->]. apply perm_swap.
  - intros H. rewrite perm_swap. rewrite (IH j H). apply perm_swap.
Qed.

Lemma nth_error_set_nth {A : Type} (a b : A) : forall (x : list A) (i j : nat),
  nth_error x i = Some a -> nth_error x j = Some b ->
  nth_error (set_nth i b x) j = Some b.
Proof.
  induction x as [|c x IH]; intros [|i] [|j]; simpl; try discriminate; auto.
Qed.

(** The exchange of two elements rearranges the list. *)
Lemma swap_perm {A : Type} (i j : nat) (x : list A) :
  Permutation (swap i j x) x.
Proof.
  unfold swap.
  destruct (nth_error x i) as [a|] eqn:Ei; [|reflexivity].
  destruct (nth_error x j) as [b|] eqn:Ej; [|reflexivity].
  apply (Permutation_cons_inv (a := b)).
  rewrite (set_nth_perm a b (set_nth i b x) j
             (nth_error_set_nth a b x i j Ei Ej)).
  apply (set_nth_perm b a x i Ei).
Qed.

Lemma shuffle_from_perm {A : Type} : forall i (x : list A) r,
  Permutation (fst (shuffle_from i x r)) x.
Proof.
  induction i as [|i IH]; intros x r; [reflexivity|].
  cbn [shuffle_from]. unfold randbelow.
  rewrite IH. apply swap_perm.
Qed.

(** [shuffle] rearranges the list, whatever the random source. *)
Lemma shuffle_perm {A : Type} (x : list A) (r : rng) :
  Permutation (fst (shuffle x r)) x.
Proof. apply shuffle_from_perm. Qed.

Lemma NoDup_firstn {A : Type} (n : nat) (l : list A) :
  NoDup l -> NoDup (firstn n l).
Proof.
  intros H. rewrite <- (firstn_skipn n l) in H.
  now apply NoDup_app_remove_r in H.
Qed.

Lemma fixed_pools_NoDup :
  NoDup (name_pool mild) /\ NoDup (name_pool moderate) /\ NoDup CONFUSING.
Proof.
  assert (H : forall l : list str,
             nodup (list_eq_dec ascii_dec) l = l -> NoDup l).
  { intros l E. rewrite <- E. apply NoDup_nodup. }
  repeat split; apply H; vm_compute; reflexivity.
Qed.

Lemma generate_names_NoDup (count : nat) (lv : level) (r : rng) :
  (lv = extreme -> count <= length CONFUSING) ->
  NoDup (fst (generate_names count lv r)).
Proof.
  intros Hlv. destruct fixed_pools_NoDup as (Hmild & Hmod & Hconf).
  unfold generate_names. destruct lv.
  - destruct (shuffle _ r) as [pool' r2] eqn:E. cbn [fst].
    apply NoDup_firstn. change pool' with (fst (pool', r2)). rewrite <- E.
    apply (Permutation_NoDup (Permutation_sym (shuffle_perm _ r))).
    exact Hmild.
  - destruct (shuffle _ r) as [pool' r2] eqn:E. cbn [fst].
    apply NoDup_firstn. change pool' with (fst (pool', r2)). rewrite <- E.
    apply (Permutation_NoDup (Permutation_sym (shuffle_perm _ r))).
    exact Hmod.
  - replace (count - length CONFUSING) with 0 by (specialize (Hlv eq_refl); lia).
    cbn [extend_pool].
    destruct (shuffle CONFUSING r) as [pool' r2] eqn:E. cbn [fst].
    apply NoDup_firstn. change pool' with (fst (pool', r2)). rewrite <- E.
    apply (Permutation_NoDup (Permutation_sym (shuffle_perm _ r))).
    exact Hconf.
Qed.

(** X7. At tiers 1 and 2, and at tier 3 as long as no more names are
    asked for than the curated list holds (48), the generated names are
    pairwise distinct, whatever the random source. *)
Theorem generated_names_distinct (count : nat) (lv : level) (r : rng) :
  (lv = extreme -> count <= length CONFUSING) ->
  NoDup (fst (generate_names count lv r)).
Proof.
  exact (generate_names_NoDup count lv r).
Qed.

Lemma generated_names_distinct_witness :
  (extreme = extreme -> 48 <= length CONFUSING)
  /\ NoDup (fst (generate_names 48 extreme rng0)).
Proof.
  assert (H : extreme = extreme -> 48 <= length CONFUSING)
    by (intros _; vm_compute; lia).
  split; [exact H | exact (generated_names_distinct 48 extreme rng0 H)].
Defined.

(** ** The renamer: what the mapping holds and what it rewrites *)

Lemma rename_identifiers_mapping (tokens : list token) (lv : level) (r : rng)
    (renamed : list token) (mapping : list (str * str)) :
  fst (rename_identifiers tokens lv r) = Ok (renamed, mapping) ->
  let sorted_idents := sorted_desc (count_identifiers tokens) in
  let names := fst (generate_names (length sorted_idents) lv r) in
  length sorted_idents <= length names
  /\ mapping = combine (map fst sorted_idents) names
  /\ renamed = map (apply_mapping mapping) tokens.
Proof.
  intros H. rewrite rename_identifiers_result in H. cbv zeta.
  destruct (_ <=? _) eqn:E in H; [|discriminate].
  apply Nat.leb_le in E. injection H as <- <-. auto.
Qed.

Lemma map_fst_combine {A B : Type} : forall (ks : list A) (vs : list B),
  length ks <= length vs -> map fst (combine ks vs) = ks.
Proof.
  induction ks as [|k ks IH]; intros [|v vs]; simpl; intros H;
    try reflexivity; try lia.
  rewrite IH; [reflexivity | lia].
Qed.

Lemma rename_mapping_keys (tokens : list token) (lv : level) (r : rng)
    (renamed : list token) (mapping : list (str * str)) :
  fst (rename_identifiers tokens lv r) = Ok (renamed, mapping) ->
  map fst mapping = map fst (sorted_desc (count_identifiers tokens)).
Proof.
  intros H. apply rename_identifiers_mapping in H. cbv zeta in H.
  destruct H as (Hlen & -> & _).
  apply map_fst_combine. now rewrite length_map.
Qed.

Lemma rename_mapping_key (tokens : list token) (lv : level) (r : rng)
    (renamed : list token) (mapping : list (str * str)) (A : str) :
  fst (rename_identifiers tokens lv r) = Ok (renamed, mapping) ->
  In A (map fst mapping) <-> In (Kident, A) tokens /\ ~ In A RESERVED.
Proof.
  intros H. rewrite (rename_mapping_keys _ _ _ _ _ H).
  rewrite <- count_identifiers_key. split; apply Permutation_in.
  - apply Permutation_map, sorted_desc_perm.
  - apply Permutation_map, Permutation_sym, sorted_desc_perm.
Qed.

(** X8. The keys of the rename mapping are pairwise distinct and are
    exactly the identifiers of the token stream outside the reserved
    set. *)
Theorem mapping_keys (tokens : list token) (lv : level) (r : rng)
    (renamed : list token) (mapping : list (str * str)) :
  fst (rename_identifiers tokens lv r) = Ok (renamed, mapping) ->
  NoDup (map fst mapping)
  /\ (forall A, In A (map fst mapping)
                <-> In (Kident, A) tokens /\ ~ In A RESERVED).
Proof.
  intros H. split.
  - rewrite (rename_mapping_keys _ _ _ _ _ H). apply sorted_desc_keys_NoDup.
  - intros A. apply (rename_mapping_key _ _ _ _ _ A H).
Qed.

Lemma mapping_keys_witness :
  fst (rename_identifiers three_identifiers mild rng0)
  = Ok ([(Kident, txt "z"); (Kws, txt " "); (Kident, txt "y");
         (Kws, txt " "); (Kident, txt "q"); (Kws, txt " ");
         (Kident, txt "y")],
        [(txt "a", txt "y"); (txt "b", txt "z"); (txt "c", txt "q")])
  /\ NoDup (map fst [(txt "a", txt "y"); (txt "b", txt "z");
                     (txt "c", txt "q")]).
Proof.
  assert (H : fst (rename_identifiers three_identifiers mild rng0)
              = Ok ([(Kident, txt "z"); (Kws, txt " "); (Kident, txt "y");
                     (Kws, txt " "); (Kident, txt "q"); (Kws, txt " ");
                     (Kident, txt "y")],
                    [(txt "a", txt "y"); (txt "b", txt "z");
                     (txt "c", txt "q")]))
    by (vm_compute; reflexivity).
  split; [exact H | exact (proj1 (mapping_keys _ _ _ _ _ H))].
Defined.

Lemma apply_mapping_token (tokens : list token) (lv : level) (r : rng)
    (renamed : list token) (mapping : list (str * str)) (t : token) :
  fst (rename_identifiers tokens lv r) = Ok (renamed, mapping) ->
  In t tokens ->
  if renameable t
  then dict_get (snd t) mapping = Some (snd (apply_mapping mapping t))
  else apply_mapping mapping t = t.
Proof.
  intros H Hin. pose proof (rename_mapping_key _ _ _ _ _ (snd t) H) as Hkey.
  destruct t as [k v]. unfold renameable, apply_mapping. cbn [fst snd] in *.
  destruct (kind_eqb k Kident) eqn:Ek; cbn [andb]; [|reflexivity].
  apply kind_eqb_eq in Ek. subst k.
  destruct (mem v RESERVED) eqn:Er; cbn [negb].
  - destruct (dict_get v mapping) as [name|] eqn:Eg; [|reflexivity].
    apply dict_get_In, (in_map fst) in Eg. apply Hkey in Eg.
    apply mem_In in Er. tauto.
  - destruct (dict_get v mapping) as [name|] eqn:Eg; [reflexivity|].
    apply dict_get_None in Eg. exfalso. apply Eg, Hkey.
    split; [exact Hin | now apply mem_false].
Qed.

Lemma Forall2_map_In {A B : Type} (P : A -> B -> Prop) (f : A -> B) :
  forall l, (forall x, In x l -> P x (f x)) -> Forall2 P l (map f l).
Proof.
  induction l as [|x l IH]; intros H; cbn [map]; constructor.
  - apply H. now left.
  - apply IH. intros y Hy. apply H. now right.
Qed.

(** X9. Renaming rewrites exactly the identifier tokens outside the
    reserved set, each to the name the mapping gives its text; every
    other token, reserved identifiers included, passes through
    unchanged, and no token changes its kind or its place. *)
Theorem renaming_rewrites_identifiers (tokens : list token) (lv : level)
    (r : rng) (renamed : list token) (mapping : list (str * str)) :
  fst (rename_identifiers tokens lv r) = Ok (renamed, mapping) ->
  Forall2 (fun t t' =>
             fst t' = fst t
             /\ if renameable t
                then dict_get (snd t) mapping = Some (snd t')
                else t' = t)
          tokens renamed.
Proof.
  intros H. pose proof (rename_identifiers_mapping _ _ _ _ _ H) as Hm.
  cbv zeta in Hm. destruct Hm as (_ & _ & Hr). rewrite Hr.
  apply Forall2_map_In. intros t Hin. split.
  - apply apply_mapping_kind.
  - apply (apply_mapping_token _ _ _ _ _ t H Hin).
Qed.

Lemma renaming_rewrites_identifiers_witness :
  Forall2 (fun t t' =>
             fst t' = fst t
             /\ if renameable t
                then dict_get (snd t)
                       [(txt "a", txt "y"); (txt "b", txt "z");
                        (txt "c", txt "q")] = Some (snd t')
                else t' = t)
          three_identifiers
          [(Kident, txt "z"); (Kws, txt " "); (Kident, txt "y");
           (Kws, txt " "); (Kident, txt "q"); (Kws, txt " ");
           (Kident, txt "y")].
Proof.
  apply (renaming_rewrites_identifiers three_identifiers mild rng0).
  vm_compute. reflexivity.
Defined.

Lemma combine_value_key {A B : Type} (k1 k2 : A) (v : B) :
  forall ks vs, NoDup vs ->
  In (k1, v) (combine ks vs) -> In (k2, v) (combine ks vs) -> k1 = k2.
Proof.
  induction ks as [|k ks IH]; intros [|w vs] Hnd; cbn [combine In];
    try tauto.
  inversion Hnd as [|? ? Hw Hvs]; subst.
  intros [E1|H1] [E2|H2].
  - congruence.
  - injection E1 as <- <-. apply In_combine in H2. tauto.
  - injection E2 as <- <-. apply In_combine in H1. tauto.
  - eapply IH; eauto.
Qed.

(** X10. Renaming never merges two identifiers: at tiers 1 and 2, and at
    tier 3 while the stream has at most 48 distinct renameable
    identifiers, two identifier tokens that carry the same text after
    renaming carried the same text before it, reserved identifiers
    included. *)
Theorem renaming_keeps_identifiers_apart (tokens : list token) (lv : level)
    (r : rng) (renamed : list token) (mapping : list (str * str))
    (i j : nat) (A B A' B' : str) :
  fst (rename_identifiers tokens lv r) = Ok (renamed, mapping) ->
  (lv = extreme -> length mapping <= length CONFUSING) ->
  nth_error tokens i = Some (Kident, A) ->
  nth_error tokens j = Some (Kident, B) ->
  nth_error renamed i = Some (Kident, A') ->
  nth_error renamed j = Some (Kident, B') ->
  A' = B' -> A = B.
Proof.
  intros H Hlv Hi Hj Hi' Hj' <-.
  pose proof (rename_identifiers_mapping _ _ _ _ _ H) as Hm.
  cbv zeta in Hm. destruct Hm as (Hlen & Hmap & Hr).
  set (names := fst (generate_names
                       (length (sorted_desc (count_identifiers tokens)))
                       lv r)) in *.
  assert (Hnd : NoDup names).
  { apply generate_names_NoDup. intros E. specialize (Hlv E).
    rewrite Hmap, length_combine, length_map in Hlv. lia. }
  assert (Hval : forall k v, In (k, v) mapping -> ~ In v RESERVED).
  { intros k v Hin. rewrite Hmap in Hin. apply In_combine in Hin.
    eapply name_pool_not_reserved, generate_names_In, Hin. }
  pose proof (apply_mapping_token _ _ _ _ _ _ H (nth_error_In _ _ Hi)) as HA.
  pose proof (apply_mapping_token _ _ _ _ _ _ H (nth_error_In _ _ Hj)) as HB.
  rewrite Hr in Hi', Hj'. rewrite nth_error_map in Hi', Hj'.
  rewrite Hi in Hi'. rewrite Hj in Hj'. cbn [option_map] in Hi', Hj'.
  injection Hi' as Hi'. injection Hj' as Hj'.
  rewrite Hi' in HA. rewrite Hj' in HB.
  unfold renameable in HA, HB. cbn [fst snd kind_eqb andb] in HA, HB.
  destruct (mem A RESERVED) eqn:EA; destruct (mem B RESERVED) eqn:EB;
    cbn [negb] in HA, HB.
  - congruence.
  - injection HA as <-. apply dict_get_In, Hval in HB.
    apply mem_In in EA. tauto.
  - injection HB as <-. apply dict_get_In, Hval in HA.
    apply mem_In in EB. tauto.
  - apply dict_get_In in HA, HB. rewrite Hmap in HA, HB.
    exact (combine_value_key _ _ _ _ _ Hnd HA HB).
Qed.

Lemma renaming_keeps_identifiers_apart_witness :
  nth_error three_identifiers 2 = Some (Kident, txt "a")
  /\ nth_error three_identifiers 6 = Some (Kident, txt "a")
  /\ txt "a" = txt "a".
Proof.
  split; [vm_compute; reflexivity|]. split; [vm_compute; reflexivity|].
  apply (renaming_keeps_identifiers_apart three_identifiers mild rng0
           [(Kident, txt "z"); (Kws, txt " "); (Kident, txt "y");
            (Kws, txt " "); (Kident, txt "q"); (Kws, txt " ");
            (Kident, txt "y")]
           [(txt "a", txt "y"); (txt "b", txt "z"); (txt "c", txt "q")]
           2 6 (txt "a") (txt "a") (txt "y") (txt "y")).
  - vm_compute. reflexivity.
  - discriminate.
  - vm_compute. reflexivity.
  - vm_compute. reflexivity.
  - reflexivity.
  - reflexivity.
  - reflexivity.
Defined.

(** ** The pipeline: when it returns *)

(** X11. Whatever the random source, [obfuscate] raises [IndexError]
    exactly when the distinct renameable identifiers of the source
    number more than 66 at tier 1 or more than 78 at tier 2, and never
    at tier 3.  At tiers 1 and 2 it returns an output and a mapping in
    every other case; at tier 3 it returns them or raises the
    [ValueError] of [int]. *)
Theorem obfuscate_returns_within_pool (code : str) (lv : level) (r : rng) :
  let n := distinct_identifiers code in
  let fits := match lv with
              | mild => n <= 66
              | moderate => n <= 78
              | extreme => True
              end in
  (obfuscate code lv r = IndexError <-> ~ fits)
  /\ (obfuscate code lv r = ValueError -> lv = extreme)
  /\ ((exists out mapping, obfuscate code lv r = Ok (out, mapping))
      \/ obfuscate code lv r = ValueError <-> fits).
Proof.
  cbv zeta.
  assert (E : match lv with
              | mild => distinct_identifiers code <= 66
              | moderate => distinct_identifiers code <= 78
              | extreme => True
              end
              <-> within_bound (distinct_identifiers code) (pool_bound lv))
    by (destruct lv; reflexivity).
  rewrite E.
  destruct (obfuscate_cases code lv r)
    as [[Hw [(out & mapping & Hok)|[Hlv Herr]]]|[Hn Herr]].
  - rewrite Hok. repeat split; try discriminate; try tauto.
    intros _. left. eauto.
  - rewrite Herr. repeat split; try discriminate; try tauto.
  - rewrite Herr. repeat split; try discriminate; try tauto.
    intros [(o & m & H)|H]; discriminate.
Qed.

(** ** The whitespace compressor: what it keeps *)

Lemma compress_from_not_ws (lv : level) : forall tokens prev,
  filter not_ws (compress_from lv prev tokens) = filter not_ws tokens.
Proof.
  induction tokens as [|[k v] rest IH]; intros prev; [reflexivity|].
  cbn [compress_from]. unfold not_ws at 2. cbn [filter fst].
  destruct (kind_eqb k Kws) eqn:Ek; cbn [negb].
  - destruct lv.
    + cbn [filter]. unfold not_ws at 1. cbn [fst kind_eqb negb]. apply IH.
    + cbn [filter]. unfold not_ws at 1. cbn [fst kind_eqb negb]. apply IH.
    + destruct (_ || _).
      * cbn [filter]. unfold not_ws at 1. cbn [fst kind_eqb negb]. apply IH.
      * destruct (_ && _); [|apply IH].
        cbn [filter]. unfold not_ws at 1. cbn [fst kind_eqb negb]. apply IH.
  - cbn [filter]. unfold not_ws at 1. cbn [fst]. rewrite Ek. cbn [negb].
    now rewrite IH.
Qed.

Lemma compress_from_ws (lv : level) (t : token) : forall tokens prev,
  In t (compress_from lv prev tokens) -> fst t = Kws ->
  snd t = [nl] \/ snd t = [" "].
Proof.
  induction tokens as [|[k v] rest IH]; intros prev; [intros []|].
  cbn [compress_from].
  destruct (kind_eqb k Kws) eqn:Ek; cbn [negb].
  - destruct lv.
    + intros [<-|Hin] Hk; [|eapply IH; eauto].
      cbn [snd]. destruct (has_char nl v); auto.
    + intros [<-|Hin] Hk; [|eapply IH; eauto].
      cbn [snd]. destruct (has_char nl v); auto.
    + destruct (_ || _).
      * intros [<-|Hin] Hk; [auto | eapply IH; eauto].
      * destruct (_ && _); [|apply IH].
        intros [<-|Hin] Hk; [auto | eapply IH; eauto].
  - intros [<-|Hin] Hk; [|eapply IH; eauto].
    cbn [fst] in Hk. subst k. discriminate.
Qed.

(** X12. The whitespace compressor touches whitespace only: at every
    tier the tokens that are not whitespace come out unchanged and in
    their order, and every whitespace token of the output is one newline
    or one space. *)
Theorem compress_whitespace_keeps_tokens (tokens : list token) (lv : level) :
  filter not_ws (compress_whitespace tokens lv) = filter not_ws tokens
  /\ forall t, In t (compress_whitespace tokens lv) -> fst t = Kws ->
       snd t = [nl] \/ snd t = [" "].
Proof.
  rewrite compress_whitespace_from. split.
  - apply compress_from_not_ws.
  - intros t. apply compress_from_ws.
Qed.

Lemma compress_from_kinds (lv : level) : lv <> extreme ->
  forall tokens prev,
    map fst (compress_from lv prev tokens) = map fst tokens.
Proof.
  intros Hlv. induction tokens as [|[k v] rest IH]; intros prev;
    [reflexivity|].
  cbn [compress_from].
  destruct (kind_eqb k Kws) eqn:Ek; cbn [negb].
  - apply kind_eqb_eq in Ek. subst k.
    destruct lv; [| |congruence]; cbn [map fst]; now rewrite IH.
  - cbn [map fst]. now rewrite IH.
Qed.

(** X13. At tiers 1 and 2 the compressor drops nothing: the output has
    the kinds of the input, token for token, so only the texts of
    whitespace tokens can differ. *)
Theorem compress_whitespace_keeps_kinds (tokens : list token) (lv : level) :
  lv <> extreme ->
  map fst (compress_whitespace tokens lv) = map fst tokens.
Proof.
  intros Hlv. rewrite compress_whitespace_from.
  now apply compress_from_kinds.
Qed.

Lemma compress_whitespace_keeps_kinds_witness :
  map fst (compress_whitespace three_identifiers mild)
  = map fst three_identifiers.
Proof.
  apply (compress_whitespace_keeps_kinds three_identifiers mild).
  discriminate.
Defined.

Lemma word_token_kind (t : token) :
  word_token t = ident_or_number (Some (fst t)).
Proof. reflexivity. Qed.

Lemma separated_head (ts : list token) :
  separated false ts = true ->
  ident_or_number (option_map fst (hd_error ts)) = false ->
  separated true ts = true.
Proof.
  destruct ts as [|t ts]; [reflexivity|].
  cbn [separated hd_error option_map andb negb].
  rewrite word_token_kind. now intros -> ->.
Qed.

Lemma compress_from_separated (lv : level) : forall tokens prev,
  separated (ident_or_number prev) tokens = true ->
  separated (ident_or_number prev) (compress_from lv prev tokens) = true.
Proof.
  induction tokens as [|[k v] rest IH]; intros prev H; [reflexivity|].
  cbn [compress_from].
  destruct (kind_eqb k Kws) eqn:Ek; cbn [negb].
  - apply kind_eqb_eq in Ek. subst k.
    cbn [separated] in H. unfold word_token in H.
    cbn [fst kind_eqb orb] in H. rewrite andb_false_r in H.
    cbn [negb andb] in H.
    assert (Hws : forall u,
               separated (ident_or_number prev)
                 ((Kws, u) :: compress_from lv (Some Kws) rest) = true).
    { intros u. cbn [separated]. unfold word_token.
      cbn [fst kind_eqb orb]. rewrite andb_false_r. cbn [negb andb].
      apply (IH (Some Kws)). exact H. }
    destruct lv; try apply Hws.
    destruct (_ || _); [apply Hws|].
    pose proof (IH prev) as IH'.
    destruct (ident_or_number prev) eqn:Ep; cbn [andb].
    + destruct (ident_or_number (option_map fst (hd_error rest))) eqn:En;
        [apply Hws|].
      apply IH'. now apply separated_head.
    + apply IH'. exact H.
  - cbn [separated] in H |- *. apply andb_true_iff in H.
    destruct H as [H1 H2]. rewrite H1. cbn [andb].
    rewrite word_token_kind in *. cbn [fst] in *. now apply IH.
Qed.

(** X14. The compressor never brings two words together: if no two
    neighbouring tokens of the input are both identifiers or numbers,
    the same holds of the output at every tier, so dropping whitespace
    at tier 3 never joins two identifiers or numbers into one word. *)
Theorem compress_whitespace_keeps_words_apart (tokens : list token)
    (lv : level) :
  separated false tokens = true ->
  separated false (compress_whitespace tokens lv) = true.
Proof.
  intros H. rewrite compress_whitespace_from.
  apply (compress_from_separated lv tokens None H).
Qed.

Lemma compress_whitespace_keeps_words_apart_witness :
  separated false (compress_whitespace three_identifiers extreme) = true.
Proof.
  apply (compress_whitespace_keeps_words_apart three_identifiers extreme).
  vm_compute. reflexivity.
Defined.

(** ** The line flattener *)

Lemma nonspace_app (a b : str) : nonspace (a ++ b) = nonspace a ++ nonspace b.
Proof. apply filter_app. Qed.

Lemma lstrip_cons (c : ascii) (s : str) :
  lstrip (c :: s) = if is_space c then lstrip s else c :: s.
Proof.
  unfold lstrip. cbn [span]. now destruct (is_space c).
Qed.

Lemma nonspace_lstrip : forall s, nonspace (lstrip s) = nonspace s.
Proof.
  induction s as [|c s IH]; [reflexivity|].
  rewrite lstrip_cons. destruct (is_space c) eqn:E.
  - rewrite IH. unfold nonspace. cbn [filter]. now rewrite E.
  - reflexivity.
Qed.

Lemma nonspace_rev (s : str) : nonspace (rev s) = rev (nonspace s).
Proof. apply filter_rev. Qed.

Lemma nonspace_strip (s : str) : nonspace (strip s) = nonspace s.
Proof.
  unfold strip, rstrip.
  now rewrite nonspace_rev, nonspace_lstrip, nonspace_rev, rev_involutive,
    nonspace_lstrip.
Qed.

Lemma nonspace_join_lines : forall ls,
  nonspace (join_lines ls) = concat (map nonspace ls).
Proof.
  induction ls as [|l [|l2 ls] IH]; [reflexivity| |].
  - cbn [join_lines map concat]. now rewrite app_nil_r.
  - change (join_lines (l :: l2 :: ls))
      with (l ++ nl :: join_lines (l2 :: ls)).
    rewrite nonspace_app. unfold nonspace at 2. cbn [filter].
    change (is_space nl) with true. cbn [negb].
    change (filter (fun c => negb (is_space c)) (join_lines (l2 :: ls)))
      with (nonspace (join_lines (l2 :: ls))).
    rewrite IH. reflexivity.
Qed.

Lemma nonspace_split_lines : forall s,
  concat (map nonspace (split_lines s)) = nonspace s.
Proof.
  induction s as [|c s IH]; [reflexivity|].
  cbn [split_lines]. destruct (Ascii.eqb c nl) eqn:E.
  - apply Ascii.eqb_eq in E. subst c. cbn [map concat]. exact IH.
  - destruct (split_lines_cons s) as (l & ls & El). rewrite El in *.
    cbn [map concat] in *. unfold nonspace at 1 3. cbn [filter].
    fold (nonspace l). fold (nonspace s). rewrite <- IH.
    now destruct (is_space c).
Qed.

Lemma nonempty_false {A : Type} (l : list A) : nonempty l = false -> l = [].
Proof. destruct l; [reflexivity | discriminate]. Qed.

Lemma flatten_step_nonspace (st : list str * str) (line : str) :
  concat (map nonspace (flush (flatten_step st line)))
  = concat (map nonspace (flush st)) ++ nonspace line.
Proof.
  assert (Hflush : forall result buffer,
             concat (map nonspace (flush (result, buffer)))
             = concat (map nonspace result) ++ nonspace buffer).
  { intros result buffer. unfold flush. cbn [fst snd].
    destruct (nonempty buffer) eqn:Eb.
    - rewrite map_app, concat_app. cbn [map concat].
      now rewrite app_nil_r, nonspace_strip.
    - apply nonempty_false in Eb. subst buffer. cbn [nonspace filter].
      now rewrite app_nil_r. }
  destruct st as [result buffer]. unfold flatten_step.
  rewrite <- (nonspace_strip line).
  destruct (nonempty (strip line)) eqn:Ene; cbn [negb].
  - destruct (startswith ["#"] (strip line)).
    + rewrite !Hflush. cbn [nonspace filter]. rewrite app_nil_r.
      destruct (nonempty buffer) eqn:Eb.
      * rewrite !map_app, !concat_app. cbn [map concat].
        now rewrite !app_nil_r, nonspace_strip, <- app_assoc.
      * apply nonempty_false in Eb. subst buffer.
        rewrite !map_app, !concat_app. cbn [map concat nonspace filter].
        now rewrite !app_nil_r.
    + rewrite !Hflush, nonspace_app.
      rewrite <- app_assoc. reflexivity.
  - apply nonempty_false in Ene. rewrite Ene. cbn [nonspace filter].
    now rewrite app_nil_r.
Qed.

Lemma flatten_loop_nonspace : forall lines st,
  concat (map nonspace (flush (fold_left flatten_step lines st)))
  = concat (map nonspace (flush st)) ++ concat (map nonspace lines).
Proof.
  induction lines as [|l lines IH]; intros st.
  - cbn [fold_left map concat]. now rewrite app_nil_r.
  - cbn [fold_left map concat]. rewrite IH, flatten_step_nonspace.
    now rewrite <- app_assoc.
Qed.

Lemma flatten_code_flush (code : str) :
  flatten_code code extreme
  = join_lines (flush (fold_left flatten_step (split_lines code) ([], []))).
Proof.
  unfold flatten_code, flush.
  now destruct (fold_left flatten_step (split_lines code) ([], [])).
Qed.

(** X15. The line flattener changes whitespace only: at every tier the
    characters of its output that are not whitespace are those of its
    input, in the same order. *)
Theorem flatten_code_keeps_text (code : str) (lv : level) :
  nonspace (flatten_code code lv) = nonspace code.
Proof.
  destruct lv; try reflexivity.
  rewrite flatten_code_flush, nonspace_join_lines, flatten_loop_nonspace.
  apply nonspace_split_lines.
Qed.

Lemma head_ok_lstrip : forall s, head_ok (lstrip s) = true.
Proof.
  induction s as [|c s IH]; [reflexivity|].
  rewrite lstrip_cons. destruct (is_space c) eqn:E; [exact IH|].
  cbn [head_ok]. now rewrite E.
Qed.

Lemma lstrip_head_ok (s : str) : head_ok s = true -> lstrip s = s.
Proof.
  destruct s as [|c s]; [reflexivity|]. cbn [head_ok]. intros H.
  rewrite lstrip_cons. apply negb_true_iff in H. now rewrite H.
Qed.

Lemma lstrip_snoc (c : ascii) : is_space c = false ->
  forall s, lstrip (s ++ [c]) = lstrip s ++ [c].
Proof.
  intros Hc. induction s as [|x s IH].
  - cbn [app]. rewrite lstrip_cons, Hc. reflexivity.
  - cbn [app]. rewrite !lstrip_cons. now destruct (is_space x).
Qed.

Lemma lstrip_app (a b : str) :
  nonempty (lstrip a) = true -> lstrip (a ++ b) = lstrip a ++ b.
Proof.
  induction a as [|x a IH]; [discriminate|].
  cbn [app]. rewrite !lstrip_cons.
  destruct (is_space x); [exact IH | reflexivity].
Qed.

Lemma rstrip_cons (c : ascii) (s : str) :
  is_space c = false -> rstrip (c :: s) = c :: rstrip s.
Proof.
  intros Hc. unfold rstrip. cbn [rev].
  rewrite (lstrip_snoc c Hc), rev_app_distr. reflexivity.
Qed.

Lemma stripped_strip (s : str) : stripped (strip s) = true.
Proof.
  unfold stripped, strip. apply andb_true_iff. split.
  - pose proof (head_ok_lstrip s) as H.
    destruct (lstrip s) as [|c r]; [reflexivity|].
    cbn [head_ok] in H. apply negb_true_iff in H.
    rewrite (rstrip_cons c r H). cbn [head_ok]. now rewrite H.
  - unfold rstrip. rewrite rev_involutive. apply head_ok_lstrip.
Qed.

Lemma strip_stripped (s : str) : stripped s = true -> strip s = s.
Proof.
  unfold stripped. intros H. apply andb_true_iff in H. destruct H as [H1 H2].
  unfold strip, rstrip.
  now rewrite (lstrip_head_ok s H1), (lstrip_head_ok _ H2), rev_involutive.
Qed.

Lemma strip_space_cons (s : str) : strip (" " :: s) = strip s.
Proof. unfold strip. now rewrite lstrip_cons. Qed.

(** A line of the flattened text: not empty, stripped, without a
    newline. *)
Lemma strip_line (line : str) :
  has_char nl line = false -> nonempty (strip line) = true ->
  flat_line (strip line) = true.
Proof.
  intros Hnl Hne. unfold flat_line.
  now rewrite Hne, stripped_strip, (strip_no_char nl line Hnl).
Qed.

Lemma strip_first (c : ascii) (r : str) (s : str) :
  lstrip s = c :: r -> exists r', strip s = c :: r'.
Proof.
  intros E. unfold strip. rewrite E.
  pose proof (head_ok_lstrip s) as H. rewrite E in H.
  cbn [head_ok] in H. apply negb_true_iff in H.
  rewrite (rstrip_cons c r H). eauto.
Qed.

Lemma merged_snoc (l : str) : forall ls b,
  merged b (ls ++ [l])
  = merged b ls
    && ((match last_error ls with
         | Some x => startswith ["#"] x
         | None => b
         end) || startswith ["#"] l).
Proof.
  induction ls as [|x ls IH]; intros b.
  - cbn [app merged last_error]. now rewrite andb_true_r.
  - cbn [app merged]. rewrite IH, <- andb_assoc. f_equal. f_equal.
    destruct ls as [|y ls']; [reflexivity|].
    destruct (last_error_cons y ls') as [z Hz].
    change (last_error (x :: y :: ls')) with (last_error (y :: ls')).
    now rewrite Hz.
Qed.

Lemma startswith_app_nonempty (pre : ascii) (a b : str) :
  nonempty a = true -> startswith [pre] (a ++ b) = startswith [pre] a.
Proof. destruct a; [discriminate | reflexivity]. Qed.

Lemma flatten_buffer_line (buffer : str) :
  has_char nl buffer = false ->
  nonempty (lstrip buffer) = true ->
  startswith ["#"] (lstrip buffer) = false ->
  flat_line (strip buffer) = true
  /\ startswith ["#"] (strip buffer) = false.
Proof.
  intros Hnl Hne Hh.
  destruct (lstrip buffer) as [|c r] eqn:E; [discriminate|].
  destruct (strip_first c r buffer E) as [r' Er']. split.
  - unfold flat_line.
    rewrite stripped_strip, (strip_no_char nl buffer Hnl), Er'. reflexivity.
  - rewrite Er'. exact Hh.
Qed.

Lemma flatten_step_shape (st : list str * str) (line : str) :
  flatten_shape st -> has_char nl line = false ->
  flatten_shape (flatten_step st line).
Proof.
  destruct st as [result buffer].
  intros (Hflat & Hmerged & Hlast & Hnl & Hbuf) Hline.
  unfold flatten_shape, flatten_step in *. cbn [fst snd] in *.
  destruct (nonempty (strip line)) eqn:Ene; cbn [negb fst snd]; [|tauto].
  pose proof (strip_line line Hline Ene) as Hstripped.
  destruct (startswith ["#"] (strip line)) eqn:Ehash; cbn [fst snd].
  - rewrite last_error_snoc, merged_snoc, Ehash, orb_true_r, andb_true_r.
    destruct (nonempty buffer) eqn:Eb.
    + destruct Hbuf as [->|[Hne Hh]]; [discriminate|].
      destruct (flatten_buffer_line buffer Hnl Hne Hh) as [Hb _].
      rewrite merged_snoc, Hmerged. cbn [andb].
      repeat split; auto.
      * apply forallb_snoc; [|exact Hstripped].
        apply forallb_snoc; [exact Hflat | exact Hb].
      * destruct (last_error result); [now rewrite Hlast | reflexivity].
    + repeat split; auto. apply forallb_snoc; assumption.
  - repeat split; auto.
    + rewrite has_char_app, Hnl. cbn [has_char existsb orb].
      change (existsb (Ascii.eqb nl) (strip line))
        with (has_char nl (strip line)).
      now rewrite (strip_no_char nl line Hline).
    + right.
      assert (Hhead : lstrip (" " :: strip line) = strip line).
      { rewrite lstrip_cons. change (is_space " ") with true.
        apply lstrip_head_ok. pose proof (stripped_strip line) as H.
        unfold stripped in H. apply andb_true_iff in H. tauto. }
      destruct Hbuf as [->|[Hne Hh]].
      * cbn [app]. rewrite Hhead. tauto.
      * rewrite (lstrip_app _ _ Hne), (startswith_app_nonempty _ _ _ Hne).
        split; [|exact Hh]. now destruct (lstrip buffer).
Qed.

Lemma flatten_loop_shape : forall (lines : list str) (st : list str * str),
  forallb (fun l => negb (has_char nl l)) lines = true ->
  flatten_shape st ->
  flatten_shape (fold_left flatten_step lines st).
Proof.
  induction lines as [|l lines IH]; intros st Hl Hst; [exact Hst|].
  cbn [forallb] in Hl. apply andb_true_iff in Hl. destruct Hl as [Hl Hls].
  cbn [fold_left]. apply IH; [exact Hls|].
  apply flatten_step_shape; [exact Hst|]. now apply negb_true_iff.
Qed.

Lemma flush_shape (st : list str * str) :
  flatten_shape st ->
  forallb flat_line (flush st) = true /\ merged true (flush st) = true.
Proof.
  destruct st as [result buffer].
  intros (Hflat & Hmerged & Hlast & Hnl & Hbuf).
  unfold flush. cbn [fst snd] in *.
  destruct (nonempty buffer) eqn:Eb; [|tauto].
  destruct Hbuf as [->|[Hne Hh]]; [discriminate|].
  destruct (flatten_buffer_line buffer Hnl Hne Hh) as [Hb _]. split.
  - apply forallb_snoc; assumption.
  - rewrite merged_snoc, Hmerged. cbn [andb].
    destruct (last_error result); [now rewrite Hlast | reflexivity].
Qed.

Lemma flatten_code_shape (code : str) :
  exists ls, flatten_code code extreme = join_lines ls
             /\ forallb flat_line ls = true /\ merged true ls = true.
Proof.
  exists (flush (fold_left flatten_step (split_lines code) ([], []))).
  split; [apply flatten_code_flush|].
  apply flush_shape, flatten_loop_shape; [apply split_lines_no_nl|].
  unfold flatten_shape. cbn [fst snd forallb merged last_error].
  repeat split. now left.
Qed.

Lemma flat_line_no_nl (ls : list str) :
  forallb flat_line ls = true ->
  forallb (fun l => negb (has_char nl l)) ls = true.
Proof.
  intros H. apply forallb_forall. intros l Hl.
  apply (proj1 (forallb_forall _ _) H) in Hl. unfold flat_line in Hl.
  apply andb_true_iff in Hl. tauto.
Qed.

(** X16. At tier 3 the flattened text is empty or consists of lines each
    of which is not empty and has no whitespace at either end, and no
    two neighbouring lines are both without a leading directive marker:
    every run of ordinary lines has been merged into one. *)
Theorem flatten_code_lines (code : str) :
  let out := flatten_code code extreme in
  out = []
  \/ Forall (fun l => l <> [] /\ strip l = l) (split_lines out)
     /\ merged true (split_lines out) = true.
Proof.
  cbv zeta. destruct (flatten_code_shape code) as (ls & -> & Hflat & Hm).
  destruct ls as [|l ls]; [now left | right].
  rewrite split_join_lines;
    [|discriminate | now apply flat_line_no_nl].
  split; [|exact Hm].
  apply Forall_forall. intros x Hx.
  apply (proj1 (forallb_forall _ _) Hflat) in Hx. unfold flat_line in Hx.
  apply andb_true_iff in Hx. destruct Hx as [Hx _].
  apply andb_true_iff in Hx. destruct Hx as [Hne Hs]. split.
  - now destruct x.
  - now apply strip_stripped.
Qed.

Lemma flatten_flat_lines : forall ls,
  forallb flat_line ls = true ->
  (forall res, merged true ls = true ->
     flush (fold_left flatten_step ls (res, [])) = res ++ ls)
  /\ (forall res l0, flat_line l0 = true -> merged false ls = true ->
        flush (fold_left flatten_step ls (res, " " :: l0))
        = res ++ l0 :: ls).
Proof.
  assert (Hstrip : forall l, flat_line l = true ->
            strip l = l /\ nonempty l = true).
  { intros l H. unfold flat_line in H.
    apply andb_true_iff in H. destruct H as [H _].
    apply andb_true_iff in H. destruct H as [Hne Hs].
    split; [now apply strip_stripped | exact Hne]. }
  induction ls as [|l ls IH]; intros Hflat.
  - split.
    + intros res _. unfold flush. cbn [fold_left fst snd nonempty].
      now rewrite app_nil_r.
    + intros res l0 Hl0 _. unfold flush. cbn [fold_left fst snd nonempty].
      rewrite strip_space_cons. now rewrite (proj1 (Hstrip l0 Hl0)).
  - cbn [forallb] in Hflat. apply andb_true_iff in Hflat.
    destruct Hflat as [Hl Hls]. destruct (IH Hls) as [IH1 IH2].
    destruct (Hstrip l Hl) as [Hsl Hnel]. split.
    + intros res Hm. cbn [merged orb andb] in Hm. cbn [fold_left].
      unfold flatten_step at 2. rewrite Hsl, Hnel. cbn [negb].
      destruct (startswith ["#"] l) eqn:Eh.
      * cbn [nonempty]. rewrite (IH1 _ Hm), <- app_assoc. reflexivity.
      * cbn [app]. now rewrite (IH2 res l Hl Hm).
    + intros res l0 Hl0 Hm. cbn [merged orb] in Hm.
      apply andb_true_iff in Hm. destruct Hm as [Eh Hm]. rewrite Eh in Hm.
      cbn [fold_left]. unfold flatten_step at 2. rewrite Hsl, Hnel, Eh.
      cbn [negb nonempty]. rewrite strip_space_cons.
      rewrite (proj1 (Hstrip l0 Hl0)), (IH1 _ Hm), <- !app_assoc.
      reflexivity.
Qed.

(** X17. The line flattener is idempotent at every tier: run on its own
    output it changes nothing. *)
Theorem flatten_code_idempotent (code : str) (lv : level) :
  flatten_code (flatten_code code lv) lv = flatten_code code lv.
Proof.
  destruct lv; try reflexivity.
  destruct (flatten_code_shape code) as (ls & -> & Hflat & Hm).
  destruct ls as [|l ls]; [reflexivity|].
  rewrite flatten_code_flush.
  rewrite split_join_lines;
    [|discriminate | now apply flat_line_no_nl].
  now rewrite (proj1 (flatten_flat_lines _ Hflat) [] Hm).
Qed.

(** ** The macro injector: where the block goes *)

Lemma insert_block {A : Type} (i : nat) (l : list A) : i <= length l ->
  forall xs,
    fold_left (fun ls x => list_insert i x ls) (rev xs) l
    = firstn i l ++ xs ++ skipn i l.
Proof.
  intros Hi xs. rewrite <- fold_left_rev_right, rev_involutive.
  induction xs as [|x xs IH].
  - cbn [fold_right app]. now rewrite firstn_skipn.
  - cbn [fold_right]. rewrite IH. unfold list_insert.
    rewrite firstn_app, firstn_firstn, Nat.min_id, length_firstn.
    replace (i - Nat.min i (length l)) with 0 by lia.
    cbn [firstn]. rewrite app_nil_r.
    rewrite skipn_app, length_firstn.
    replace (i - Nat.min i (length l)) with 0 by lia.
    rewrite skipn_firstn_comm, Nat.sub_diag. cbn [firstn skipn app].
    reflexivity.
Qed.

Lemma find_include_none : forall lines i,
  forallb (fun l => negb (is_include l)) lines = true ->
  find_include i lines = 0.
Proof.
  induction lines as [|l lines IH]; intros i H; [reflexivity|].
  cbn [forallb] in H. apply andb_true_iff in H. destruct H as [Hl H].
  cbn [find_include]. unfold is_include in Hl.
  apply negb_true_iff in Hl. rewrite Hl. now apply IH.
Qed.

Lemma find_include_first (inc : str) (below : list str) : forall above i,
  forallb (fun l => negb (is_include l)) above = true ->
  is_include inc = true ->
  find_include i (above ++ inc :: below) = i + length above + 1.
Proof.
  induction above as [|l above IH]; intros i H Hinc.
  - cbn [app find_include length]. unfold is_include in Hinc.
    rewrite Hinc. lia.
  - cbn [forallb] in H. apply andb_true_iff in H. destruct H as [Hl H].
    cbn [app find_include length]. unfold is_include in Hl.
    apply negb_true_iff in Hl. rewrite Hl, (IH (S i) H Hinc). lia.
Qed.

Lemma inject_macros_lines (code : str) (lv : level) : lv <> mild ->
  inject_macros code lv
  = let lines := split_lines (rewrite_operators code) in
    join_lines (fold_left
                  (fun ls macro => list_insert (find_include 0 lines) macro ls)
                  (rev macros) lines).
Proof. destruct lv; [congruence | reflexivity | reflexivity]. Qed.

(** X18. At tiers 2 and 3, when some line of the rewritten text starts,
    once stripped, with the include keyword, the seven macro lines are
    inserted as one block right after the first such line; the lines
    before and after it are kept as they are. *)
Theorem macros_after_first_include (code : str) (lv : level)
    (above below : list str) (inc : str) :
  lv <> mild ->
  split_lines (rewrite_operators code) = above ++ inc :: below ->
  forallb (fun l => negb (is_include l)) above = true ->
  is_include inc = true ->
  inject_macros code lv = join_lines (above ++ inc :: macros ++ below).
Proof.
  intros Hlv Hlines Habove Hinc.
  rewrite (inject_macros_lines code lv Hlv). cbv zeta. rewrite Hlines.
  rewrite (find_include_first inc below above 0 Habove Hinc).
  rewrite insert_block by (rewrite length_app; cbn [length]; lia).
  f_equal.
  replace (0 + length above + 1) with (length (above ++ [inc]))
    by (rewrite length_app; cbn [length]; lia).
  replace (above ++ inc :: below) with ((above ++ [inc]) ++ below)
    by (now rewrite <- app_assoc).
  rewrite firstn_app, firstn_all, Nat.sub_diag.
  rewrite skipn_app, skipn_all, Nat.sub_diag.
  cbn [firstn skipn app]. rewrite app_nil_r, <- app_assoc. reflexivity.
Qed.

Lemma macros_after_first_include_witness :
  inject_macros two_includes extreme
  = join_lines ([] ++ txt "#include <a.h>" :: macros
                   ++ [txt "#include <b.h>"; txt "int x;"]).
Proof.
  apply (macros_after_first_include two_includes extreme []
           [txt "#include <b.h>"; txt "int x;"] (txt "#include <a.h>")).
  - discriminate.
  - vm_compute. reflexivity.
  - reflexivity.
  - vm_compute. reflexivity.
Defined.

(** X19. At tiers 2 and 3, when no line of the rewritten text starts,
    once stripped, with the include keyword, the seven macro lines are
    put in front of the text, before its first line. *)
Theorem macros_lead_without_include (code : str) (lv : level) :
  lv <> mild ->
  forallb (fun l => negb (is_include l)) (split_lines (rewrite_operators code))
  = true ->
  inject_macros code lv
  = join_lines (macros ++ split_lines (rewrite_operators code)).
Proof.
  intros Hlv Hnone.
  rewrite (inject_macros_lines code lv Hlv). cbv zeta.
  rewrite (find_include_none _ 0 Hnone).
  now rewrite insert_block by lia.
Qed.

Lemma macros_lead_without_include_witness :
  inject_macros (txt "int x;") moderate
  = join_lines (macros ++ split_lines (rewrite_operators (txt "int x;"))).
Proof.
  apply (macros_lead_without_include (txt "int x;") moderate).
  - discriminate.
  - vm_compute. reflexivity.
Defined.

(** ** The numeric obfuscator: what the candidates denote *)

Ltac eval_digit :=
  match goal with
  | |- context [digit_of ?b ?c] =>
    let v := eval vm_compute in (digit_of b c) in
    change (digit_of b c) with v
  end.

Lemma parse_uint_acc : forall (d : Decimal.uint) (acc : positive),
  parse_digits 10 (Zpos acc) (txt (NilEmpty.string_of_uint d))
  = Some (Zpos (Pos.of_uint_acc d acc)).
Proof.
  induction d; intros acc;
    cbn [NilEmpty.string_of_uint Pos.of_uint_acc]; rewrite ?txt_String;
    [reflexivity|..];
    cbn [parse_digits]; eval_digit; cbv iota; rewrite <- IHd;
    f_equal; lia.
Qed.

Lemma parse_uint : forall d : Decimal.uint,
  parse_digits 10 0 (txt (NilEmpty.string_of_uint d))
  = Some (Z.of_N (Pos.of_uint d)).
Proof.
  induction d;
    cbn [NilEmpty.string_of_uint Pos.of_uint]; rewrite ?txt_String;
    [reflexivity|..];
    cbn [parse_digits]; eval_digit; cbv iota;
    [exact IHd | apply parse_uint_acc ..].
Qed.

Lemma string_of_uint_digits (d : Decimal.uint) :
  forallb is_digit (txt (NilEmpty.string_of_uint d)) = true.
Proof.
  induction d; cbn [NilEmpty.string_of_uint]; rewrite ?txt_String;
    cbn [forallb]; rewrite ?IHd; reflexivity.
Qed.

Lemma nzhead_head : forall l l' : Decimal.uint,
  Decimal.nzhead l <> Decimal.D0 l'.
Proof.
  induction l; intros l'; cbn [Decimal.nzhead]; try discriminate.
  apply IHl.
Qed.

Lemma to_uint_head (p : positive) (l : Decimal.uint) :
  Pos.to_uint p <> Decimal.D0 l.
Proof.
  intros E.
  pose proof (DecimalPos.Unsigned.to_of (Pos.to_uint p)) as H.
  rewrite DecimalPos.Unsigned.of_to in H.
  change (N.to_uint (N.pos p)) with (Pos.to_uint p) in H.
  rewrite E in H. unfold Decimal.unorm in H. cbn [Decimal.nzhead] in H.
  destruct (Decimal.nzhead l) eqn:En;
    try (symmetry in H; rewrite <- En in H; exact (nzhead_head _ _ H)).
  injection H as ->.
  exact (DecimalPos.Unsigned.to_uint_nonzero p E).
Qed.

(** The decimal numeral of a natural number: digits only, no leading
    zero unless the number is zero, and read back as the number. *)
Lemma str_of_int_shape (n : Z) : (0 <= n)%Z ->
  exists c rest,
    str_of_int n = c :: rest
    /\ is_digit c = true /\ forallb is_digit rest = true
    /\ ((0 < n)%Z -> Ascii.eqb c "0" = false)
    /\ c_int_value (c :: rest) = Some n.
Proof.
  intros Hn. destruct n as [|p|p]; [| |lia].
  - exists "0", []. repeat split. lia.
  - unfold str_of_int. cbn [Z.to_int NilZero.string_of_int].
    pose proof (DecimalPos.Unsigned.to_uint_nonnil p) as Hnil.
    pose proof (to_uint_head p) as Hhead.
    pose proof (string_of_uint_digits (Pos.to_uint p)) as Hd.
    pose proof (parse_uint (Pos.to_uint p)) as Hv.
    rewrite DecimalPos.Unsigned.of_to in Hv.
    unfold NilZero.string_of_uint.
    destruct (Pos.to_uint p) as [|l|l|l|l|l|l|l|l|l|l];
      [congruence | exfalso; exact (Hhead l eq_refl) |..];
      cbn [NilEmpty.string_of_uint] in *; rewrite txt_String in *;
      cbn [forallb] in Hd; apply andb_true_iff in Hd; destruct Hd as [Hc Hr];
      eexists _, _; (split; [reflexivity|]);
      (split; [exact Hc|]); (split; [exact Hr|]);
      (split; [reflexivity|]); exact Hv.
Qed.

Lemma parse_hex_of_pos : forall (p : positive) (rest : string) (acc : N),
  parse_digits 16 (Z.of_N acc) (txt (HexString.Raw.of_pos p rest))
  = parse_digits 16
      (Z.of_N match acc with
              | N0 => Npos p
              | Npos v => Npos (HexString.pos_hex_app v p)
              end) (txt rest).
Proof.
  intros p. remember (Pos.to_nat p) as n eqn:En. revert p En.
  induction n as [n IH] using lt_wf_ind. intros p -> rest acc.
  do 4 try destruct p as [p|p|]; cbn [HexString.Raw.of_pos];
    try (rewrite (IH (Pos.to_nat p)); [|lia | reflexivity]);
    rewrite txt_String; cbn [parse_digits]; eval_digit; cbv iota;
    f_equal; destruct acc; cbn [HexString.pos_hex_app Z.of_N]; lia.
Qed.

Lemma hex_of_pos_nonempty : forall (p : positive) (rest : string),
  nonempty (txt (HexString.Raw.of_pos p rest)) = true.
Proof.
  intros p. remember (Pos.to_nat p) as n eqn:En. revert p En.
  induction n as [n IH] using lt_wf_ind. intros p -> rest.
  do 4 try destruct p as [p|p|]; cbn [HexString.Raw.of_pos];
    try (apply (IH (Pos.to_nat p)); [lia | reflexivity]);
    reflexivity.
Qed.

Lemma hex_value (n : Z) : (0 <= n)%Z -> c_int_value (hex n) = Some n.
Proof.
  intros Hn. destruct n as [|p|p]; [reflexivity| |lia].
  unfold hex, HexString.of_Z, HexString.of_pos. rewrite !txt_String.
  pose proof (hex_of_pos_nonempty p EmptyString) as Hne.
  pose proof (parse_hex_of_pos p EmptyString 0) as Hv.
  destruct (txt (HexString.Raw.of_pos p EmptyString)) as [|h t];
    [discriminate|].
  exact Hv.
Qed.

Lemma parse_oct_of_pos : forall (p : positive) (rest : string) (acc : N),
  parse_digits 8 (Z.of_N acc) (txt (OctalString.Raw.of_pos p rest))
  = parse_digits 8
      (Z.of_N match acc with
              | N0 => Npos p
              | Npos v => Npos (OctalString.pos_oct_app v p)
              end) (txt rest).
Proof.
  intros p. remember (Pos.to_nat p) as n eqn:En. revert p En.
  induction n as [n IH] using lt_wf_ind. intros p -> rest acc.
  do 3 try destruct p as [p|p|]; cbn [OctalString.Raw.of_pos];
    try (rewrite (IH (Pos.to_nat p)); [|lia | reflexivity]);
    rewrite txt_String; cbn [parse_digits]; eval_digit; cbv iota;
    f_equal; destruct acc; cbn [OctalString.pos_oct_app Z.of_N]; lia.
Qed.

Lemma digit_of_not_x (base : Z) (x : ascii) (d : Z) :
  digit_of base x = Some d -> Ascii.eqb x "x" || Ascii.eqb x "X" = false.
Proof.
  intros H.
  destruct (Ascii.eqb x "x") eqn:E1;
    [apply Ascii.eqb_eq in E1; subst x; vm_compute in H; discriminate|].
  destruct (Ascii.eqb x "X") eqn:E2;
    [apply Ascii.eqb_eq in E2; subst x; vm_compute in H; discriminate|].
  reflexivity.
Qed.

Lemma octal_value (n : Z) : (0 < n)%Z ->
  c_int_value ("0" :: skipn 2 (oct n)) = Some n.
Proof.
  intros Hn. destruct n as [|p|p]; [lia| |lia].
  unfold oct, OctalString.of_Z, OctalString.of_pos. rewrite !txt_String.
  cbn [skipn].
  pose proof (parse_oct_of_pos p EmptyString 0) as Hv.
  cbn [Z.of_N txt list_ascii_of_string parse_digits] in Hv.
  assert (E : c_int_value ("0" :: txt (OctalString.Raw.of_pos p EmptyString))
              = parse_digits 8 0 (txt (OctalString.Raw.of_pos p EmptyString))).
  { destruct (txt (OctalString.Raw.of_pos p EmptyString)) as [|x [|h t]];
      try reflexivity.
    cbn [c_int_value]. change (Ascii.eqb "0" "0") with true. cbv iota.
    cbn [parse_digits] in Hv.
    destruct (digit_of 8 x) as [d|] eqn:Ed; [|discriminate].
    now rewrite (digit_of_not_x 8 x d Ed). }
  rewrite E. exact Hv.
Qed.

Lemma digit_not_char (c x : ascii) :
  is_digit c = true -> is_digit x = false -> Ascii.eqb x c = false.
Proof.
  intros Hc Hx. destruct (Ascii.eqb x c) eqn:E; [|reflexivity].
  apply Ascii.eqb_eq in E. congruence.
Qed.

(** A numeral is read as a constant. *)
Lemma c_expr_constant (c : ascii) (rest : str) :
  is_digit c = true -> c_expr_value (c :: rest) = c_int_value (c :: rest).
Proof.
  intros Hc. unfold c_expr_value. cbn [startswith].
  now rewrite (digit_not_char c "(" Hc eq_refl).
Qed.

Lemma parenthesised (inner : str) :
  startswith ["("] ("(" :: inner ++ [")"])
  && startswith [")"] (rev ("(" :: inner ++ [")"])) = true
  /\ removelast (tl ("(" :: inner ++ [")"])) = inner.
Proof.
  split.
  - cbn [rev]. rewrite rev_app_distr. reflexivity.
  - cbn [tl]. apply removelast_last.
Qed.

Lemma c_expr_mask (h : str) :
  c_expr_value (txt "(0xFF&" ++ h ++ [")"])
  = option_map (Z.land 255) (c_int_value h).
Proof.
  change (txt "(0xFF&" ++ h ++ [")"])
    with ("(" :: (txt "0xFF&" ++ h) ++ [")"]).
  unfold c_expr_value.
  destruct (parenthesised (txt "0xFF&" ++ h)) as [-> ->]. reflexivity.
Qed.

Lemma c_expr_shift (k : str) :
  c_expr_value (txt "(1<<" ++ k ++ [")"])
  = match c_int_value k with
    | Some n => if (n <? 31)%Z then Some (Z.shiftl 1 n) else None
    | None => None
    end.
Proof.
  change (txt "(1<<" ++ k ++ [")"]) with ("(" :: (txt "1<<" ++ k) ++ [")"]).
  unfold c_expr_value.
  destruct (parenthesised (txt "1<<" ++ k)) as [-> ->]. reflexivity.
Qed.

Lemma span_all_stop (p : ascii -> bool) (x : ascii) (b : str) : forall a,
  forallb p a = true -> p x = false -> span p (a ++ x :: b) = length a.
Proof.
  intros a Ha Hx. induction a as [|c a IH]; cbn [app span length].
  - now rewrite Hx.
  - cbn [forallb] in Ha. apply andb_true_iff in Ha. destruct Ha as [-> Ha].
    now rewrite IH.
Qed.

Lemma c_expr_sum (c : ascii) (rest b : str) :
  is_digit c = true -> forallb is_digit rest = true ->
  Ascii.eqb c "0" = false ->
  c_expr_value ("(" :: (c :: rest) ++ "+" :: b ++ [")"])
  = match c_int_value (c :: rest), c_int_value b with
    | Some x, Some y =>
      if ((x <=? INT_MAX) && (y <=? INT_MAX) && (x + y <=? INT_MAX))%Z
      then Some (x + y)%Z else None
    | _, _ => None
    end.
Proof.
  intros Hc Hrest H0.
  replace ("(" :: (c :: rest) ++ "+" :: b ++ [")"])
    with ("(" :: (c :: rest ++ "+" :: b) ++ [")"])
    by (cbn [app]; now rewrite <- app_assoc).
  unfold c_expr_value.
  destruct (parenthesised (c :: rest ++ "+" :: b)) as [-> ->].
  assert (Hmask : startswith (txt "0xFF&") (c :: rest ++ "+" :: b) = false).
  { change (txt "0xFF&") with ("0" :: txt "xFF&"). cbn [startswith].
    now rewrite (Ascii.eqb_sym "0" c), H0. }
  assert (Hshift : startswith (txt "1<<") (c :: rest ++ "+" :: b) = false).
  { change (txt "1<<") with ("1" :: "<" :: txt "<"). cbn [startswith].
    destruct rest as [|c2 rest]; cbn [app startswith].
    - now rewrite andb_false_r.
    - cbn [forallb] in Hrest. apply andb_true_iff in Hrest.
      destruct Hrest as [Hc2 _].
      now rewrite (digit_not_char c2 "<" Hc2 eq_refl), andb_false_r. }
  rewrite Hmask, Hshift.
  assert (Hall : forallb is_digit (c :: rest) = true)
    by (cbn [forallb]; now rewrite Hc, Hrest).
  change (c :: rest ++ "+" :: b) with ((c :: rest) ++ "+" :: b).
  rewrite (span_all_stop is_digit "+" b (c :: rest) Hall eq_refl).
  rewrite skipn_app, skipn_all, firstn_app, firstn_all, Nat.sub_diag.
  cbn [skipn firstn]. rewrite app_nil_r. cbn [app].
  change (Ascii.eqb "+" "+") with true. reflexivity.
Qed.

Lemma power_of_two (n : Z) :
  (0 < n)%Z -> Z.land n (n - 1) = 0%Z -> n = (2 ^ Z.log2 n)%Z.
Proof.
  intros Hn Hland.
  destruct (Z.log2_spec n Hn) as [Hlo Hhi].
  destruct (Z.eq_dec n (2 ^ Z.log2 n)) as [E|E]; [exact E | exfalso].
  assert (Hlog : Z.log2 (n - 1) = Z.log2 n).
  { apply Z.log2_unique; [apply Z.log2_nonneg | lia]. }
  assert (Hbit : Z.testbit (Z.land n (n - 1)) (Z.log2 n) = true).
  { rewrite Z.land_spec, (Z.bit_log2 n Hn). rewrite <- Hlog.
    rewrite Z.bit_log2; [reflexivity|].
    pose proof (Z.pow_pos_nonneg 2 (Z.log2 n) ltac:(lia) (Z.log2_nonneg n)).
    lia. }
  rewrite Hland, Z.bits_0 in Hbit. discriminate.
Qed.

Lemma randint_range (a b : Z) (r : rng) :
  (a <= b)%Z -> (a <= fst (randint a b r) <= b)%Z.
Proof.
  intros H. unfold randint, randbelow. cbn [fst].
  pose proof (Nat.mod_upper_bound (r 0) (Z.to_nat (b - a + 1))
                ltac:(lia)). lia.
Qed.

Lemma choices_denote (n : Z) (r : rng) (e : str) :
  (0 <= n <= INT_MAX)%Z -> In e (fst (choices n r)) ->
  c_expr_value e = Some n.
Proof.
  intros [Hn Hmax]. unfold INT_MAX in Hmax. unfold choices.
  assert (Hstr : forall m, (0 <= m)%Z ->
            c_expr_value (str_of_int m) = Some m).
  { intros m Hm.
    destruct (str_of_int_shape m Hm) as (c & rest & -> & Hc & _ & _ & Hv).
    now rewrite (c_expr_constant c rest Hc). }
  assert (Hhex : c_expr_value (hex n) = Some n).
  { pose proof (hex_value n Hn) as Hv.
    destruct n as [|p|p]; [reflexivity| |lia].
    unfold hex, HexString.of_Z, HexString.of_pos in *.
    rewrite !txt_String in *. now rewrite c_expr_constant. }
  set (P := fun e : str => c_expr_value e = Some n).
  assert (H1 : Forall P [str_of_int n])
    by (repeat constructor; now apply Hstr).
  set (c2 := if (n >=? 0)%Z then [str_of_int n] ++ [hex n] else [str_of_int n]).
  assert (H2 : Forall P c2).
  { unfold c2. destruct (n >=? 0)%Z; [|exact H1].
    apply Forall_app. split; [exact H1 | now repeat constructor]. }
  set (c3 := if ((0 <? n) && (n <? 256))%Z then _ else c2).
  assert (H3 : Forall P c3).
  { unfold c3. destruct ((0 <? n) && (n <? 256))%Z eqn:E; [|exact H2].
    apply andb_true_iff in E. destruct E as [E1 E2].
    apply Z.ltb_lt in E1, E2.
    apply Forall_app. split; [exact H2|].
    constructor; [|constructor; [|constructor]].
    - unfold P. rewrite c_expr_constant by reflexivity.
      now apply octal_value.
    - unfold P. rewrite c_expr_mask, (hex_value n Hn). cbn [option_map].
      f_equal. rewrite Z.land_comm.
      change 255%Z with (Z.ones 8). rewrite Z.land_ones by lia.
      apply Z.mod_small. change (2 ^ 8)%Z with 256%Z. lia. }
  assert (Hshift : (0 < n)%Z -> Z.land n (n - 1) = 0%Z ->
            P (txt "(1<<" ++ str_of_int (bit_length n - 1) ++ [")"])).
  { intros Hpos Hland. unfold P. rewrite c_expr_shift.
    assert (Hk : (bit_length n - 1 = Z.log2 n)%Z).
    { unfold bit_length. destruct (n =? 0)%Z eqn:E0;
        [apply Z.eqb_eq in E0; lia|].
      rewrite Z.abs_eq by lia. lia. }
    rewrite Hk.
    destruct (str_of_int_shape (Z.log2 n) (Z.log2_nonneg n))
      as (c & rest & -> & _ & _ & _ & ->).
    assert (Hlog : (Z.log2 n < 31)%Z)
      by (apply Z.log2_lt_pow2; [exact Hpos | change (2 ^ 31)%Z
            with 2147483648%Z; lia]).
    apply Z.ltb_lt in Hlog. rewrite Hlog. f_equal.
    rewrite Z.shiftl_1_l. symmetry. now apply power_of_two. }
  assert (Hlast : forall c4, Forall P c4 ->
            Forall P (if ((n >? 0) && (Z.land n (n - 1) =? 0))%Z
                      then c4 ++ [txt "(1<<" ++ str_of_int (bit_length n - 1)
                                     ++ [")"]]
                      else c4)).
  { intros c4 H4.
    destruct ((n >? 0) && (Z.land n (n - 1) =? 0))%Z eqn:E; [|exact H4].
    apply andb_true_iff in E. destruct E as [E1 E2].
    apply Z.gtb_lt in E1. apply Z.eqb_eq in E2.
    apply Forall_app. split; [exact H4|]. repeat constructor.
    now apply Hshift. }
  intros Hin. revert e Hin. apply Forall_forall.
  destruct (n >? 1)%Z eqn:E1.
  - apply Z.gtb_lt in E1.
    pose proof (randint_range 1 (n - 1) r ltac:(lia)) as Ha.
    destruct (randint 1 (n - 1) r) as [a r1]. cbn [fst] in *.
    apply Hlast. apply Forall_app. split; [exact H3|].
    repeat constructor. unfold P.
    destruct (str_of_int_shape a ltac:(lia))
      as (c & rest & -> & Hc & Hrest & H0 & Hva).
    destruct (str_of_int_shape (n - a) ltac:(lia))
      as (c' & rest' & -> & _ & _ & _ & Hvb).
    rewrite (c_expr_sum c rest (c' :: rest') Hc Hrest (H0 ltac:(lia))).
    rewrite Hva, Hvb. unfold INT_MAX.
    replace ((a <=? 2147483647) && (n - a <=? 2147483647)
             && (a + (n - a) <=? 2147483647))%Z with true
      by (symmetry; rewrite !andb_true_iff, !Z.leb_le; lia).
    f_equal. lia.
  - cbn [fst]. apply Hlast. exact H3.
Qed.

(** X20. Every candidate the numeric obfuscator builds for a value [n]
    that fits the C type [int], [0 <= n <= INT_MAX], denotes [n] as a C
    expression: the decimal and hexadecimal numerals, the zero-prefixed
    octal numeral, the masked form, the sum and the shift, whatever the
    random source draws. *)
Theorem candidates_denote_value (n : Z) (r : rng) :
  (0 <= n <= INT_MAX)%Z ->
  Forall (fun e => c_expr_value e = Some n) (fst (choices n r)).
Proof.
  intros Hn. apply Forall_forall. intros e. now apply choices_denote.
Qed.

Lemma candidates_denote_value_witness :
  Forall (fun e => c_expr_value e = Some 8%Z) (fst (choices 8 rng0)).
Proof. apply (candidates_denote_value 8 rng0). unfold INT_MAX. lia. Defined.

Lemma digits_value : forall (s : str) (acc : Z),
  forallb is_digit s = true ->
  parse_digits 10 acc s
  = Some (fold_left (fun acc c => (10 * acc + digit_value c)%Z) s acc).
Proof.
  induction s as [|c s IH]; intros acc H; [reflexivity|].
  cbn [forallb] in H. apply andb_true_iff in H. destruct H as [Hc Hs].
  cbn [parse_digits fold_left].
  assert (Ed : digit_of 10 c = Some (digit_value c)).
  { unfold digit_of, digit_value. rewrite Hc.
    unfold is_digit, in_range in Hc. cbv zeta in Hc.
    apply andb_true_iff in Hc. destruct Hc as [Hlo Hhi].
    apply Nat.leb_le in Hlo, Hhi.
    destruct (Z.of_nat (nat_of_ascii c - 48) <? 10)%Z eqn:E;
      [reflexivity|]. apply Z.ltb_ge in E. lia. }
  rewrite Ed. now apply IH.
Qed.

Lemma decimal_value_lower : forall (s : str) (acc : Z),
  (1 <= acc)%Z ->
  (acc * 10 ^ Z.of_nat (length s)
   <= fold_left (fun acc c => 10 * acc + digit_value c) s acc)%Z.
Proof.
  induction s as [|c s IH]; intros acc Hacc.
  - cbn [length fold_left]. change (10 ^ Z.of_nat 0)%Z with 1%Z. lia.
  - cbn [fold_left]. rewrite length_cons, Nat2Z.inj_succ.
    rewrite Z.pow_succ_r by lia.
    assert (Hd : (0 <= digit_value c)%Z) by (unfold digit_value; lia).
    specialize (IH (10 * acc + digit_value c)%Z ltac:(lia)).
    assert (Hp : (0 < 10 ^ Z.of_nat (length s))%Z)
      by (apply Z.pow_pos_nonneg; lia).
    nia.
Qed.

Lemma leading_digit (c : ascii) :
  is_digit c = true -> Ascii.eqb c "0" = false -> (1 <= digit_value c)%Z.
Proof.
  intros Hc H0. unfold digit_value.
  unfold is_digit, in_range in Hc. cbv zeta in Hc.
  apply andb_true_iff in Hc. destruct Hc as [Hlo Hhi].
  apply Nat.leb_le in Hlo.
  destruct (Nat.eq_dec (nat_of_ascii c) 48) as [E|E]; [|lia].
  apply (f_equal ascii_of_nat) in E. rewrite ascii_nat_embedding in E.
  subst c. discriminate.
Qed.

(** A numeral without a leading zero whose value fits [int] has at most
    ten digits. *)
Lemma int_numeral_short (c : ascii) (rest : str) :
  is_digit c = true -> Ascii.eqb c "0" = false ->
  (decimal_value (c :: rest) <= INT_MAX)%Z -> length rest < 10.
Proof.
  intros Hc H0 Hmax. unfold decimal_value, INT_MAX in Hmax.
  cbn [fold_left] in Hmax.
  pose proof (leading_digit c Hc H0) as Hd.
  pose proof (decimal_value_lower rest (10 * 0 + digit_value c)%Z
                ltac:(lia)) as Hlow.
  destruct (Nat.lt_ge_cases (length rest) 10) as [Hlt|Hge]; [exact Hlt|].
  exfalso.
  assert (Hpow : (10 ^ 10 <= 10 ^ Z.of_nat (length rest))%Z)
    by (apply Z.pow_le_mono_r; lia).
  change (10 ^ 10)%Z with 10000000000%Z in Hpow. nia.
Qed.

Lemma decimal_value_nonneg (s : str) : (0 <= decimal_value s)%Z.
Proof.
  unfold decimal_value.
  assert (H : forall acc, (0 <= acc)%Z ->
            (0 <= fold_left (fun acc c => 10 * acc + digit_value c) s acc)%Z).
  { induction s as [|c s IH]; intros acc Hacc; [exact Hacc|].
    cbn [fold_left]. apply IH. unfold digit_value. lia. }
  apply H. lia.
Qed.

(** X21. A decimal literal without a leading zero whose value fits the
    C type [int] keeps its value: [int] reads the value C gives the
    literal, [replace] returns, and the expression it returns denotes
    that value, whatever the random source draws. *)
Theorem replace_keeps_value (lexeme : str) (r : rng) :
  lexeme <> [] -> forallb is_digit lexeme = true ->
  startswith ["0"] lexeme = false ->
  (decimal_value lexeme <= INT_MAX)%Z ->
  c_int_value lexeme = Some (decimal_value lexeme)
  /\ int_of_digits lexeme = Ok (decimal_value lexeme)
  /\ exists e, fst (replace lexeme r) = Ok e
               /\ c_expr_value e = c_int_value lexeme.
Proof.
  intros Hne Hd H0 Hmax.
  destruct lexeme as [|c rest]; [congruence|].
  cbn [startswith] in H0. rewrite andb_true_r in H0.
  rewrite Ascii.eqb_sym in H0.
  assert (Hc : is_digit c = true)
    by (cbn [forallb] in Hd; apply andb_true_iff in Hd; tauto).
  assert (Hv : c_int_value (c :: rest) = Some (decimal_value (c :: rest))).
  { unfold c_int_value. rewrite H0. now apply digits_value. }
  assert (Hint : int_of_digits (c :: rest) = Ok (decimal_value (c :: rest))).
  { unfold int_of_digits.
    pose proof (int_numeral_short c rest Hc H0 Hmax) as Hlen.
    replace (length (c :: rest) <=? int_max_str_digits) with true;
      [reflexivity|].
    symmetry. apply Nat.leb_le. unfold int_max_str_digits.
    cbn [length]. lia. }
  split; [exact Hv|]. split; [exact Hint|]. rewrite Hv.
  unfold replace. rewrite Hint.
  pose proof (choices_denote (decimal_value (c :: rest)) r) as Hch.
  pose proof (choices_nonempty (decimal_value (c :: rest)) r) as Hn.
  destruct (choices (decimal_value (c :: rest)) r) as [cs r1].
  cbn [fst] in *.
  pose proof (choice_In [] cs r1 Hn) as Hin.
  destruct (choice [] cs r1) as [e r2]. cbn [fst] in *.
  exists e. split; [reflexivity|]. apply Hch; [|exact Hin].
  split; [apply decimal_value_nonneg | exact Hmax].
Qed.

Lemma replace_keeps_value_witness :
  c_int_value (txt "12") = Some (decimal_value (txt "12"))
  /\ int_of_digits (txt "12") = Ok (decimal_value (txt "12"))
  /\ exists e, fst (replace (txt "12") rng0) = Ok e
               /\ c_expr_value e = c_int_value (txt "12").
Proof.
  apply (replace_keeps_value (txt "12") rng0).
  - discriminate.
  - reflexivity.
  - reflexivity.
  - vm_compute. discriminate.
Defined.

(** ** The text passes: what they leave alone *)

Lemma scan_no_match {G : Type} (m : matcher G) (P : ascii -> bool) :
  (forall prev s, forallb P s = true -> m prev s = None) ->
  forall s prev, forallb P s = true -> scan m prev 0 s = map (@Gap G) s.
Proof.
  intros Hm. induction s as [|c s IH]; intros prev H; [reflexivity|].
  cbn [scan map]. rewrite (Hm prev (c :: s) H).
  cbn [forallb] in H. apply andb_true_iff in H. destruct H as [_ H].
  now rewrite IH.
Qed.

Lemma sub_pieces_gaps {G : Type} (repl : str -> G -> str) : forall s,
  sub_pieces repl (map (@Gap G) s) = s.
Proof.
  unfold sub_pieces. induction s as [|c s IH]; [reflexivity|].
  cbn [map concat app]. now rewrite IH.
Qed.

Lemma BINOP_RE_operator (o : ascii) (prev : option ascii) (s : str) :
  has_char o s = false -> BINOP_RE o prev s = None.
Proof.
  intros H. unfold BINOP_RE.
  destruct (word_boundary_before prev && (0 <? span is_word s));
    [|reflexivity].
  destruct (skipn _ (skipn _ s)) as [|c s2] eqn:E; [reflexivity|].
  destruct (Ascii.eqb c o) eqn:Ec; [|reflexivity].
  apply Ascii.eqb_eq in Ec. subst c. exfalso.
  apply has_char_forallb in H.
  apply (forallb_skipn _ (span is_word s)) in H.
  apply (forallb_skipn _ (span is_space (skipn (span is_word s) s))) in H.
  rewrite E in H. cbn [forallb] in H. now rewrite Ascii.eqb_refl in H.
Qed.

Lemma sub_binop_operator (o : ascii) (name : string) (part : str) :
  has_char o part = false -> sub_binop o name part = part.
Proof.
  intros H. unfold sub_binop.
  rewrite (scan_no_match (BINOP_RE o) (fun c => negb (Ascii.eqb c o))).
  - apply sub_pieces_gaps.
  - intros prev s Hs. apply BINOP_RE_operator. now apply has_char_forallb.
  - now apply has_char_forallb.
Qed.

Lemma map_even_id (f : str -> str) : forall parts,
  (forall p, In p parts -> f p = p) -> map_even f parts = parts.
Proof.
  fix IH 1. intros [|p [|q parts]] H; cbn [map_even].
  - reflexivity.
  - rewrite (H p); [reflexivity | now left].
  - rewrite (H p), IH; [reflexivity | | now left].
    intros x Hx. apply H. now right; right.
Qed.

Lemma part_no_char (c : ascii) (code part : str) :
  has_char c code = false -> In part (split_strings code) ->
  has_char c part = false.
Proof.
  intros H Hin. destruct (has_char c part) eqn:E; [|reflexivity].
  apply has_char_In in E.
  assert (Hc : In c (concat (split_strings code)))
    by (apply in_concat; eauto).
  rewrite split_strings_concat in Hc. apply has_char_In in Hc. congruence.
Qed.

(** X22. A text that holds none of the characters [+], [-] and [*] is
    left as it is by the operator rewriting of the macro injector. *)
Theorem operator_free_text_kept (code : str) :
  has_char "+" code = false -> has_char "-" code = false ->
  has_char "*" code = false ->
  rewrite_operators code = code.
Proof.
  intros Hadd Hsub Hmul. unfold rewrite_operators.
  rewrite map_even_id; [apply split_strings_concat|].
  intros p Hp.
  rewrite (sub_binop_operator "+" _ p (part_no_char _ _ _ Hadd Hp)).
  rewrite (sub_binop_operator "-" _ p (part_no_char _ _ _ Hsub Hp)).
  apply (sub_binop_operator "*" _ p (part_no_char _ _ _ Hmul Hp)).
Qed.

Lemma operator_free_text_kept_witness :
  rewrite_operators (txt "int x;") = txt "int x;".
Proof.
  apply (operator_free_text_kept (txt "int x;")); reflexivity.
Defined.

Lemma NUMBER_RE_digit (prev : option ascii) (s : str) :
  forallb (fun c => negb (is_digit c)) s = true -> NUMBER_RE prev s = None.
Proof.
  intros H. unfold NUMBER_RE.
  destruct s as [|c s]; cbn [span].
  - now rewrite andb_false_r.
  - cbn [forallb] in H. apply andb_true_iff in H. destruct H as [Hc _].
    apply negb_true_iff in Hc. rewrite Hc. now rewrite andb_false_r.
Qed.

Lemma sub_replace_gaps : forall (s : str) (r : rng),
  sub_replace (map (@Gap unit) s) r = (Ok s, r).
Proof.
  induction s as [|c s IH]; intros r; [reflexivity|].
  cbn [map sub_replace]. now rewrite IH.
Qed.

Lemma sub_numbers_digit (part : str) (r : rng) :
  forallb (fun c => negb (is_digit c)) part = true ->
  sub_numbers part r = (Ok part, r).
Proof.
  intros H. unfold sub_numbers.
  rewrite (scan_no_match NUMBER_RE (fun c => negb (is_digit c)));
    [apply sub_replace_gaps | | exact H].
  intros prev s. apply NUMBER_RE_digit.
Qed.

Lemma map_even_rng_id (r : rng) : forall parts,
  (forall p, In p parts -> sub_numbers p r = (Ok p, r)) ->
  map_even_rng parts r = (Ok parts, r).
Proof.
  fix IH 1. intros [|p [|q parts]] H; cbn [map_even_rng].
  - reflexivity.
  - rewrite (H p); [reflexivity | now left].
  - rewrite (H p), IH; [reflexivity | | now left].
    intros x Hx. apply H. now right; right.
Qed.

(** X23. A text without a digit passes through the numeric obfuscator
    unchanged at every tier, and the random source is not drawn from. *)
Theorem digit_free_text_kept (code : str) (lv : level) (r : rng) :
  forallb (fun c => negb (is_digit c)) code = true ->
  obfuscate_numbers code lv r = (Ok code, r).
Proof.
  intros H. unfold obfuscate_numbers. destruct lv; try reflexivity.
  rewrite map_even_rng_id;
    [cbn [result_map]; now rewrite split_strings_concat|].
  intros p Hp. apply sub_numbers_digit.
  apply forallb_forall. intros c Hc.
  apply (proj1 (forallb_forall _ _) H).
  rewrite <- (split_strings_concat code). apply in_concat. eauto.
Qed.

Lemma digit_free_text_kept_witness :
  obfuscate_numbers (txt "int x;") extreme rng0 = (Ok (txt "int x;"), rng0).
Proof.
  apply (digit_free_text_kept (txt "int x;") extreme rng0). reflexivity.
Defined.


(** ** The numeric obfuscator: when it raises *)

(** X24. At tier 3 the numeric obfuscator raises [ValueError] exactly
    when the text holds, in a segment it rewrites, a run of digits
    between word boundaries of more than 4300 digits; otherwise it
    returns a text.  It never raises at tiers 1 and 2, where it returns
    its input. *)
Theorem obfuscate_numbers_raises (code : str) (r : rng) :
  (long_number code = true ->
   fst (obfuscate_numbers code extreme r) = ValueError)
  /\ (long_number code = false ->
      exists out, fst (obfuscate_numbers code extreme r) = Ok out)
  /\ fst (obfuscate_numbers code mild r) = Ok code
  /\ fst (obfuscate_numbers code moderate r) = Ok code.
Proof.
  pose proof (obfuscate_numbers_cases code r) as H.
  destruct (fst (obfuscate_numbers code extreme r)) as [out| |];
    cbn [value_error_iff] in H; [|destruct H|]; rewrite H;
    repeat split; try discriminate; eauto.
Qed.

(** A numeral of 4301 digits as the whole source: at tier 3 the run
    raises [ValueError], whatever the random source. *)
Lemma long_numeral_raises (r : rng) :
  obfuscate (repeat "0" 4301) extreme r = ValueError.
Proof.
  set (z := repeat "0" 4301).
  assert (Htok : strip_comments (tokenize z) = [(Knumber, z)])
    by (vm_compute; reflexivity).
  assert (Htext : flatten_code (detokenize
                    (compress_whitespace [(Knumber, z)] extreme)) extreme = z)
    by (vm_compute; reflexivity).
  assert (Hops : rewrite_operators z = z).
  { unfold rewrite_operators. rewrite map_even_id; [apply split_strings_concat|].
    assert (Hadd : has_char "+" z = false) by (vm_compute; reflexivity).
    assert (Hsub : has_char "-" z = false) by (vm_compute; reflexivity).
    assert (Hmul : has_char "*" z = false) by (vm_compute; reflexivity).
    intros p Hp.
    rewrite (sub_binop_operator "+" _ p (part_no_char _ _ _ Hadd Hp)).
    rewrite (sub_binop_operator "-" _ p (part_no_char _ _ _ Hsub Hp)).
    apply (sub_binop_operator "*" _ p (part_no_char _ _ _ Hmul Hp)). }
  assert (Hinj : inject_macros z extreme = join_lines (macros ++ [z])).
  { rewrite inject_macros_lines by discriminate. cbv zeta. rewrite Hops.
    assert (Hl : split_lines z = [z]) by (vm_compute; reflexivity).
    rewrite Hl. rewrite (find_include_none [z] 0) by (vm_compute; reflexivity).
    now rewrite insert_block by (cbn; lia). }
  assert (Hren : fst (rename_identifiers [(Knumber, z)] extreme r)
                 = Ok ([(Knumber, z)], [])).
  { rewrite rename_identifiers_result. cbv zeta.
    change (count_identifiers [(Knumber, z)]) with (@nil (str * nat)).
    reflexivity. }
  unfold obfuscate. rewrite Htok.
  destruct (rename_identifiers [(Knumber, z)] extreme r) as [res r1].
  cbn [fst] in Hren. rewrite Hren.
  rewrite Htext, Hinj.
  assert (Hnum : fst (obfuscate_numbers (join_lines (macros ++ [z])) extreme r1)
                 = ValueError) by (vm_compute; reflexivity).
  destruct (obfuscate_numbers _ extreme r1) as [out r2].
  cbn [fst] in Hnum. now rewrite Hnum.
Qed.
